(** * maracas: the dataset registry and the batch-generation driver

    A shallow embedding of [maracas/dataset.py] (class [Dataset] and class
    [FileGenerator]) together with the parts of the Python runtime the
    module leans on: [os.path] on POSIX, a tree-shaped file system with
    [os.mkdir], [glob.glob] with [fnmatch], an insertion-ordered [dict],
    and [multiprocessing.Pool.map] with its chunks and its worker
    processes, which run side by side under a scheduler.

    Layout: part I holds every definition, parts II and III the lemmas. *)

From Stdlib Require Import List String Ascii ZArith Lia Bool Arith.
From Stdlib Require Import Permutation DecimalString.
Import ListNotations.
Open Scope string_scope.
Set Warnings "-register-all".

(* ================================================================= *)
(** * Part I: definitions *)
(* ================================================================= *)

(** ** Small string helpers *)

Module Str.

Definition is_empty (s : string) : bool :=
  match s with EmptyString => true | String _ _ => false end.

Definition starts_with (c : ascii) (s : string) : bool :=
  match s with EmptyString => false | String d _ => Ascii.eqb c d end.

Fixpoint ends_with (c : ascii) (s : string) : bool :=
  match s with
  | EmptyString => false
  | String d EmptyString => Ascii.eqb c d
  | String _ r => ends_with c r
  end.

Fixpoint existsb (f : ascii -> bool) (s : string) : bool :=
  match s with
  | EmptyString => false
  | String c r => f c || existsb f r
  end.

Fixpoint forallb (f : ascii -> bool) (s : string) : bool :=
  match s with
  | EmptyString => true
  | String c r => f c && forallb f r
  end.

Definition mem (c : ascii) (s : string) : bool := existsb (Ascii.eqb c) s.

(** [s.rstrip(c)] *)
Fixpoint rstrip (c : ascii) (s : string) : string :=
  match s with
  | EmptyString => EmptyString
  | String d r =>
      let r' := rstrip c r in
      if is_empty r' && Ascii.eqb c d then EmptyString else String d r'
  end.

(** [(s[:i], s[i:])] with [i = s.rfind(c) + 1]: the prefix up to and
    including the last [c], and what follows it. *)
Fixpoint rcut (c : ascii) (s : string) : string * string :=
  match s with
  | EmptyString => (EmptyString, EmptyString)
  | String d r =>
      let (h, t) := rcut c r in
      if negb (is_empty h) then (String d h, t)
      else if Ascii.eqb c d then (String d EmptyString, t)
      else (EmptyString, String d t)
  end.

(** [s.split(c)] *)
Fixpoint fields (c : ascii) (s : string) : list string :=
  match s with
  | EmptyString => [EmptyString]
  | String d r =>
      if Ascii.eqb c d then EmptyString :: fields c r
      else match fields c r with
           | f :: fs => String d f :: fs
           | [] => [String d EmptyString]
           end
  end.

(** [str(z)] for an [int]. *)
Definition of_Z (z : Z) : string := NilZero.string_of_int (Z.to_int z).

(** The string holds a NUL character; Python refuses such a path with
    [ValueError: embedded null byte] before any system call. *)
Definition has_nul (s : string) : bool := mem (ascii_of_nat 0) s.

End Str.

(** ** [posixpath] *)

Module PosixPath.

Definition sep : ascii := "/"%char.
Definition extsep : ascii := "."%char.

(** [os.path.join(a, b)] *)
Definition join (a b : string) : string :=
  if Str.starts_with sep b then b
  else if Str.is_empty a || Str.ends_with sep a then a ++ b
  else a ++ "/" ++ b.

(** [os.path.join(a, b, c)] folds [join] from the left. *)
Definition join3 (a b c : string) : string := join (join a b) c.

(** [os.path.split(p)]: the head loses its trailing slashes unless it is
    made of slashes only. *)
Definition split (p : string) : string * string :=
  let (h, t) := Str.rcut sep p in
  let h' := Str.rstrip sep h in
  (if Str.is_empty h' then h else h', t).

(** [os.path.basename(p)] *)
Definition basename (p : string) : string := snd (Str.rcut sep p).

(** [os.path.splitext(p)]: the extension starts at the last dot of the
    last component, dots that lead the component do not count. *)
Definition splitext (p : string) : string * string :=
  let (h, t) := Str.rcut sep p in
  let (d, e) := Str.rcut extsep t in
  match d with
  | EmptyString => (p, EmptyString)
  | String _ _ =>
      let stem := Str.rstrip extsep d in
      (* [d] ends with the last dot; [stem] is empty when only dots
         precede the extension *)
      if Str.is_empty stem then (p, EmptyString)
      else (h ++ String.substring 0 (String.length d - 1) d,
            String extsep e)
  end.

(** The names a path walks through: the fields between slashes that are
    not empty. The fields [.] and [..] are kept; the walk of the file
    system stays in place at the first and goes to the parent directory
    at the second. *)
Definition components (p : string) : list string :=
  filter (fun f => negb (Str.is_empty f)) (Str.fields sep p).

End PosixPath.

(** ** The file system: a tree of named entries *)

Module FS.

Section Tree.
Context {A : Type}.

(** A regular file with its content, or a directory with its entries
    in listing order. *)
Inductive node : Type :=
| File (content : A)
| Dir (entries : list (string * node)).

Fixpoint assoc (name : string) (es : list (string * node)) : option node :=
  match es with
  | [] => None
  | (n, m) :: es' => if String.eqb name n then Some m else assoc name es'
  end.

(** Replace the entry of that name where it stands, or add it last. *)
Fixpoint set_entry (name : string) (new : node) (es : list (string * node))
  : list (string * node) :=
  match es with
  | [] => [(name, new)]
  | (n, m) :: es' =>
      if String.eqb name n then (n, new) :: es'
      else (n, m) :: set_entry name new es'
  end.

Fixpoint walk (n : node) (cs : list string) : option node :=
  match cs with
  | [] => Some n
  | c :: cs' =>
      match n with
      | File _ => None
      | Dir es =>
          match assoc c es with
          | Some m => walk m cs'
          | None => None
          end
      end
  end.

(** Bind the last name of [cs] to [new] under the directory the other
    names lead to; [None] when they do not lead to a directory. *)
Fixpoint put (n : node) (cs : list string) (new : node) : option node :=
  match cs with
  | [] => None
  | c :: cs' =>
      match n with
      | File _ => None
      | Dir es =>
          match cs' with
          | [] => Some (Dir (set_entry c new es))
          | _ :: _ =>
              match assoc c es with
              | Some m =>
                  match put m cs' new with
                  | Some m' => Some (Dir (set_entry c m' es))
                  | None => None
                  end
              | None => None
              end
          end
      end
  end.

Definition is_dir_node (n : node) : bool :=
  match n with Dir _ => true | File _ => false end.

(** The place a list of names leads to from the place [acc], as the list
    of entry names from the root: a name steps into an entry that is
    there, [.] stays in a directory and [..] steps out of a directory to
    its parent (the root is its own parent). [None] when a step cannot be
    made. *)
Fixpoint canon (root : node) (acc : list string) (cs : list string)
  : option (list string) :=
  match cs with
  | [] => Some acc
  | c :: cs' =>
      if String.eqb c "." then
        match walk root acc with
        | Some (Dir _) => canon root acc cs'
        | _ => None
        end
      else if String.eqb c ".." then
        match walk root acc with
        | Some (Dir _) => canon root (removelast acc) cs'
        | _ => None
        end
      else
        match walk root (acc ++ [c]) with
        | Some _ => canon root (acc ++ [c]) cs'
        | None => None
        end
  end.

(** What a path names, from the root (which is also the working
    directory). The empty path and a path with a NUL character name
    nothing, and a path that ends with a slash names directories only. *)
Definition resolve (root : node) (p : string) : option node :=
  if Str.is_empty p || Str.has_nul p then None
  else match canon root [] (PosixPath.components p) with
       | Some acc =>
           match walk root acc with
           | Some n =>
               if Str.ends_with PosixPath.sep p && negb (is_dir_node n)
               then None else Some n
           | None => None
           end
       | None => None
       end.

(** [os.path.isfile], [os.path.isdir], [os.path.lexists] *)
Definition isfile (root : node) (p : string) : bool :=
  match resolve root p with Some (File _) => true | _ => false end.

Definition isdir (root : node) (p : string) : bool :=
  match resolve root p with Some (Dir _) => true | _ => false end.

Definition lexists (root : node) (p : string) : bool :=
  match resolve root p with Some _ => true | None => false end.

(** The names [os.scandir] yields, in listing order; nothing when the
    path is not a directory. *)
Definition listdir (root : node) (p : string) : list string :=
  match resolve root p with
  | Some (Dir es) => map fst es
  | _ => []
  end.

(** The regular files of a directory, by name. *)
Definition file_names (es : list (string * node)) : list string :=
  map fst (filter (fun e => negb (is_dir_node (snd e))) es).

(** [errno] of a failed call. *)
Inductive errno : Type := EEXIST | ENOENT | ENOTDIR | EISDIR.

(** How a call on a path fails: the system call returns an [errno], or
    the path holds a NUL character and no system call is made. *)
Inductive failure : Type :=
| Errno (e : errno)
| NulByte.

(** Whether the walk of the names [cs] from the place [acc] comes to a
    regular file with names left to walk. *)
Fixpoint through_file (root : node) (acc : list string) (cs : list string)
  : bool :=
  match cs with
  | [] => false
  | c :: cs' =>
      match walk root acc with
      | Some (File _) => true
      | Some (Dir _) =>
          if String.eqb c "." then through_file root acc cs'
          else if String.eqb c ".." then through_file root (removelast acc) cs'
          else through_file root (acc ++ [c]) cs'
      | None => false
      end
  end.

(** The [errno] of a walk that fails: [ENOTDIR] where a regular file is
    in the way, [ENOENT] where an entry is missing. *)
Definition walk_errno (root : node) (cs : list string) : errno :=
  if through_file root [] cs then ENOTDIR else ENOENT.

(** The [errno] of an access to a path that names nothing: a path that
    ends with a slash and leads to a regular file fails like a walk
    through that file. *)
Definition resolve_errno (root : node) (p : string) : errno :=
  if Str.is_empty p then ENOENT
  else match canon root [] (PosixPath.components p) with
       | Some _ => ENOTDIR
       | None => walk_errno root (PosixPath.components p)
       end.

(** Bind the last name of the path to [new] in the directory the names
    before it lead to. *)
Definition put_under (root : node) (cs : list string) (new : node)
  : failure + node :=
  match canon root [] (removelast cs) with
  | Some pacc =>
      match walk root pacc with
      | Some (Dir _) =>
          match put root (pacc ++ [last cs EmptyString]) new with
          | Some root' => inr root'
          | None => inl (Errno ENOENT)
          end
      | Some (File _) => inl (Errno ENOTDIR)
      | None => inl (Errno ENOENT)
      end
  | None => inl (Errno (walk_errno root (removelast cs)))
  end.

(** [os.mkdir(p)] *)
Definition mkdir (root : node) (p : string) : failure + node :=
  if Str.has_nul p then inl NulByte
  else if Str.is_empty p then inl (Errno ENOENT)
  else
    let cs := PosixPath.components p in
    match canon root [] cs with
    | Some _ => inl (Errno EEXIST)
    | None => put_under root cs (Dir [])
    end.

(** Create or truncate the regular file [p] and store [c] in it. *)
Definition write_file (root : node) (p : string) (c : A) : failure + node :=
  if Str.has_nul p then inl NulByte
  else if Str.is_empty p then inl (Errno ENOENT)
  else if Str.ends_with PosixPath.sep p then inl (Errno EISDIR)
  else
    let cs := PosixPath.components p in
    match canon root [] cs with
    | Some acc =>
        match walk root acc with
        | Some (File _) =>
            match put root acc (File c) with
            | Some root' => inr root'
            | None => inl (Errno ENOENT)
            end
        | Some (Dir _) => inl (Errno EISDIR)
        | None => inl (Errno ENOENT)
        end
    | None => put_under root cs (File c)
    end.

End Tree.

Arguments node A : clear implicits.

End FS.

(** ** [fnmatch] and [glob] *)

Module Glob.

(** A pattern, once read: [*], [?], a character, or a bracket set (the
    pairs are inclusive ranges; a single character is the range from
    itself to itself). *)
Inductive ptok : Type :=
| PStar
| PAny
| PLit (c : ascii)
| PSet (negated : bool) (ranges : list (ascii * ascii)).

Definition star : ascii := "*"%char.
Definition quest : ascii := "?"%char.
Definition lbrack : ascii := "["%char.
Definition rbrack : ascii := "]"%char.
Definition bang : ascii := "!"%char.
Definition dash : ascii := "-"%char.

(** The body of a bracket set that starts right after its [[]: the
    characters up to the closing bracket and what follows it. A closing
    bracket that comes first belongs to the set. [None] when the set is
    never closed. *)
Fixpoint until_rbrack (s : list ascii) : option (list ascii * list ascii) :=
  match s with
  | [] => None
  | c :: r =>
      if Ascii.eqb c rbrack then Some ([], r)
      else match until_rbrack r with
           | Some (body, rest) => Some (c :: body, rest)
           | None => None
           end
  end.

Definition set_body (s : list ascii)
  : option (bool * list ascii * list ascii) :=
  let (neg, s1) :=
    match s with
    | c :: r => if Ascii.eqb c bang then (true, r) else (false, s)
    | [] => (false, s)
    end in
  match s1 with
  | c :: r =>
      if Ascii.eqb c rbrack then
        match until_rbrack r with
        | Some (body, rest) => Some (neg, c :: body, rest)
        | None => None
        end
      else
        match until_rbrack s1 with
        | Some (body, rest) => Some (neg, body, rest)
        | None => None
        end
  | [] => None
  end.

Fixpoint ranges (body : list ascii) : list (ascii * ascii) :=
  match body with
  | [] => []
  | lo :: r =>
      match r with
      | d :: hi :: r' =>
          if Ascii.eqb d dash then (lo, hi) :: ranges r'
          else (lo, lo) :: ranges r
      | _ => (lo, lo) :: ranges r
      end
  end.

(** [fnmatch.translate], as tokens. The fuel bounds the pattern length. *)
Fixpoint tokens (fuel : nat) (p : list ascii) : list ptok :=
  match fuel with
  | O => []
  | S fuel' =>
      match p with
      | [] => []
      | c :: r =>
          if Ascii.eqb c star then PStar :: tokens fuel' r
          else if Ascii.eqb c quest then PAny :: tokens fuel' r
          else if Ascii.eqb c lbrack then
            match set_body r with
            | Some (neg, body, rest) =>
                PSet neg (ranges body) :: tokens fuel' rest
            | None => PLit c :: tokens fuel' r
            end
          else PLit c :: tokens fuel' r
      end
  end.

Definition in_ranges (c : ascii) (rs : list (ascii * ascii)) : bool :=
  existsb (fun r => (nat_of_ascii (fst r) <=? nat_of_ascii c)%nat
                    && (nat_of_ascii c <=? nat_of_ascii (snd r))%nat) rs.

Fixpoint tmatch (p : list ptok) (s : list ascii) : bool :=
  match p with
  | [] => match s with [] => true | _ :: _ => false end
  | PStar :: p' =>
      (fix from (s : list ascii) : bool :=
         tmatch p' s || match s with [] => false | _ :: s' => from s' end) s
  | PAny :: p' =>
      match s with [] => false | _ :: s' => tmatch p' s' end
  | PLit c :: p' =>
      match s with [] => false | d :: s' => Ascii.eqb c d && tmatch p' s' end
  | PSet neg rs :: p' =>
      match s with
      | [] => false
      | d :: s' => xorb neg (in_ranges d rs) && tmatch p' s'
      end
  end.

(** [fnmatch.fnmatchcase(name, pat)]; on POSIX [fnmatch.fnmatch] is the
    same, [os.path.normcase] being the identity. *)
Definition fnmatch (name pat : string) : bool :=
  tmatch (tokens (String.length pat) (list_ascii_of_string pat))
         (list_ascii_of_string name).

(** [glob.has_magic] *)
Definition has_magic (s : string) : bool :=
  Str.existsb (fun c => Ascii.eqb c star || Ascii.eqb c quest
                        || Ascii.eqb c lbrack) s.

Definition is_hidden (s : string) : bool :=
  Str.starts_with PosixPath.extsep s.

Section OnTree.
Context {A : Type} (root : FS.node A).

(** [glob._glob1]: the entries of [dirname] that match, hidden ones
    only for a pattern that is itself hidden. The empty [dirname]
    stands for the working directory. *)
Definition glob1 (dirname pattern : string) : list string :=
  let names :=
    if Str.is_empty dirname then FS.listdir root "." 
    else FS.listdir root dirname in
  let names :=
    if is_hidden pattern then names
    else filter (fun x => negb (is_hidden x)) names in
  filter (fun x => fnmatch x pattern) names.

(** [glob._glob0] *)
Definition glob0 (dirname basename : string) : list string :=
  if Str.is_empty basename then
    if FS.isdir root dirname then [basename] else []
  else
    if FS.lexists root (PosixPath.join dirname basename)
    then [basename] else [].

(** [glob._iglob], not recursive ([**] is an ordinary star). The
    directory part is expanded first when it holds wildcards itself. *)
Fixpoint iglob (fuel : nat) (pathname : string) : list string :=
  match fuel with
  | O => []
  | S fuel' =>
      let (dirname, basename) := PosixPath.split pathname in
      if negb (has_magic pathname) then
        if negb (Str.is_empty basename) then
          if FS.lexists root pathname then [pathname] else []
        else
          if FS.isdir root dirname then [pathname] else []
      else if Str.is_empty dirname then glob1 dirname basename
      else
        let dirs :=
          if negb (String.eqb dirname pathname) && has_magic dirname
          then iglob fuel' dirname
          else [dirname] in
        let in_dir := if has_magic basename then glob1 else glob0 in
        flat_map (fun d => map (PosixPath.join d) (in_dir d basename)) dirs
  end.

(** [glob.glob(pathname)] *)
Definition glob (pathname : string) : list string :=
  iglob (S (String.length pathname)) pathname.

End OnTree.

End Glob.

(** ** Python values the module handles *)

(** An SNR argument: [None], an [int], a [float] (by the text Python
    prints for it), a [str], a tuple or a list of such values, or any
    other object (a [bool], a numpy scalar or array), which is given by
    the texts that [str] and [repr] return for it. *)
Inductive pyval : Type :=
| VNone
| VInt (z : Z)
| VFloat (text : string)
| VStr (s : string)
| VObj (str_text repr_text : string)
| VTuple (items : list pyval)
| VList (items : list pyval).

(** A name of a distortion source, as a [dict] key: a [str], or a tuple of
    [str] (a tuple is hashable, a list is not). *)
Inductive key : Type :=
| KStr (s : string)
| KTuple (items : list string).

(** The [name] argument of the registration methods, when it is not
    [None]. *)
Inductive name_arg : Type :=
| NStr (s : string)
| NList (items : list string)
| NTuple (items : list string).

Module Py.

Definition squote : ascii := "'"%char.
Definition dquote : ascii := ascii_of_nat 34.
Definition backslash : ascii := ascii_of_nat 92.

Definition hex_digit (n : nat) : ascii :=
  if (n <? 10)%nat then ascii_of_nat (48 + n) else ascii_of_nat (87 + n).

(** One character of [repr(s)] between quotes [q]. Bytes from 128 up
    are kept: they are taken to encode printable text. *)
Definition repr_char (q c : ascii) : string :=
  let n := nat_of_ascii c in
  if Ascii.eqb c backslash then String backslash (String backslash EmptyString)
  else if Ascii.eqb c q then String backslash (String q EmptyString)
  else if (n =? 10)%nat then String backslash "n"
  else if (n =? 13)%nat then String backslash "r"
  else if (n =? 9)%nat then String backslash "t"
  else if (n <? 32)%nat || (n =? 127)%nat then
    String backslash
      (String "x" (String (hex_digit (n / 16)) (String (hex_digit (n mod 16)) EmptyString)))
  else String c EmptyString.

Fixpoint repr_body (q : ascii) (s : string) : string :=
  match s with
  | EmptyString => EmptyString
  | String c r => repr_char q c ++ repr_body q r
  end.

(** [repr(s)] for a [str]: double quotes only when the text has a single
    quote and no double quote. *)
Definition repr_str (s : string) : string :=
  let q := if Str.mem squote s && negb (Str.mem dquote s)
           then dquote else squote in
  String q (repr_body q s ++ String q EmptyString).

(** [repr(v)]; a tuple and a list show the [repr] of their items. *)
Fixpoint repr (v : pyval) : string :=
  match v with
  | VNone => "None"
  | VInt z => Str.of_Z z
  | VFloat t => t
  | VStr s => repr_str s
  | VObj _ r => r
  | VTuple l =>
      match l with
      | [x] => "(" ++ repr x ++ ",)"
      | _ => "(" ++ String.concat ", " (map repr l) ++ ")"
      end
  | VList l => "[" ++ String.concat ", " (map repr l) ++ "]"
  end.

(** [str(v)], which is also what [format] puts for [{}]: the text of a
    [str] itself, and [repr(v)] for the other built-in values. *)
Definition str (v : pyval) : string :=
  match v with
  | VStr s => s
  | VObj s _ => s
  | _ => repr v
  end.

(** [str(k)] for a key. *)
Definition key_str (k : key) : string :=
  match k with
  | KStr s => s
  | KTuple l =>
      match l with
      | [x] => "(" ++ repr_str x ++ ",)"
      | _ => "(" ++ String.concat ", " (map repr_str l) ++ ")"
      end
  end.

Definition key_eqb (a b : key) : bool :=
  match a, b with
  | KStr s, KStr t => String.eqb s t
  | KTuple l, KTuple m =>
      if list_eq_dec string_dec l m then true else false
  | _, _ => false
  end.

(** [type(v) is list] *)
Definition is_list (v : pyval) : bool :=
  match v with VList _ => true | _ => false end.

(** [type(name) != list], [type(name) != tuple], [len(name)] and the
    items iterating over [name] yields. *)
Definition name_is_list (n : name_arg) : bool :=
  match n with NList _ => true | _ => false end.

Definition name_is_tuple (n : name_arg) : bool :=
  match n with NTuple _ => true | _ => false end.

Definition name_len (n : name_arg) : nat :=
  match n with
  | NStr s => String.length s
  | NList l | NTuple l => List.length l
  end.

Definition name_items (n : name_arg) : list key :=
  match n with
  | NStr s => map (fun c => KStr (String c EmptyString)) (list_ascii_of_string s)
  | NList l | NTuple l => map KStr l
  end.

End Py.

(** ** An insertion-ordered [dict] from keys to paths *)

Module Dict.

Definition t : Type := list (key * string).

Definition empty : t := [].

(** [d[k]], [None] standing for the [KeyError]. *)
Fixpoint get (k : key) (d : t) : option string :=
  match d with
  | [] => None
  | (k', v) :: d' => if Py.key_eqb k k' then Some v else get k d'
  end.

(** [d[k] = v]: a key that is present keeps its place. *)
Fixpoint set (k : key) (v : string) (d : t) : t :=
  match d with
  | [] => [(k, v)]
  | (k', v') :: d' =>
      if Py.key_eqb k k' then (k', v) :: d'
      else (k', v') :: set k v d'
  end.

(** [d.keys()] *)
Definition keys (d : t) : list key := map fst d.

(** [k in d.keys()] *)
Definition mem (k : key) (d : t) : bool :=
  match get k d with Some _ => true | None => false end.

(** [for n, f in zip(names, files): d[n] = f] *)
Fixpoint set_all (nfs : list (key * string)) (d : t) : t :=
  match nfs with
  | [] => d
  | (n, f) :: rest => set_all rest (set n f d)
  end.

End Dict.

(** ** Exceptions *)

Inductive exn : Type :=
| ValueError (msg : string)
| TypeError (msg : string)
| KeyError (k : key)
| OSError (e : FS.errno) (path : string)
| ExternalError (what : string).

(** The errors of the module under the names of the specification: each
    is a [ValueError], told apart by its message. [InvalidPathError] is
    raised at lines 38 and 63, [UnknownDistortionError] at line 76. *)
Definition InvalidPathError : exn :=
  ValueError "Path needs to point to an existing file/folder".

Definition UnknownDistortionError : exn :=
  ValueError "noise not in dataset".

(** The two errors of a folder registration with explicit names (lines 54
    and 56); the specification calls both [InvalidArgumentError]. *)
Definition folder_name_error : exn :=
  ValueError "When path is a folder, name has to be a list or tuple with the same length as the number of distortion files in the folder.".

Definition name_length_error : exn :=
  ValueError "len(name) needs to be equal to len(files)".

(** The exception of a failed call on a path: [OSError] with the [errno],
    or the [ValueError] of a path with a NUL character. *)
Definition py_error (f : FS.failure) (path : string) : exn :=
  match f with
  | FS.Errno e => OSError e path
  | FS.NulByte => ValueError "embedded null byte"
  end.

Definition is_ValueError (e : exn) : bool :=
  match e with ValueError _ => true | _ => false end.

Definition is_OSError (e : exn) : bool :=
  match e with OSError _ _ => true | _ => false end.

(** ** What a run does to the outside *)

(** The calls of a run that reach the outside, in order. *)
Inductive event : Type :=
| EvRead (path : string)
| EvWrite (path : string) (rate : Z)
| EvMkdir (path : string)
| EvPrint (line : string).

(** The line of line 98. *)
Definition folder_warning : event :=
  EvPrint "Condition folder already exists!".

(** ** The collaborators outside the module *)

(** The signal-processing routines of the [maracas] package and the random
    generator of [numpy]: [add_reverb(x, r, fs, speech_energy)],
    [add_noise(x, n, fs, snr, speech_energy)] (a pair, of which the module
    keeps the first part) and [np.random.permutation(n)], which returns the
    numbers below [n] in some order. With them comes the scheduler of the
    operating system: [next_worker t k] says which of the [k] worker
    processes that can move makes the next move, after the events [t];
    any number stands for a worker, taken modulo [k]. *)
Class Externals : Type := {
  signal : Type;
  gain : Type;
  add_reverb : signal -> signal -> Z -> string -> exn + signal;
  add_noise : signal -> signal -> Z -> pyval -> string -> exn + (signal * gain);
  rng : Type;
  permutation : rng -> nat -> list nat * rng;
  permutation_perm :
    forall g n, Permutation (fst (permutation g n)) (seq 0 n);
  next_worker : list event -> nat -> nat
}.

(** ** The world the module runs in *)

Section World.
Context {E : Externals}.

(** A file holds a waveform and its sample rate, or something that does
    not decode as audio. *)
Definition content : Type := option (signal * Z).

Record world : Type := mkWorld {
  root : FS.node content;
  trace : list event;
  gen : rng
}.

Definition log (ev : event) (w : world) : world :=
  mkWorld (root w) (trace w ++ [ev]) (gen w).

Definition with_root (r : FS.node content) (w : world) : world :=
  mkWorld r (trace w) (gen w).

(** A computation: it leaves a world behind also when it raises. *)
Definition M (A : Type) : Type := world -> world * (exn + A).

Definition ret {A} (a : A) : M A := fun w => (w, inr a).

Definition raise {A} (e : exn) : M A := fun w => (w, inl e).

Definition bind {A B} (m : M A) (k : A -> M B) : M B :=
  fun w =>
    match m w with
    | (w', inr a) => k a w'
    | (w', inl e) => (w', inl e)
    end.

(** [for x in xs: body(x)] *)
Fixpoint for_each {A} (xs : list A) (body : A -> M unit) : M unit :=
  match xs with
  | [] => ret tt
  | x :: xs' => bind (body x) (fun _ => for_each xs' body)
  end.

(** [try: m except OSError: handler] *)
Definition try_except_OSError (m handler : M unit) : M unit :=
  fun w =>
    match m w with
    | (w', inl e) => if is_OSError e then handler w' else (w', inl e)
    | (w', inr a) => (w', inr a)
    end.

End World.

Declare Scope py_scope.
Delimit Scope py_scope with py.
Notation "x <- m ;; k" := (bind m (fun x => k))
  (at level 61, m at next level, right associativity) : py_scope.
Notation "' p <- m ;; k" := (bind m (fun p => k))
  (at level 61, p pattern, m at next level, right associativity) : py_scope.
Notation "m ;;; k" := (bind m (fun _ => k))
  (at level 61, right associativity) : py_scope.

(** ** [maracas.utils] and [numpy.random.choice] *)

Section Utils.
Context {E : Externals}.
Local Open Scope py_scope.

(** Modelled from the spec: [maracas.utils.wavread] is not among the
    sources. The audio interface reads [read(path) -> (samples,
    sampleRate)], and an unreadable file is a failure of the read: the
    error of opening the path where it names no regular file, and an
    error of the decoder where the file is no audio. *)
Definition wavread (path : string) : M (signal * Z) :=
  fun w =>
    let w := log (EvRead path) w in
    match FS.resolve (root w) path with
    | Some (FS.File (Some xfs)) => (w, inr xfs)
    | Some (FS.File None) => (w, inl (ExternalError "wavread"))
    | Some (FS.Dir _) => (w, inl (OSError FS.EISDIR path))
    | None =>
        (w, inl (py_error (if Str.has_nul path then FS.NulByte
                           else FS.Errno (FS.resolve_errno (root w) path))
                          path))
    end.

(** Modelled from the spec: [maracas.utils.wavwrite] is not among the
    sources. The audio interface reads [write(path, samples, sampleRate)
    -> void]; the file is created or replaced, in a directory that
    exists. *)
Definition wavwrite (path : string) (y : signal) (fs : Z) : M unit :=
  fun w =>
    let w := log (EvWrite path fs) w in
    match FS.write_file (root w) path (Some (y, fs)) with
    | inr r => (with_root r w, inr tt)
    | inl e => (w, inl (py_error e path))
    end.

(** The files below a directory node whose name matches, the directory's
    own first, then each subdirectory's in listing order. *)
Fixpoint walk_files (pattern base : string) (n : FS.node content)
  : list string :=
  match n with
  | FS.File _ => []
  | FS.Dir es =>
      (map (PosixPath.join base)
           (filter (fun x => Glob.fnmatch x pattern) (FS.file_names es))
       ++ (fix below (es : list (string * FS.node content)) : list string :=
             match es with
             | [] => []
             | (name, m) :: es' =>
                 walk_files pattern (PosixPath.join base name) m ++ below es'
             end) es)%list
  end.

(** Modelled from the spec: [maracas.utils.recursive_glob] is not among
    the sources. Discovery is "recursively via full subtree walk", and
    "recursive discovery returns all wav files in the subtree". *)
Definition recursive_glob (r : FS.node content) (treeroot pattern : string)
  : list string :=
  match FS.resolve r treeroot with
  | Some n => walk_files pattern treeroot n
  | None => []
  end.

(** [os.mkdir(path)]: it raises [OSError] when the system call fails and
    [ValueError] when the path holds a NUL character. *)
Definition os_mkdir (path : string) : M unit :=
  fun w =>
    let w := log (EvMkdir path) w in
    match FS.mkdir (root w) path with
    | inr r => (with_root r w, inr tt)
    | inl e => (w, inl (py_error e path))
    end.

(** [print(line)] *)
Definition print (line : string) : M unit :=
  fun w => (log (EvPrint line) w, inr tt).

(** [os.path.isdir(path)] *)
Definition os_path_isdir (path : string) : M bool :=
  fun w => (w, inr (FS.isdir (root w) path)).

(** [np.random.choice(a, size, replace=False).tolist()]: the items of [a]
    at the first [size] places of a random permutation of its indices.
    The items are taken as they stand in [a]; numpy's string arrays drop
    NUL characters at the end of an item, which no path has that the
    registration methods accept. *)
Definition np_random_choice (a : list string) (size : Z) : M (list string) :=
  fun w =>
    let pop_size := List.length a in
    if (pop_size =? 0)%nat && negb (size =? 0)%Z then
      (w, inl (ValueError "'a' cannot be empty unless no samples are taken"))
    else if (Z.of_nat pop_size <? size)%Z then
      (w, inl (ValueError
        "Cannot take a larger sample than population when 'replace=False'"))
    else if (size <? 0)%Z then
      (w, inl (ValueError "negative dimensions are not allowed"))
    else
      let (idx, g) := permutation (gen w) pop_size in
      (mkWorld (root w) (trace w) g,
       inr (map (fun i => nth i a EmptyString) (firstn (Z.to_nat size) idx))).

(** A [multiprocessing.Pool], by its number of processes. *)
Definition Pool (processes : Z) : M Z :=
  if (processes <? 1)%Z
  then raise (ValueError "Number of processes must be at least 1")
  else ret processes.

(** [pool.map(f, xs)] cuts [xs] into chunks: [divmod(len(xs), 4 *
    processes)], one more when there is a remainder, and no chunk for an
    empty list. *)
Definition chunksize (n processes : nat) : nat :=
  if (n =? 0)%nat then 0%nat
  else (n / (processes * 4)
        + if (n mod (processes * 4) =? 0)%nat then 0 else 1)%nat.

(** The slices of [size] items, in order; the fuel bounds their number. *)
Fixpoint chunks_of {A} (fuel size : nat) (xs : list A) : list (list A) :=
  match fuel with
  | O => []
  | S fuel' =>
      match xs with
      | [] => []
      | _ :: _ => firstn size xs :: chunks_of fuel' size (skipn size xs)
      end
  end.

(** A chunk in the hands of a worker process: what is left to do of the
    task under way, with its argument, and the arguments not yet taken. A
    task is cut where it reaches the outside a second time, so that the
    moves of the workers can alternate there. *)
Record job (A : Type) : Type := mkJob {
  job_cur : option (A * M unit);
  job_rest : list A
}.

Arguments mkJob {A} _ _.
Arguments job_cur {A} _.
Arguments job_rest {A} _.

Definition job_done {A} (j : job A) : bool :=
  match job_cur j, job_rest j with
  | None, [] => true
  | _, _ => false
  end.

(** One move of the worker on a chunk: the second half of the task under
    way, or the first half of the next task. An exception ends the chunk:
    [mapstar] runs [list(map(f, chunk))], so the tasks left in the chunk
    are not run. *)
Definition job_step {A} (f : A -> M (M unit)) (j : job A) : M (job A) :=
  fun w =>
    match job_cur j with
    | Some (_, k) =>
        match k w with
        | (w', inr _) => (w', inr (mkJob None (job_rest j)))
        | (w', inl e) => (w', inl e)
        end
    | None =>
        match job_rest j with
        | [] => (w, inr j)
        | x :: xs =>
            match f x w with
            | (w', inr k) => (w', inr (mkJob (Some (x, k)) xs))
            | (w', inl e) => (w', inl e)
            end
        end
    end.

(** The caller gets the result once every chunk has ended: the list of
    results (not kept here), or one of the exceptions of the chunks that
    failed, the one that reached the result queue first. *)
Definition pool_result (errors : list exn) : M unit :=
  fun w =>
    match errors with
    | [] => (w, inr tt)
    | e :: _ =>
        (w, inl (nth (next_worker (trace w) (List.length errors)
                      mod List.length errors) errors e))
    end.

(** The pool at work on the chunks that have not ended, in the order of
    the task queue. With [processes] workers, the chunks in hand are among
    the first [processes] of them; the scheduler says which one moves.
    The fuel bounds the number of moves. *)
Fixpoint run_pool {A} (fuel processes : nat) (f : A -> M (M unit))
         (jobs : list (job A)) (errors : list exn) : M unit :=
  match jobs with
  | [] => pool_result errors
  | j0 :: _ =>
      match fuel with
      | O => pool_result errors
      | S fuel' =>
          fun w =>
            let k := Nat.min processes (List.length jobs) in
            let i := (next_worker (trace w) k mod k)%nat in
            let j := nth i jobs j0 in
            match job_step f j w with
            | (w', inl e) =>
                run_pool fuel' processes f
                         (firstn i jobs ++ skipn (S i) jobs)%list
                         (errors ++ [e])%list w'
            | (w', inr j') =>
                run_pool fuel' processes f
                         (firstn i jobs
                          ++ (if job_done j' then [] else [j'])
                          ++ skipn (S i) jobs)%list
                         errors w'
            end
      end
  end.

(** [pool.map(f, xs)] on a pool of [processes] worker processes (a pool
    has one at least), for a task [f] given in two halves: each chunk is
    run by one worker, task after task; the workers run side by side and
    share the disk. The call returns when all chunks have ended, and
    raises if one of them did. Two moves for each task are fuel enough. *)
Definition pool_map {A} (processes : Z) (f : A -> M (M unit)) (xs : list A)
  : M unit :=
  let p := Z.to_nat (Z.max 1 processes) in
  let size := chunksize (List.length xs) p in
  run_pool (2 * List.length xs) p f
           (map (mkJob None) (chunks_of (List.length xs) size xs)) [].

End Utils.

Arguments mkJob {E A} _ _.
Arguments job_cur {E A} _.
Arguments job_rest {E A} _.

(** ** [class FileGenerator] *)

Section FileGenerator.
Context {E : Externals}.
Local Open Scope py_scope.

Record FileGenerator : Type := mkFileGenerator {
  fg_n : signal;
  fg_r : option signal;
  fg_snr : pyval;
  fg_output_dir : string;
  fg_condition_name : key;
  fg_speech_energy : string
}.

Definition of_collaborator {A} (r : exn + A) : M A :=
  match r with inr a => ret a | inl e => raise e end.

(** ["{}_{}dB".format(condition_name, snr)] *)
Definition condition_folder (condition_name : key) (snr : pyval) : string :=
  Py.key_str condition_name ++ "_" ++ Py.str snr ++ "dB".

(** The path a speech file's output goes to. *)
Definition output_path (output_dir : string) (condition_name : key)
           (snr : pyval) (f : string) : string :=
  PosixPath.join3 output_dir (condition_folder condition_name snr)
                  (PosixPath.basename f).

(** [FileGenerator.__call__(self, f)] *)
Definition FileGenerator_call (self : FileGenerator) (f : string) : M unit :=
  '(x, fs) <- wavread f ;;
  x <- match fg_r self with
       | Some r => of_collaborator (add_reverb x r fs (fg_speech_energy self))
       | None => ret x
       end ;;
  yg <- of_collaborator
          (add_noise x (fg_n self) fs (fg_snr self) (fg_speech_energy self)) ;;
  wavwrite (output_path (fg_output_dir self) (fg_condition_name self)
                        (fg_snr self) f)
           (fst yg) fs.

(** The same call in two halves, for the pool: the first reads and
    processes, and returns the second, which writes. *)
Definition FileGenerator_phases (self : FileGenerator) (f : string)
  : M (M unit) :=
  '(x, fs) <- wavread f ;;
  x <- match fg_r self with
       | Some r => of_collaborator (add_reverb x r fs (fg_speech_energy self))
       | None => ret x
       end ;;
  yg <- of_collaborator
          (add_noise x (fg_n self) fs (fg_snr self) (fg_speech_energy self)) ;;
  ret (wavwrite (output_path (fg_output_dir self) (fg_condition_name self)
                             (fg_snr self) f)
                (fst yg) fs).

End FileGenerator.

(** ** [class Dataset] *)

Section Dataset.
Context {E : Externals}.
Local Open Scope py_scope.

Record Dataset : Type := mkDataset {
  speech : list string;
  noise : Dict.t;
  reverb : Dict.t;
  speech_energy : string
}.

(** [Dataset.__init__] *)
Definition Dataset_init (speech_energy : string) : Dataset :=
  mkDataset [] Dict.empty Dict.empty speech_energy.

Definition with_speech (l : list string) (d : Dataset) : Dataset :=
  mkDataset l (noise d) (reverb d) (speech_energy d).

Definition with_noise (n : Dict.t) (d : Dataset) : Dataset :=
  mkDataset (speech d) n (reverb d) (speech_energy d).

Definition with_reverb (r : Dict.t) (d : Dataset) : Dataset :=
  mkDataset (speech d) (noise d) r (speech_energy d).

(** [glob(os.path.join(path, '*.wav')) + glob(os.path.join(path, '*.WAV'))] *)
Definition wav_files (r : FS.node content) (path : string) : list string :=
  (Glob.glob r (PosixPath.join path "*.wav")
   ++ Glob.glob r (PosixPath.join path "*.WAV"))%list.

(** [Dataset.add_speech_files]: the data set after the call, and how the
    call ended. *)
Definition add_speech_files (r : FS.node content) (self : Dataset)
           (path : string) (recursive : bool) : Dataset * (exn + unit) :=
  if FS.isfile r path then
    (with_speech (speech self ++ [path]) self, inr tt)
  else if FS.isdir r path then
    let files :=
      if recursive
      then (recursive_glob r path "*.wav" ++ recursive_glob r path "*.WAV")%list
      else wav_files r path in
    (with_speech (speech self ++ files) self, inr tt)
  else
    (self, inl InvalidPathError).

(** [os.path.splitext(os.path.basename(f))[0]] *)
Definition stem (f : string) : string :=
  fst (PosixPath.splitext (PosixPath.basename f)).

(** [Dataset._add_distortion_files]: the dictionary after the call, and
    how the call ended. *)
Definition _add_distortion_files (r : FS.node content) (path : string)
           (distortion_dict : Dict.t) (name : option name_arg)
  : Dict.t * (exn + unit) :=
  if FS.isfile r path then
    match name with
    | None => (Dict.set (KStr (stem path)) path distortion_dict, inr tt)
    | Some (NStr s) => (Dict.set (KStr s) path distortion_dict, inr tt)
    | Some (NTuple l) => (Dict.set (KTuple l) path distortion_dict, inr tt)
    | Some (NList _) =>
        (distortion_dict, inl (TypeError "unhashable type: 'list'"))
    end
  else if FS.isdir r path then
    let files := wav_files r path in
    match name with
    | Some nm =>
        if negb (Py.name_is_list nm) || negb (Py.name_is_tuple nm) then
          (distortion_dict, inl folder_name_error)
        else if negb (Py.name_len nm =? List.length files)%nat then
          (distortion_dict, inl name_length_error)
        else
          (Dict.set_all (combine (Py.name_items nm) files) distortion_dict,
           inr tt)
    | None =>
        let names := map (fun f => KStr (stem f)) files in
        (Dict.set_all (combine names files) distortion_dict, inr tt)
    end
  else
    (distortion_dict, inl InvalidPathError).

(** [Dataset.add_noise_files] *)
Definition add_noise_files (r : FS.node content) (self : Dataset)
           (path : string) (name : option name_arg) : Dataset * (exn + unit) :=
  let (nd, res) := _add_distortion_files r path (noise self) name in
  (with_noise nd self, res).

(** [Dataset.add_reverb_files] *)
Definition add_reverb_files (r : FS.node content) (self : Dataset)
           (path : string) (name : option name_arg) : Dataset * (exn + unit) :=
  let (rd, res) := _add_distortion_files r path (reverb self) name in
  (with_reverb rd self, res).

(** [snrs] once [if type(snrs) is not list: snrs = [snrs]] has run. *)
Definition snr_list (snrs : pyval) : list pyval :=
  match snrs with
  | VList l => l
  | _ => [snrs]
  end.

(** [self.d[k]] where the lookup may raise [KeyError]. *)
Definition getitem (d : Dict.t) (k : key) : M string :=
  match Dict.get k d with
  | Some v => ret v
  | None => raise (KeyError k)
  end.

(** Lines 83 to 88 of [generate_condition]: the reverb waveform, if any,
    and the name of the condition. *)
Definition load_reverb (self : Dataset) (reverb_name : option key)
           (noise_name : key) : M (option signal * key) :=
  match reverb_name with
  | Some rv =>
      p <- getitem (reverb self) rv ;;
      '(r, rfs) <- wavread p ;;
      ret (Some r, KStr (Py.key_str rv ++ "_" ++ Py.key_str noise_name))
  | None => ret (None, noise_name)
  end.

(** Lines 94 to 98: the folder-creation step. The [try] encloses the
    whole loop. *)
Definition make_condition_folders (output_dir : string)
           (condition_name : key) (snrs : list pyval) : M unit :=
  try_except_OSError
    (for_each snrs (fun snr =>
       os_mkdir (PosixPath.join output_dir
                                (condition_folder condition_name snr))))
    (print "Condition folder already exists!").

(** The body of the loop of lines 100 to 114, for one SNR. *)
Definition generate_snr (self : Dataset) (n : signal) (r : option signal)
           (output_dir : string) (condition_name : key)
           (files_per_condition : option Z) (pool : option Z)
           (snr : pyval) : M unit :=
  speech_files <-
    match files_per_condition with
    | Some m => np_random_choice (speech self) m
    | None => ret (speech self)
    end ;;
  let filegen_fn :=
    mkFileGenerator n r snr output_dir condition_name (speech_energy self) in
  match pool with
  | Some processes =>
      pool_map processes (FileGenerator_phases filegen_fn) speech_files
  | None => for_each speech_files (FileGenerator_call filegen_fn)
  end.

(** [Dataset.generate_condition] *)
Definition generate_condition (self : Dataset) (snrs : pyval)
           (noise_name : key) (output_dir : string)
           (reverb_name : option key) (files_per_condition : option Z)
           (pool : option Z) : M unit :=
  if negb (Dict.mem noise_name (noise self)) then
    raise UnknownDistortionError
  else
    let snrs := snr_list snrs in
    p <- getitem (noise self) noise_name ;;
    '(n, nfs) <- wavread p ;;
    '(r, condition_name) <- load_reverb self reverb_name noise_name ;;
    exists_ <- os_path_isdir output_dir ;;
    (if negb exists_ then os_mkdir output_dir else ret tt) ;;;
    make_condition_folders output_dir condition_name snrs ;;;
    for_each snrs
      (generate_snr self n r output_dir condition_name
                    files_per_condition pool).

(** [itertools.product(self.reverb.keys(), self.noise.keys())] *)
Definition conditions (self : Dataset) : list (key * key) :=
  list_prod (Dict.keys (reverb self)) (Dict.keys (noise self)).

(** [Dataset.generate_dataset] *)
Definition generate_dataset (self : Dataset) (snrs : pyval)
           (output_dir : string) (files_per_condition : option Z)
           (n_workers : Z) : M unit :=
  let snrs := VList (snr_list snrs) in
  pool <- Pool n_workers ;;
  for_each (conditions self)
    (fun '(reverb_name, noise_name) =>
       generate_condition self snrs noise_name output_dir
                          (Some reverb_name) files_per_condition (Some pool)).

(** The conditions as the specification words them: the cross-product of
    the reverb names and the noise names, where an empty reverb registry
    "contributes the no-reverb case" and an empty noise registry yields
    no condition. *)
Definition spec_conditions (self : Dataset) : list (option key * key) :=
  match Dict.keys (reverb self) with
  | [] => map (fun nz => (None, nz)) (Dict.keys (noise self))
  | rvs =>
      map (fun rn => (Some (fst rn), snd rn))
          (list_prod rvs (Dict.keys (noise self)))
  end.

(** The driver over the conditions of the specification's wording. *)
Definition spec_generate_dataset (self : Dataset) (snrs : pyval)
           (output_dir : string) (files_per_condition : option Z)
           (n_workers : Z) : M unit :=
  let snrs := VList (snr_list snrs) in
  pool <- Pool n_workers ;;
  for_each (spec_conditions self)
    (fun '(reverb_name, noise_name) =>
       generate_condition self snrs noise_name output_dir
                          reverb_name files_per_condition (Some pool)).

End Dataset.

(** ** What a trace tells *)

(** The paths read, in order. *)
Definition reads (t : list event) : list string :=
  flat_map (fun ev => match ev with EvRead p => [p] | _ => [] end) t.

(** The paths written with the sample rate of each write, in order. *)
Definition writes (t : list event) : list (string * Z) :=
  flat_map (fun ev => match ev with EvWrite p fs => [(p, fs)] | _ => [] end) t.

(** The directories [os.mkdir] was called on, in order. *)
Definition mkdirs (t : list event) : list string :=
  flat_map (fun ev => match ev with EvMkdir p => [p] | _ => [] end) t.

(** A computation that, however it ends, adds to the trace only events
    that satisfy [P]. *)
Definition emits {E : Externals} {A : Type} (P : event -> Prop) (m : M A)
  : Prop :=
  forall w w' res,
    m w = (w', res) -> exists evs, trace w' = (trace w ++ evs)%list /\ Forall P evs.


(** A computation that raises from every world. *)
Definition fails {E : Externals} {A : Type} (m : M A) : Prop :=
  forall w, exists e, snd (m w) = inl e.

(** [l] is made of [m] entries of [a], taken at [m] different places. *)
Definition sample_of (a : list string) (m : nat) (l : list string) : Prop :=
  exists idx,
    l = map (fun i => nth i a EmptyString) idx
    /\ List.length idx = m
    /\ NoDup idx
    /\ Forall (fun i => (i < List.length a)%nat) idx.

(** The name of the condition: ["{}_{}".format(reverb, noise)], or the
    noise name itself. *)
Definition condition_name_of (reverb_name : option key) (noise_name : key)
  : key :=
  match reverb_name with
  | Some rv => KStr (Py.key_str rv ++ "_" ++ Py.key_str noise_name)
  | None => noise_name
  end.

(** ** What holds of a pool at work *)

(** What a chunk in hand still has to write for: the file of the task
    under way, and the files not yet taken. *)
Definition job_todo {E : Externals} {A : Type} (j : job A) : list A :=
  match job_cur j with
  | Some (x, _) => x :: job_rest j
  | None => job_rest j
  end.

(** The moves a chunk still takes when nothing fails. *)
Definition job_moves {E : Externals} {A : Type} (j : job A) : nat :=
  (match job_cur j with Some _ => 1 | None => 0 end
   + 2 * List.length (job_rest j))%nat.

(** A chunk in hand whose tasks satisfy [I] and whose task under way, if
    any, is left with a second half that satisfies [K]. *)
Definition job_inv {E : Externals} {A : Type} (I : A -> Prop)
           (K : A -> M unit -> Prop) (j : job A) : Prop :=
  Forall I (job_rest j)
  /\ match job_cur j with Some (x, k) => K x k | None => True end.

(** The second half of the file generator's call on [f]: a write at the
    output path of [f]. *)
Definition writes_output {E : Externals} (self : FileGenerator) (f : string)
           (k : M unit) : Prop :=
  exists y fs,
    k = wavwrite (output_path (fg_output_dir self) (fg_condition_name self)
                              (fg_snr self) f) y fs.

(** The order in which the files of one SNR are gone through: the order
    of the list in the sequential loop, some order with a pool. *)
Definition in_order (pool : option Z) (done files : list string) : Prop :=
  match pool with
  | Some _ => Permutation done files
  | None => done = files
  end.

(** The files of one SNR: the whole speech list, or a sample of it. *)
Definition chosen {E : Externals} (self : Dataset)
           (files_per_condition : option Z) (files : list string) : Prop :=
  match files_per_condition with
  | Some m => sample_of (speech self) (Z.to_nat m) files
  | None => files = speech self
  end.

(** The reads and the written paths of the loop over the SNRs, when
    every SNR went through: SNR after SNR, the files chosen for it are
    read, each once, and written for, each once. *)
Inductive snr_runs {E : Externals} (self : Dataset) (output_dir : string)
          (condition_name : key) (files_per_condition : option Z)
          (pool : option Z)
  : list pyval -> list (list string) -> list (list string) -> Prop :=
| snr_runs_nil :
    snr_runs self output_dir condition_name files_per_condition pool [] [] []
| snr_runs_cons snr snrs files rs ds rss wss :
    chosen self files_per_condition files ->
    in_order pool rs files ->
    in_order pool ds files ->
    snr_runs self output_dir condition_name files_per_condition pool
             snrs rss wss ->
    snr_runs self output_dir condition_name files_per_condition pool
             (snr :: snrs) (rs :: rss)
             (map (output_path output_dir condition_name snr) ds :: wss).

(** The reverb file a call reads, if any. *)
Definition reverb_path {E : Externals} (self : Dataset)
           (reverb_name : option key) : list string :=
  match reverb_name with
  | Some rv => match Dict.get rv (reverb self) with
               | Some rp => [rp]
               | None => []
               end
  | None => []
  end.

(** An event of a run that has not come to the speech files: a read of
    the noise file or of the reverb file, a call of [os.mkdir], a line
    printed. *)
Definition before_files {E : Externals} (self : Dataset) (noise_name : key)
           (reverb_name : option key) (ev : event) : Prop :=
  match ev with
  | EvRead q =>
      Dict.get noise_name (noise self) = Some q
      \/ In q (reverb_path self reverb_name)
  | EvWrite _ _ => False
  | _ => True
  end.

(** An event of a run that makes and fills no folder of a condition but
    [folder] under the output directory: a call of [os.mkdir] is on the
    output directory or on that folder, a write is in that folder, for a
    registered speech file. *)
Definition one_folder (self : Dataset) (output_dir folder : string)
           (ev : event) : Prop :=
  match ev with
  | EvMkdir p => p = output_dir \/ p = PosixPath.join output_dir folder
  | EvWrite p _ =>
      exists f,
        In f (speech self)
        /\ p = PosixPath.join3 output_dir folder (PosixPath.basename f)
  | _ => True
  end.

(** ** How a disk may change *)

(** From [r] to [r'] nothing is removed and nothing changes kind: a path
    that named a file names a file, a path that named a directory names a
    directory. *)
Definition same_kinds {A : Type} (r r' : FS.node A) : Prop :=
  forall q m,
    FS.resolve r q = Some m ->
    exists m', FS.resolve r' q = Some m'
               /\ FS.is_dir_node m' = FS.is_dir_node m.

(** From [r] to [r'] every file is still there with what it held. *)
Definition same_files {A : Type} (r r' : FS.node A) : Prop :=
  forall q c,
    FS.resolve r q = Some (FS.File c) -> FS.resolve r' q = Some (FS.File c).

(** A computation whose disk, however it ends, is related by [R] to the
    disk it started on. *)
Definition disk_rel {E : Externals} {A : Type}
           (R : FS.node content -> FS.node content -> Prop) (m : M A) : Prop :=
  forall w w' res, m w = (w', res) -> R (root w) (root w').

(** The folder of each SNR, as a path under the output directory. *)
Definition folder_paths {E : Externals} (output_dir : string)
           (condition_name : key) (snrs : list pyval) : list string :=
  map (fun snr => PosixPath.join output_dir
                    (condition_folder condition_name snr)) snrs.

(** Single-file registrations of [files], one after the other, each
    without a name. *)
Definition register_each {E : Externals} (r : FS.node content)
           (files : list string) (d : Dict.t) : Dict.t :=
  fold_left (fun d f => fst (_add_distortion_files r f d None)) files d.


(** An event that is neither a read nor a write. *)
Definition quiet (ev : event) : Prop :=
  match ev with EvMkdir _ | EvPrint _ => True | _ => False end.

(** ** A concrete setting to run the module in *)

Module Demo.

(** Waveforms are lists of samples; reverberation appends the impulse
    response, mixing appends the noise; the random permutation is the
    reversal; the scheduler always lets the first worker move. *)
Definition ext : Externals := {|
  signal := list Z;
  gain := unit;
  add_reverb := fun x r _ _ => inr (x ++ r)%list;
  add_noise := fun x n _ _ _ => inr ((x ++ n)%list, tt);
  rng := unit;
  permutation := fun _ n => (rev (seq 0 n), tt);
  permutation_perm := fun _ n => Permutation_sym (Permutation_rev (seq 0 n));
  next_worker := fun _ _ => 0%nat
|}.

(** The same with a scheduler that takes the workers in turn. *)
Definition ext_turns : Externals := {|
  signal := list Z;
  gain := unit;
  add_reverb := fun x r _ _ => inr (x ++ r)%list;
  add_noise := fun x n _ _ _ => inr ((x ++ n)%list, tt);
  rng := unit;
  permutation := fun _ n => (rev (seq 0 n), tt);
  permutation_perm := fun _ n => Permutation_sym (Permutation_rev (seq 0 n));
  next_worker := fun t _ => List.length t
|}.

Definition wav (x : list Z) (fs : Z) : FS.node (@content ext) :=
  FS.File (Some (x, fs)).

(** The tree
<<
    speech/a.wav  speech/b.WAV  speech/.hidden.wav  speech/notes.txt
    speech/sub/c.wav
    noise/white.wav  noise/babble.wav
    rir/room1.wav
    d[1]/a.wav
    d1/b.wav
    out/white_0dB/
>> *)
Definition disk : FS.node (@content ext) :=
  FS.Dir
    [ ("speech",
       FS.Dir [ ("a.wav", wav [1; 2; 3] 16000);
                ("b.WAV", wav [4; 5] 8000);
                (".hidden.wav", wav [6] 8000);
                ("notes.txt", FS.File None);
                ("sub", FS.Dir [("c.wav", wav [7] 44100)]) ]);
      ("noise",
       FS.Dir [ ("white.wav", wav [9; 9] 16000);
                ("babble.wav", wav [8] 16000) ]);
      ("rir", FS.Dir [("room1.wav", wav [1; 0] 16000)]);
      ("d[1]", FS.Dir [("a.wav", wav [1] 16000)]);
      ("d1", FS.Dir [("b.wav", wav [2] 16000)]);
      ("out", FS.Dir [("white_0dB", FS.Dir [])]) ]%Z.

Definition start : @world ext := mkWorld disk [] tt.

(** The same start under the scheduler that takes the workers in turn. *)
Definition start_turns : @world ext_turns :=
  mkWorld (E := ext_turns) disk [] tt.

(** One speech file, the noise ["white"], no reverb. *)
Definition d_white : @Dataset :=
  mkDataset ["speech/a.wav"] [(KStr "white", "noise/white.wav")] [] "P.56".

(** The same with the reverb ["room1"]. *)
Definition d_room : @Dataset :=
  mkDataset ["speech/a.wav"] [(KStr "white", "noise/white.wav")]
            [(KStr "room1", "rir/room1.wav")] "P.56".

(** Three speech files. *)
Definition d_three : @Dataset :=
  mkDataset ["speech/a.wav"; "speech/b.WAV"; "speech/sub/c.wav"]
            [(KStr "white", "noise/white.wav")] [] "P.56".

(** The same speech file registered twice. *)
Definition d_twice : @Dataset :=
  mkDataset ["speech/a.wav"; "speech/a.wav"]
            [(KStr "white", "noise/white.wav")] [] "P.56".

(** A noise whose file does not decode as audio, registered after a
    sound one, and the reverb ["room1"]. *)
Definition d_mixed : @Dataset :=
  mkDataset ["speech/a.wav"]
            [(KStr "white", "noise/white.wav"); (KStr "notes", "speech/notes.txt")]
            [(KStr "room1", "rir/room1.wav")] "P.56".

(** Five speech paths, the first of which is no audio. *)
Definition d_five : @Dataset :=
  mkDataset ["speech/notes.txt"; "speech/a.wav"; "speech/b.WAV";
             "speech/sub/c.wav"; "speech/a.wav"]
            [(KStr "white", "noise/white.wav")] [] "P.56".

End Demo.

(* ================================================================= *)
(** * Part II: properties *)
(* ================================================================= *)

(** ** Keys and dictionaries *)

Lemma key_eqb_eq (a b : key) : Py.key_eqb a b = true <-> a = b.
Proof.
  destruct a as [s|l], b as [t|m]; simpl; split; intro H;
    try discriminate; try congruence.
  - apply String.eqb_eq in H. now subst.
  - inversion H. apply String.eqb_refl.
  - destruct (list_eq_dec string_dec l m); [now subst | discriminate].
  - inversion H; subst.
    destruct (list_eq_dec string_dec m m); [reflexivity | contradiction].
Qed.

Lemma key_eqb_refl (a : key) : Py.key_eqb a a = true.
Proof. now apply key_eqb_eq. Qed.

Lemma key_eqb_neq (a b : key) : Py.key_eqb a b = false <-> a <> b.
Proof.
  split.
  - intros H Heq. apply key_eqb_eq in Heq. congruence.
  - intros H. destruct (Py.key_eqb a b) eqn:Hab; [|reflexivity].
    apply key_eqb_eq in Hab. contradiction.
Qed.

Lemma dict_get_none (k : key) (d : Dict.t) :
  Dict.get k d = None <-> ~ In k (Dict.keys d).
Proof.
  induction d as [|[k' v] d IH]; simpl.
  - split; auto.
  - destruct (Py.key_eqb k k') eqn:Hk.
    + apply key_eqb_eq in Hk. subst. split; [discriminate | intros H; exfalso; auto].
    + apply key_eqb_neq in Hk. rewrite IH. split.
      * intros H [Heq | Hin]; [congruence | auto].
      * intros H Hin. apply H. now right.
Qed.

Lemma dict_mem_false (k : key) (d : Dict.t) :
  Dict.mem k d = false <-> ~ In k (Dict.keys d).
Proof.
  unfold Dict.mem. rewrite <- dict_get_none.
  destruct (Dict.get k d); split; congruence.
Qed.

Lemma dict_get_set_same (k : key) (v : string) (d : Dict.t) :
  Dict.get k (Dict.set k v d) = Some v.
Proof.
  induction d as [|[k' v'] d IH]; simpl.
  - now rewrite key_eqb_refl.
  - destruct (Py.key_eqb k k') eqn:Hk; simpl; now rewrite Hk.
Qed.

Lemma dict_get_set_other (k k' : key) (v : string) (d : Dict.t) :
  k <> k' -> Dict.get k' (Dict.set k v d) = Dict.get k' d.
Proof.
  intros Hne. induction d as [|[k0 v0] d IH]; simpl.
  - apply not_eq_sym in Hne. apply key_eqb_neq in Hne. now rewrite Hne.
  - destruct (Py.key_eqb k k0) eqn:Hk; simpl.
    + apply key_eqb_eq in Hk. subst k0.
      apply not_eq_sym in Hne. apply key_eqb_neq in Hne. now rewrite Hne.
    + now rewrite IH.
Qed.

Lemma dict_keys_set_present (k : key) (v : string) (d : Dict.t) :
  In k (Dict.keys d) -> Dict.keys (Dict.set k v d) = Dict.keys d.
Proof.
  induction d as [|[k' v'] d IH]; simpl; [tauto|].
  intros Hin. destruct (Py.key_eqb k k') eqn:Hk; simpl; [reflexivity|].
  f_equal. apply IH. destruct Hin as [Heq | Hin]; [|assumption].
  apply key_eqb_neq in Hk. congruence.
Qed.

Lemma dict_keys_set_absent (k : key) (v : string) (d : Dict.t) :
  ~ In k (Dict.keys d) -> Dict.keys (Dict.set k v d) = (Dict.keys d ++ [k])%list.
Proof.
  induction d as [|[k' v'] d IH]; simpl; [reflexivity|].
  intros Hin. destruct (Py.key_eqb k k') eqn:Hk; simpl.
  - apply key_eqb_eq in Hk. subst. exfalso. auto.
  - f_equal. apply IH. auto.
Qed.

Lemma dict_mem_true (k : key) (d : Dict.t) :
  Dict.mem k d = true <-> In k (Dict.keys d).
Proof.
  unfold Dict.mem. induction d as [|[k' v] d IH]; simpl.
  - split; [discriminate | tauto].
  - destruct (Py.key_eqb k k') eqn:Hk.
    + apply key_eqb_eq in Hk. subst. split; auto.
    + apply key_eqb_neq in Hk. rewrite IH. split; [auto|].
      intros [Heq | Hin]; [congruence | assumption].
Qed.

Lemma dict_set_NoDup (k : key) (v : string) (d : Dict.t) :
  NoDup (Dict.keys d) -> NoDup (Dict.keys (Dict.set k v d)).
Proof.
  intros Hnd. destruct (Dict.mem k d) eqn:Hmem.
  - apply dict_mem_true in Hmem. now rewrite dict_keys_set_present.
  - apply dict_mem_false in Hmem.
    rewrite dict_keys_set_absent by assumption.
    apply NoDup_app; auto.
    + constructor; [simpl; tauto | constructor].
    + intros x Hx [Heq | []]. subst. contradiction.
Qed.

(** The number of entries a dictionary holds under one key. *)
Lemma dict_set_one_entry (k : key) (v : string) (d : Dict.t) :
  NoDup (Dict.keys d) ->
  List.length (filter (fun e => Py.key_eqb k (fst e)) (Dict.set k v d)) = 1%nat.
Proof.
  induction d as [|[k' v'] d IH]; simpl; intros Hnd.
  - now rewrite key_eqb_refl.
  - inversion Hnd as [|? ? Hnotin Hnd']; subst.
    destruct (Py.key_eqb k k') eqn:Hk; simpl; rewrite Hk.
    + apply key_eqb_eq in Hk. subst k'. simpl. f_equal.
      apply dict_get_none in Hnotin.
      clear -Hnotin. induction d as [|[k0 v0] d IH]; simpl in *; [reflexivity|].
      destruct (Py.key_eqb k k0); [discriminate | auto].
    + auto.
Qed.

(** ** The file system *)

Section PutFacts.
Context {A : Type}.
Implicit Types (n : FS.node A) (cs : list string).

Lemma assoc_set_entry_same name (new : FS.node A) es :
  FS.assoc name (FS.set_entry name new es) = Some new.
Proof.
  induction es as [|[n m] es IH]; simpl.
  - now rewrite String.eqb_refl.
  - destruct (String.eqb name n) eqn:Hn; simpl; now rewrite Hn.
Qed.

Lemma assoc_set_entry_other (name name' : string) (new : FS.node A)
      (es : list (string * FS.node A)) :
  name <> name' ->
  FS.assoc name' (FS.set_entry name new es) = FS.assoc name' es.
Proof.
  intros Hne. induction es as [|[k m] es IH]; cbn.
  - destruct (String.eqb_spec name' name); [congruence | reflexivity].
  - destruct (String.eqb_spec name k) as [-> | Hk]; cbn.
    + destruct (String.eqb_spec name' k); [congruence | reflexivity].
    + now rewrite IH.
Qed.

Lemma walk_cons_dir (es : list (string * FS.node A)) (c : string) cs :
  FS.walk (FS.Dir es) (c :: cs)
  = match FS.assoc c es with Some m => FS.walk m cs | None => None end.
Proof. reflexivity. Qed.


(** What [put] binds is what [walk] finds. *)
Lemma walk_put cs : forall n new n',
  FS.put n cs new = Some n' -> FS.walk n' cs = Some new.
Proof.
  induction cs as [|c cs IH]; intros n new n' H; simpl in H; [discriminate|].
  destruct n as [x|es]; [discriminate|].
  destruct cs as [|c' cs'].
  - inversion H; subst. simpl. now rewrite assoc_set_entry_same.
  - destruct (FS.assoc c es) as [m|] eqn:Hm; [|discriminate].
    destruct (FS.put m (c' :: cs') new) as [m'|] eqn:Hp; [|discriminate].
    inversion H; subst.
    rewrite walk_cons_dir, assoc_set_entry_same. eapply IH. eassumption.
Qed.

(** Binding a name that was free, or rebinding a file to a file, keeps
    every other path: what a path named, it names still, up to the
    content of directories above the new entry and of the file rebound.
    When the name was free, files are what they were. *)
Lemma walk_put_kept cs : forall n new n' cs' m,
  FS.put n cs new = Some n' ->
  (forall t, FS.walk n cs = Some t ->
             FS.is_dir_node t = false /\ FS.is_dir_node new = false) ->
  FS.walk n cs' = Some m ->
  exists m',
    FS.walk n' cs' = Some m'
    /\ FS.is_dir_node m' = FS.is_dir_node m
    /\ (FS.walk n cs = None -> forall c, m = FS.File c -> m' = m).
Proof.
  induction cs as [|c cs IH]; intros n new n' cs' m Hput Hfree Hwalk;
    [discriminate|].
  destruct n as [x|es]; [discriminate|].
  destruct cs' as [|c' cs'].
  { cbn in Hwalk. inversion Hwalk; subst m.
    cbn in Hput. destruct cs as [|c2 cs2].
    - inversion Hput; subst. eexists. split; [reflexivity|].
      split; [reflexivity | discriminate].
    - destruct (FS.assoc c es) as [mc|]; [|discriminate].
      destruct (FS.put mc (c2 :: cs2) new); [|discriminate].
      inversion Hput; subst. eexists. split; [reflexivity|].
      split; [reflexivity | discriminate]. }
  rewrite walk_cons_dir in Hwalk.
  destruct (FS.assoc c' es) as [x|] eqn:Hx; [|discriminate].
  destruct (String.eqb_spec c c') as [-> | Hne].
  - (* the path goes through the name that is bound *)
    cbn [FS.put] in Hput. destruct cs as [|c2 cs2].
    + inversion Hput; subst n'. clear Hput.
      specialize (Hfree x). rewrite walk_cons_dir, Hx in Hfree.
      destruct (Hfree eq_refl) as [Htx Hnew].
      destruct x as [cx|esx]; [|discriminate].
      destruct cs' as [|c3 cs3]; [|discriminate].
      cbn in Hwalk. inversion Hwalk; subst m.
      exists new. rewrite walk_cons_dir, assoc_set_entry_same.
      split; [reflexivity|]. split; [exact Hnew|].
      rewrite walk_cons_dir, Hx. discriminate.
    + rewrite Hx in Hput.
      destruct (FS.put x (c2 :: cs2) new) as [x'|] eqn:Hpx; [|discriminate].
      inversion Hput; subst n'. clear Hput.
      assert (Hfree' : forall t, FS.walk x (c2 :: cs2) = Some t ->
                FS.is_dir_node t = false /\ FS.is_dir_node new = false).
      { intros t Ht. apply Hfree. now rewrite walk_cons_dir, Hx. }
      destruct (IH x new x' cs' m Hpx Hfree' Hwalk) as [m' [Hw' [Hk Hf]]].
      exists m'. rewrite walk_cons_dir, assoc_set_entry_same.
      split; [exact Hw'|]. split; [exact Hk|].
      rewrite walk_cons_dir, Hx. exact Hf.
  - (* the path goes another way *)
    assert (Hn' : exists y, n' = FS.Dir (FS.set_entry c y es)).
    { cbn [FS.put] in Hput. destruct cs as [|c2 cs2].
      - inversion Hput. now exists new.
      - destruct (FS.assoc c es) as [mc|]; [|discriminate].
        destruct (FS.put mc (c2 :: cs2) new) as [y|]; [|discriminate].
        inversion Hput. now exists y. }
    destruct Hn' as [y ->].
    exists m. rewrite walk_cons_dir, (assoc_set_entry_other _ _ _ _ Hne), Hx.
    split; [exact Hwalk|]. split; [reflexivity | auto].
Qed.



End PutFacts.

Section FileSystemFacts.
Context {A : Type}.
Implicit Types (r n : FS.node A) (p q : string).

Lemma isdir_not_isfile r p : FS.isdir r p = true -> FS.isfile r p = false.
Proof.
  unfold FS.isdir, FS.isfile.
  destruct (FS.resolve r p) as [[c|es]|]; congruence.
Qed.

(** How [resolve] reads on the walk of the names. *)
Lemma resolve_canon r q m :
  FS.resolve r q = Some m <->
  Str.is_empty q = false /\ Str.has_nul q = false
  /\ (exists acc, FS.canon r [] (PosixPath.components q) = Some acc
                  /\ FS.walk r acc = Some m)
  /\ (Str.ends_with PosixPath.sep q = true -> FS.is_dir_node m = true).
Proof.
  unfold FS.resolve. destruct (Str.is_empty q).
  { split; [discriminate | intros [H _]; discriminate]. }
  destruct (Str.has_nul q).
  { split; [discriminate | intros [_ [H _]]; discriminate]. }
  cbn [orb].
  destruct (FS.canon r [] (PosixPath.components q)) as [acc|].
  2:{ split; [discriminate | intros [_ [_ [[acc [H _]] _]]]; discriminate]. }
  destruct (FS.walk r acc) as [n|] eqn:Hw.
  2:{ split; [discriminate|]. intros [_ [_ [[acc' [H H']] _]]].
      inversion H; subst. congruence. }
  destruct (Str.ends_with PosixPath.sep q); cbn [andb].
  - destruct (FS.is_dir_node n) eqn:Hn; cbn [negb]; split.
    + intros H. inversion H; subst. repeat split; eauto.
    + intros [_ [_ [[acc' [H H']] _]]]. inversion H; subst. congruence.
    + discriminate.
    + intros [_ [_ [[acc' [H H']] Hd]]]. inversion H; subst.
      rewrite Hw in H'. inversion H'; subst.
      specialize (Hd eq_refl). congruence.
  - split.
    + intros H. inversion H; subst. repeat split; eauto. discriminate.
    + intros [_ [_ [[acc' [H H']] _]]]. inversion H; subst. congruence.
Qed.

Lemma isdir_walk r p :
  FS.isdir r p = true ->
  Str.is_empty p = false /\ Str.has_nul p = false
  /\ exists acc es, FS.canon r [] (PosixPath.components p) = Some acc
                    /\ FS.walk r acc = Some (FS.Dir es).
Proof.
  unfold FS.isdir. destruct (FS.resolve r p) as [[c|es]|] eqn:H;
    try discriminate.
  apply resolve_canon in H. destruct H as [H1 [H2 [[acc [H3 H4]] _]]].
  intros _. repeat split; eauto.
Qed.

(** [os.mkdir] on a directory that is there fails with [EEXIST]. *)
Lemma mkdir_existing r p :
  FS.isdir r p = true -> FS.mkdir r p = inl (FS.Errno FS.EEXIST).
Proof.
  intros H. apply isdir_walk in H.
  destruct H as [Hne [Hnul [acc [es [Hc Hw]]]]].
  unfold FS.mkdir. now rewrite Hne, Hnul, Hc.
Qed.

Lemma canon_app r cs1 : forall acc cs2,
  FS.canon r acc (cs1 ++ cs2)
  = match FS.canon r acc cs1 with
    | Some a => FS.canon r a cs2
    | None => None
    end.
Proof.
  induction cs1 as [|c cs1 IH]; intros acc cs2; [reflexivity|].
  cbn [app FS.canon].
  destruct (String.eqb c ".").
  { destruct (FS.walk r acc) as [[x|es]|]; auto. }
  destruct (String.eqb c "..").
  { destruct (FS.walk r acc) as [[x|es]|]; auto. }
  destruct (FS.walk r (acc ++ [c])); auto.
Qed.

(** One name that is neither [.] nor [..] steps into the entry of that
    name. *)
Lemma canon_step r acc c :
  String.eqb c "." = false -> String.eqb c ".." = false ->
  FS.canon r acc [c]
  = match FS.walk r (acc ++ [c]) with
    | Some _ => Some (acc ++ [c])%list
    | None => None
    end.
Proof. intros H1 H2. cbn [FS.canon]. now rewrite H1, H2. Qed.

(** The walk of the names is kept where [put] keeps what paths name. *)
Lemma canon_put_kept cs r (new : FS.node A) r' :
  FS.put r cs new = Some r' ->
  (forall t, FS.walk r cs = Some t ->
             FS.is_dir_node t = false /\ FS.is_dir_node new = false) ->
  forall cs0 acc acc',
    FS.canon r acc cs0 = Some acc' -> FS.canon r' acc cs0 = Some acc'.
Proof.
  intros Hput Hfree.
  assert (Hdir : forall acc es, FS.walk r acc = Some (FS.Dir es) ->
                   exists es', FS.walk r' acc = Some (FS.Dir es')).
  { intros acc es Hw.
    destruct (walk_put_kept cs r new r' acc _ Hput Hfree Hw)
      as [[x|es'] [Hw' [Hk _]]]; [discriminate | eauto]. }
  induction cs0 as [|c cs0 IH]; intros acc acc' H; [exact H|].
  cbn [FS.canon] in *.
  destruct (String.eqb c ".").
  { destruct (FS.walk r acc) as [[x|es]|] eqn:Hw; try discriminate.
    destruct (Hdir _ _ Hw) as [es' ->]. auto. }
  destruct (String.eqb c "..").
  { destruct (FS.walk r acc) as [[x|es]|] eqn:Hw; try discriminate.
    destruct (Hdir _ _ Hw) as [es' ->]. auto. }
  destruct (FS.walk r (acc ++ [c])) as [t|] eqn:Hw; [|discriminate].
  destruct (walk_put_kept cs r new r' _ _ Hput Hfree Hw) as [m' [-> _]].
  auto.
Qed.

(** What a successful [put_under] did, when the path named nothing. *)
Lemma put_under_inv r cs (new : FS.node A) r' :
  FS.canon r [] cs = None ->
  FS.put_under r cs new = inr r' ->
  exists pacc c es,
    cs = (removelast cs ++ [c])%list
    /\ FS.canon r [] (removelast cs) = Some pacc
    /\ FS.walk r pacc = Some (FS.Dir es)
    /\ String.eqb c "." = false /\ String.eqb c ".." = false
    /\ FS.walk r (pacc ++ [c]) = None
    /\ FS.put r (pacc ++ [c]) new = Some r'.
Proof.
  intros Hnone. unfold FS.put_under.
  destruct (FS.canon r [] (removelast cs)) as [pacc|] eqn:Hp; [|discriminate].
  destruct (FS.walk r pacc) as [[x|es]|] eqn:Hw; try discriminate.
  destruct (FS.put r (pacc ++ [last cs EmptyString]) new) as [r0|] eqn:Hput;
    [|discriminate].
  intros H. inversion H; subst r0. clear H.
  assert (Hcs : cs = (removelast cs ++ [last cs EmptyString])%list).
  { apply app_removelast_last. intros ->. discriminate. }
  set (c := last cs EmptyString) in *.
  rewrite Hcs, canon_app, Hp in Hnone. cbn [FS.canon] in Hnone.
  rewrite Hw in Hnone.
  destruct (String.eqb c ".") eqn:H1; [discriminate|].
  destruct (String.eqb c "..") eqn:H2; [discriminate|].
  destruct (FS.walk r (pacc ++ [c])) eqn:Hfree; [discriminate|].
  exists pacc, c, es. repeat split; auto.
Qed.

(** After it, the path names the new entry. *)
Lemma put_under_canon r cs (new : FS.node A) r' :
  FS.canon r [] cs = None ->
  FS.put_under r cs new = inr r' ->
  exists acc, FS.canon r' [] cs = Some acc /\ FS.walk r' acc = Some new.
Proof.
  intros Hnone Hput.
  destruct (put_under_inv _ _ _ _ Hnone Hput)
    as [pacc [c [es [Hcs [Hp [Hw [H1 [H2 [Hfree Hput']]]]]]]]].
  exists (pacc ++ [c])%list.
  pose proof (walk_put _ _ _ _ Hput') as Hnew.
  split; [|exact Hnew].
  rewrite Hcs, canon_app.
  rewrite (canon_put_kept _ _ _ _ Hput') with (acc' := pacc);
    [|intros t Ht; congruence | exact Hp].
  rewrite (canon_step _ _ _ H1 H2). now rewrite Hnew.
Qed.

(** What a successful [os.mkdir] did. *)
Lemma mkdir_inv r p r' :
  FS.mkdir r p = inr r' ->
  Str.has_nul p = false /\ Str.is_empty p = false
  /\ FS.canon r [] (PosixPath.components p) = None
  /\ FS.put_under r (PosixPath.components p) (FS.Dir []) = inr r'.
Proof.
  unfold FS.mkdir.
  destruct (Str.has_nul p); [discriminate|].
  destruct (Str.is_empty p); [discriminate|].
  destruct (FS.canon r [] (PosixPath.components p)); [discriminate|].
  auto.
Qed.

(** What a successful file write did: it bound a file to a place that
    was free or held a file, and the path names that place. *)
Lemma write_file_inv r p (c : A) r' :
  FS.write_file r p c = inr r' ->
  Str.has_nul p = false /\ Str.is_empty p = false
  /\ Str.ends_with PosixPath.sep p = false
  /\ exists tcs,
      FS.put r tcs (FS.File c) = Some r'
      /\ (forall t, FS.walk r tcs = Some t -> FS.is_dir_node t = false)
      /\ FS.canon r' [] (PosixPath.components p) = Some tcs.
Proof.
  unfold FS.write_file.
  destruct (Str.has_nul p); [discriminate|].
  destruct (Str.is_empty p); [discriminate|].
  destruct (Str.ends_with PosixPath.sep p); [discriminate|].
  set (cs := PosixPath.components p).
  destruct (FS.canon r [] cs) as [acc|] eqn:Hc.
  - destruct (FS.walk r acc) as [[x|es]|] eqn:Hw; try discriminate.
    destruct (FS.put r acc (FS.File c)) as [r0|] eqn:Hput; [|discriminate].
    intros H. inversion H; subst r0. repeat split; auto.
    exists acc. split; [exact Hput|].
    assert (Hfile : forall t, FS.walk r acc = Some t -> FS.is_dir_node t = false).
    { intros t Ht. rewrite Hw in Ht. now inversion Ht. }
    split; [exact Hfile|].
    apply (canon_put_kept _ _ _ _ Hput); [|exact Hc].
    intros t Ht. split; [now apply Hfile | reflexivity].
  - intros H. repeat split; auto.
    destruct (put_under_inv _ _ _ _ Hc H)
      as [pacc [x [es [Hcs [Hp [Hw [H1 [H2 [Hfree Hput]]]]]]]]].
    exists (pacc ++ [x])%list. split; [exact Hput|].
    split; [intros t Ht; congruence|].
    rewrite Hcs, canon_app.
    rewrite (canon_put_kept _ _ _ _ Hput) with (acc' := pacc);
      [|intros t Ht; congruence | exact Hp].
    rewrite (canon_step _ _ _ H1 H2). now rewrite (walk_put _ _ _ _ Hput).
Qed.

(** A file that was written can be read back. *)
Lemma resolve_write_file r p (c : A) r' :
  FS.write_file r p c = inr r' -> FS.resolve r' p = Some (FS.File c).
Proof.
  intros H. apply write_file_inv in H.
  destruct H as [Hnul [Hne [Hend [tcs [Hput [_ Hc]]]]]].
  apply resolve_canon. repeat split; auto.
  - exists tcs. split; [exact Hc | eapply walk_put; eassumption].
  - rewrite Hend. discriminate.
Qed.

End FileSystemFacts.

Section DiskRelations.
Context {A : Type}.
Implicit Types (r : FS.node A) (p q : string).

Lemma same_kinds_refl r : same_kinds r r.
Proof. intros q m H. now exists m. Qed.

Lemma same_kinds_trans r1 r2 r3 :
  same_kinds r1 r2 -> same_kinds r2 r3 -> same_kinds r1 r3.
Proof.
  intros H12 H23 q m Hm.
  destruct (H12 q m Hm) as [m2 [Hm2 Hk2]].
  destruct (H23 q m2 Hm2) as [m3 [Hm3 Hk3]].
  exists m3. split; [assumption | congruence].
Qed.

Lemma same_files_refl r : same_files r r.
Proof. intros q c H. exact H. Qed.

Lemma same_files_trans r1 r2 r3 :
  same_files r1 r2 -> same_files r2 r3 -> same_files r1 r3.
Proof. intros H12 H23 q c Hc. apply H23, H12, Hc. Qed.

Lemma same_kinds_isfile r r' q :
  same_kinds r r' -> FS.isfile r q = true -> FS.isfile r' q = true.
Proof.
  intros H. unfold FS.isfile.
  destruct (FS.resolve r q) as [[c|es]|] eqn:Hq; try discriminate.
  destruct (H q _ Hq) as [[c'|es'] [Hq' Hk]]; [|discriminate].
  now rewrite Hq'.
Qed.

Lemma same_kinds_isdir r r' q :
  same_kinds r r' -> FS.isdir r q = true -> FS.isdir r' q = true.
Proof.
  intros H. unfold FS.isdir.
  destruct (FS.resolve r q) as [[c|es]|] eqn:Hq; try discriminate.
  destruct (H q _ Hq) as [[c'|es'] [Hq' Hk]]; [discriminate|].
  now rewrite Hq'.
Qed.

(** Binding a name that was free, or rebinding a file to a file, removes
    nothing and changes no kind; a name that was free leaves every file
    with what it held. *)
Lemma put_keeps r tcs (new : FS.node A) r' :
  FS.put r tcs new = Some r' ->
  (forall t, FS.walk r tcs = Some t ->
             FS.is_dir_node t = false /\ FS.is_dir_node new = false) ->
  same_kinds r r' /\ (FS.walk r tcs = None -> same_files r r').
Proof.
  intros Hput Hfree. split.
  - intros q m Hq. apply resolve_canon in Hq.
    destruct Hq as [Hne [Hnul [[acc [Hc Hw]] Hd]]].
    destruct (walk_put_kept _ _ _ _ _ _ Hput Hfree Hw) as [m' [Hw' [Hk _]]].
    exists m'. split; [|exact Hk].
    apply resolve_canon. repeat split; auto.
    + exists acc. split; [|exact Hw'].
      eapply canon_put_kept; eassumption.
    + intros He. rewrite Hk. auto.
  - intros Hnone q c Hq. apply resolve_canon in Hq.
    destruct Hq as [Hne [Hnul [[acc [Hc Hw]] Hd]]].
    destruct (walk_put_kept _ _ _ _ _ _ Hput Hfree Hw) as [m' [Hw' [_ Hf]]].
    rewrite (Hf Hnone c eq_refl) in Hw'.
    apply resolve_canon. repeat split; auto.
    exists acc. split; [|exact Hw'].
    eapply canon_put_kept; eassumption.
Qed.

(** A successful [os.mkdir] removes nothing, changes no kind and no file. *)
Lemma mkdir_keeps r p r' :
  FS.mkdir r p = inr r' -> same_kinds r r' /\ same_files r r'.
Proof.
  intros H. apply mkdir_inv in H. destruct H as [_ [_ [Hnone Hput]]].
  destruct (put_under_inv _ _ _ _ Hnone Hput)
    as [pacc [c [es [_ [_ [_ [_ [_ [Hfree Hput']]]]]]]]].
  destruct (put_keeps _ _ _ _ Hput') as [Hk Hf].
  - intros t Ht. congruence.
  - split; [exact Hk | exact (Hf Hfree)].
Qed.

Lemma same_kinds_lexists r r' q :
  same_kinds r r' -> FS.lexists r q = true -> FS.lexists r' q = true.
Proof.
  intros H. unfold FS.lexists.
  destruct (FS.resolve r q) as [m|] eqn:Hq; [|discriminate].
  destruct (H q _ Hq) as [m' [Hq' _]]. now rewrite Hq'.
Qed.

(** [os.mkdir] goes through only on a path that names nothing. *)
Lemma mkdir_free r p r' : FS.mkdir r p = inr r' -> FS.lexists r p = false.
Proof.
  intros H. apply mkdir_inv in H. destruct H as [_ [_ [Hnone _]]].
  unfold FS.lexists, FS.resolve. rewrite Hnone.
  now destruct (Str.is_empty p || Str.has_nul p).
Qed.

(** A successful file write removes nothing and changes no kind. *)
Lemma write_file_keeps r p (c : A) r' :
  FS.write_file r p c = inr r' -> same_kinds r r'.
Proof.
  intros H. apply write_file_inv in H.
  destruct H as [_ [_ [_ [tcs [Hput [Hfile _]]]]]].
  apply (put_keeps _ _ _ _ Hput).
  intros t Ht. split; [now apply Hfile | reflexivity].
Qed.

(** The directory [os.mkdir] made is there. *)
Lemma mkdir_isdir r p r' : FS.mkdir r p = inr r' -> FS.isdir r' p = true.
Proof.
  intros H. apply mkdir_inv in H. destruct H as [Hnul [Hne [Hnone Hput]]].
  destruct (put_under_canon _ _ _ _ Hnone Hput) as [acc [Hc Hw]].
  assert (Hr : FS.resolve r' p = Some (FS.Dir [])).
  { apply resolve_canon. repeat split; eauto. }
  unfold FS.isdir. now rewrite Hr.
Qed.

End DiskRelations.

(** ** The loop of [os.mkdir] calls *)

Section MkdirLoop.
Context {E : Externals}.

Lemma os_mkdir_cases (p : string) (w w' : world) (res : exn + unit) :
  os_mkdir p w = (w', res) ->
  trace w' = (trace w ++ [EvMkdir p])%list /\ gen w' = gen w
  /\ ((exists r', FS.mkdir (root w) p = inr r' /\ root w' = r' /\ res = inr tt)
      \/ exists f, FS.mkdir (root w) p = inl f /\ root w' = root w
                   /\ res = inl (py_error f p)).
Proof.
  unfold os_mkdir. cbn [root log].
  destruct (FS.mkdir (root w) p) as [f|r'] eqn:Hmk;
    intros H; inversion H; subst; cbn; repeat split; eauto.
Qed.

(** Either every call went through: every path named nothing before and
    is a directory now. Or the calls stopped at the first one that
    failed: the directories before it were made, and the one call fails
    on the disk as it is left. *)
Lemma mkdir_loop_cases (paths : list string) : forall w w' res,
  for_each paths os_mkdir w = (w', res) ->
  gen w' = gen w
  /\ same_kinds (root w) (root w') /\ same_files (root w) (root w')
  /\ ((res = inr tt
       /\ trace w' = (trace w ++ map EvMkdir paths)%list
       /\ Forall (fun p => FS.lexists (root w) p = false
                           /\ FS.isdir (root w') p = true) paths)
      \/ exists pre p rest f,
           paths = (pre ++ p :: rest)%list
           /\ res = inl (py_error f p)
           /\ FS.mkdir (root w') p = inl f
           /\ trace w' = (trace w ++ map EvMkdir (pre ++ [p]))%list
           /\ Forall (fun p => FS.lexists (root w) p = false
                               /\ FS.isdir (root w') p = true) pre).
Proof.
  induction paths as [|p paths IH]; intros w w' res H; cbn [for_each] in H.
  - inversion H; subst. split; [reflexivity|].
    split; [apply same_kinds_refl|]. split; [apply same_files_refl|].
    left. split; [reflexivity|]. split; [now rewrite app_nil_r | constructor].
  - unfold bind in H.
    destruct (os_mkdir p w) as [w1 res1] eqn:Hmk.
    destruct (os_mkdir_cases _ _ _ _ Hmk)
      as [Ht1 [Hg1 [[r' [Hr' [Hroot ->]]] | [f [Hf [Hroot ->]]]]]].
    + destruct (mkdir_keeps _ _ _ Hr') as [Hk1 Hf1].
      pose proof (mkdir_isdir _ _ _ Hr') as Hd1.
      pose proof (mkdir_free _ _ _ Hr') as Hfree1.
      rewrite <- Hroot in Hk1, Hf1, Hd1.
      destruct (IH _ _ _ H) as [Hg [Hk [Hfl Hcases]]].
      split; [congruence|].
      split; [eapply same_kinds_trans; eassumption|].
      split; [eapply same_files_trans; eassumption|].
      assert (Hd : FS.isdir (root w') p = true)
        by (eapply same_kinds_isdir; eassumption).
      assert (Hback : forall l,
                Forall (fun q => FS.lexists (root w1) q = false
                                 /\ FS.isdir (root w') q = true) l ->
                Forall (fun q => FS.lexists (root w) q = false
                                 /\ FS.isdir (root w') q = true) l).
      { intros l. apply Forall_impl. intros q [Hq1 Hq2]. split; [|exact Hq2].
        destruct (FS.lexists (root w) q) eqn:Hq; [|reflexivity].
        rewrite (same_kinds_lexists _ _ _ Hk1 Hq) in Hq1. discriminate. }
      destruct Hcases
        as [[Hres [Ht Hdirs]] | [pre [q [rest [f [Hp [Hres [Hq [Ht Hdirs]]]]]]]]].
      * left. split; [assumption|]. split; [|constructor; auto].
        rewrite Ht, Ht1, <- app_assoc. reflexivity.
      * right. exists (p :: pre), q, rest, f. split; [now rewrite Hp|].
        split; [assumption|]. split; [assumption|].
        split; [|constructor; auto].
        rewrite Ht, Ht1, <- app_assoc. reflexivity.
    + inversion H; subst. split; [exact Hg1|].
      rewrite Hroot.
      split; [apply same_kinds_refl|]. split; [apply same_files_refl|].
      right. exists [], p, paths, f. repeat split; auto.
Qed.

(** The loop of the folder-creation step is the loop over the paths of
    the folders. *)
Lemma mkdir_loop_paths (output_dir : string) (cn : key) (snrs : list pyval) :
  for_each snrs
    (fun snr => os_mkdir (PosixPath.join output_dir (condition_folder cn snr)))
  = for_each (folder_paths output_dir cn snrs) os_mkdir.
Proof.
  unfold folder_paths. induction snrs as [|s l IH]; cbn;
    [reflexivity | now rewrite IH].
Qed.

End MkdirLoop.


(** ** Registration of distortion files from a folder *)

Section FolderRegistration.
Context {E : Externals}.

(** The test of line 53 holds of every name: nothing is both a list and
    a tuple. *)
Lemma name_type_test_always (nm : name_arg) :
  negb (Py.name_is_list nm) || negb (Py.name_is_tuple nm) = true.
Proof. destruct nm; reflexivity. Qed.

(** C1 (the code departs from the claim). With a folder for [path], every
    explicit [name] ends in the [ValueError] of line 54 and leaves the
    registry as it was, whatever its type and its length: a list of as
    many names as the folder holds wav files is refused like any other.
    The same holds through [add_noise_files] and [add_reverb_files]. *)
Theorem add_distortion_folder_named_raises
        (r : FS.node content) (path : string) (self : Dataset)
        (dd : Dict.t) (nm : name_arg) :
  FS.isdir r path = true ->
  _add_distortion_files r path dd (Some nm) = (dd, inl folder_name_error)
  /\ add_noise_files r self path (Some nm) = (self, inl folder_name_error)
  /\ add_reverb_files r self path (Some nm) = (self, inl folder_name_error).
Proof.
  intros Hdir.
  assert (H : forall dd',
             _add_distortion_files r path dd' (Some nm)
             = (dd', inl folder_name_error)).
  { intros dd'. unfold _add_distortion_files.
    rewrite (isdir_not_isfile _ _ Hdir), Hdir.
    now rewrite name_type_test_always. }
  split; [apply H|].
  unfold add_noise_files, add_reverb_files. rewrite !H.
  destruct self; split; reflexivity.
Qed.

End FolderRegistration.

(** The folder [noise] of the demo disk holds two wav files; two names for
    them are refused. *)
Lemma add_distortion_folder_named_raises_witness :
  FS.isdir Demo.disk "noise" = true
  /\ wav_files Demo.disk "noise" = ["noise/white.wav"; "noise/babble.wav"]
  /\ add_noise_files (E := Demo.ext) Demo.disk (Dataset_init "P.56") "noise"
       (Some (NList ["white"; "babble"]))
     = (Dataset_init "P.56", inl folder_name_error).
Proof.
  split; [reflexivity|]. split; [reflexivity|].
  apply (add_distortion_folder_named_raises (E := Demo.ext)
           Demo.disk "noise" (Dataset_init "P.56") []
           (NList ["white"; "babble"])).
  reflexivity.
Defined.

(** ** The conditions of [generate_dataset] *)

Section Conditions.
Context {E : Externals}.

Lemma Pool_ok (n : Z) (w : world) : (1 <= n)%Z -> Pool n w = (w, inr n).
Proof.
  intros H. unfold Pool. destruct (Z.ltb_spec n 1); [lia | reflexivity].
Qed.

(** C2 (amended). [generate_dataset] runs [generate_condition] once for
    each pair of the cross-product of the reverb names and the noise
    names, each time with the reverb name of the pair; there are as many
    conditions as the product of the two registry sizes, so that an empty
    registry, the reverb registry included, leaves no condition: the call
    returns and the world is as it was. *)
Theorem generate_dataset_cross_product
        (self : Dataset) (snrs : pyval) (output_dir : string)
        (files_per_condition : option Z) (n_workers : Z) (w : world) :
  (1 <= n_workers)%Z ->
  generate_dataset self snrs output_dir files_per_condition n_workers w
  = for_each (list_prod (Dict.keys (reverb self)) (Dict.keys (noise self)))
      (fun '(reverb_name, noise_name) =>
         generate_condition self (VList (snr_list snrs)) noise_name
           output_dir (Some reverb_name) files_per_condition
           (Some n_workers)) w
  /\ List.length (conditions self)
     = (List.length (reverb self) * List.length (noise self))%nat
  /\ (reverb self = [] \/ noise self = [] ->
      generate_dataset self snrs output_dir files_per_condition n_workers w
      = (w, inr tt)).
Proof.
  intros Hn.
  assert (Hrun : generate_dataset self snrs output_dir files_per_condition
                   n_workers w
                 = for_each (conditions self)
                     (fun '(reverb_name, noise_name) =>
                        generate_condition self (VList (snr_list snrs))
                          noise_name output_dir (Some reverb_name)
                          files_per_condition (Some n_workers)) w).
  { unfold generate_dataset, bind. now rewrite Pool_ok. }
  split; [exact Hrun|]. split.
  - unfold conditions, Dict.keys. now rewrite length_prod, !length_map.
  - intros Hempty. rewrite Hrun. unfold conditions.
    destruct Hempty as [Hr | Hz].
    + now rewrite Hr.
    + rewrite Hz. simpl.
      induction (Dict.keys (reverb self)); simpl; auto.
Qed.

End Conditions.

Lemma generate_dataset_cross_product_witness :
  generate_dataset (E := Demo.ext) Demo.d_white (VInt 5) "gen" None 4
                   Demo.start
  = (Demo.start, inr tt).
Proof.
  apply (generate_dataset_cross_product (E := Demo.ext) Demo.d_white (VInt 5)
           "gen" None 4 Demo.start); [lia | now left].
Defined.

(** With the noise ["white"] registered and no reverb, the code generates
    nothing, where the conditions of the specification's wording hold the
    one condition of ["white"] without reverb and generate its folder and
    file. *)
Lemma generate_dataset_noise_only_counterexample :
  reverb Demo.d_white = []
  /\ Dict.keys (noise Demo.d_white) = [KStr "white"]
  /\ spec_conditions Demo.d_white = [(None, KStr "white")]
  /\ generate_dataset (E := Demo.ext) Demo.d_white (VInt 5) "gen" None 4
       Demo.start = (Demo.start, inr tt)
  /\ trace (fst (spec_generate_dataset (E := Demo.ext) Demo.d_white (VInt 5)
                   "gen" None 4 Demo.start))
     = [EvRead "noise/white.wav"; EvMkdir "gen"; EvMkdir "gen/white_5dB";
        EvRead "speech/a.wav"; EvWrite "gen/white_5dB/a.wav" 16000]
  /\ generate_dataset (E := Demo.ext) Demo.d_white (VInt 5) "gen" None 4
       Demo.start
     <> spec_generate_dataset (E := Demo.ext) Demo.d_white (VInt 5) "gen"
          None 4 Demo.start.
Proof.
  repeat split; try reflexivity.
  intros H. apply (f_equal (fun x => List.length (trace (fst x)))) in H.
  vm_compute in H. discriminate.
Qed.

(** ** The folder-creation step *)

Section FolderCreation.
Context {E : Externals}.

(** C3 (the code departs from the claim). When the folder of the first
    SNR is already there, its [os.mkdir] raises, the [except] clause
    around the whole loop prints the warning, and the step is over: no
    [os.mkdir] is tried for the SNRs that follow and the disk is as it
    was, so a folder that was missing for a later SNR is still missing. *)
Theorem make_condition_folders_stops_at_existing
        (output_dir : string) (condition_name : key) (snr : pyval)
        (rest : list pyval) (w : world) :
  FS.isdir (root w)
           (PosixPath.join output_dir (condition_folder condition_name snr))
  = true ->
  make_condition_folders output_dir condition_name (snr :: rest) w
  = (mkWorld (root w)
       (trace w
        ++ [EvMkdir (PosixPath.join output_dir
                       (condition_folder condition_name snr));
            folder_warning])
       (gen w),
     inr tt).
Proof.
  intros Hdir.
  unfold make_condition_folders, try_except_OSError. simpl.
  unfold bind, os_mkdir. simpl.
  rewrite (mkdir_existing _ _ Hdir). simpl.
  unfold print, log. simpl. now rewrite <- app_assoc.
Qed.

End FolderCreation.

(** On the demo disk, [out/white_0dB] exists and [out/white_10dB] does
    not. For the SNRs 0 and 10 the step leaves [out/white_10dB] missing,
    and the run then fails when it writes there. *)
Lemma make_condition_folders_stops_at_existing_witness :
  FS.isdir Demo.disk "out/white_0dB" = true
  /\ FS.isdir Demo.disk "out/white_10dB" = false
  /\ make_condition_folders (E := Demo.ext) "out" (KStr "white")
       [VInt 0; VInt 10] Demo.start
     = (mkWorld Demo.disk [EvMkdir "out/white_0dB"; folder_warning] tt, inr tt)
  /\ snd (generate_condition (E := Demo.ext) Demo.d_white
            (VList [VInt 0; VInt 10]) (KStr "white") "out" None None None
            Demo.start)
     = inl (OSError FS.ENOENT "out/white_10dB/a.wav").
Proof.
  split; [reflexivity|]. split; [reflexivity|]. split; [|reflexivity].
  apply (make_condition_folders_stops_at_existing (E := Demo.ext)
           "out" (KStr "white") (VInt 0) [VInt 10] Demo.start).
  reflexivity.
Defined.

(** ** Validation of the noise and reverb names *)

Section NameValidation.
Context {E : Externals}.

(** C4. A noise name that is not a key of the noise registry makes
    [generate_condition] raise the [ValueError] "noise not in dataset"
    at once: the world is the one the call started in, with the same
    disk and no event added to the trace (no read, no write, no
    [os.mkdir]). *)
Theorem generate_condition_unknown_noise
        (self : Dataset) (snrs : pyval) (noise_name : key)
        (output_dir : string) (reverb_name : option key)
        (files_per_condition : option Z) (pool : option Z) (w : world) :
  ~ In noise_name (Dict.keys (noise self)) ->
  generate_condition self snrs noise_name output_dir reverb_name
                     files_per_condition pool w
  = (w, inl UnknownDistortionError).
Proof.
  intros Hnot. apply dict_mem_false in Hnot.
  unfold generate_condition. now rewrite Hnot.
Qed.

(** C9. With a registered noise whose file reads well and a reverb name
    that is not a key of the reverb registry, [generate_condition] raises
    the [KeyError] of the plain lookup [self.reverb[reverb]], not the
    [ValueError] the noise name gets, and it does so after the noise file
    was read: that read is the one event of the run, and the disk is as
    it was. *)
Theorem generate_condition_unknown_reverb
        (self : Dataset) (snrs : pyval) (noise_name rv : key)
        (output_dir p : string) (files_per_condition : option Z)
        (pool : option Z) (w : world) (x : signal) (fs : Z) :
  Dict.get noise_name (noise self) = Some p ->
  FS.resolve (root w) p = Some (FS.File (Some (x, fs))) ->
  ~ In rv (Dict.keys (reverb self)) ->
  generate_condition self snrs noise_name output_dir (Some rv)
                     files_per_condition pool w
  = (mkWorld (root w) (trace w ++ [EvRead p]) (gen w), inl (KeyError rv))
  /\ KeyError rv <> UnknownDistortionError.
Proof.
  intros Hp Hread Hnot. split; [|discriminate].
  apply dict_get_none in Hnot.
  unfold generate_condition, Dict.mem. rewrite Hp. simpl.
  unfold bind, getitem. rewrite Hp. simpl.
  unfold wavread. simpl. rewrite Hread. simpl.
  now rewrite Hnot.
Qed.

End NameValidation.

Lemma generate_condition_unknown_noise_witness :
  ~ In (KStr "pink") (Dict.keys (noise Demo.d_white))
  /\ generate_condition (E := Demo.ext) Demo.d_white (VList [VInt 0])
       (KStr "pink") "gen" None None None Demo.start
     = (Demo.start, inl UnknownDistortionError).
Proof.
  assert (H : ~ In (KStr "pink") (Dict.keys (noise Demo.d_white))).
  { simpl. intros [H | []]. discriminate. }
  split; [exact H|].
  exact (generate_condition_unknown_noise (E := Demo.ext) Demo.d_white
           (VList [VInt 0]) (KStr "pink") "gen" None None None Demo.start H).
Defined.

Lemma generate_condition_unknown_reverb_witness :
  generate_condition (E := Demo.ext) Demo.d_white (VList [VInt 0])
    (KStr "white") "gen" (Some (KStr "hall")) None None Demo.start
  = (mkWorld Demo.disk [EvRead "noise/white.wav"] tt, inl (KeyError (KStr "hall"))).
Proof.
  apply (generate_condition_unknown_reverb (E := Demo.ext) Demo.d_white
           (VList [VInt 0]) (KStr "white") (KStr "hall") "gen"
           "noise/white.wav" None None Demo.start [9; 9]%Z 16000%Z).
  - reflexivity.
  - reflexivity.
  - simpl. tauto.
Defined.

(** ** Base names and extensions *)

Lemma is_empty_app_cons (a : string) (c : ascii) (b : string) :
  Str.is_empty (a ++ String c b) = false.
Proof. destruct a; reflexivity. Qed.

Lemma mem_app (c : ascii) (a b : string) :
  Str.mem c (a ++ b) = Str.mem c a || Str.mem c b.
Proof.
  unfold Str.mem. induction a as [|d a IH]; simpl; [reflexivity|].
  now rewrite IH, orb_assoc.
Qed.

(** Nothing is cut from a string that lacks the character. *)
Lemma rcut_absent (c : ascii) (s : string) :
  Str.mem c s = false -> Str.rcut c s = (EmptyString, s).
Proof.
  unfold Str.mem. induction s as [|d s IH]; simpl; [reflexivity|].
  intros H. apply orb_false_iff in H. destruct H as [Hd Hs].
  rewrite (IH Hs). simpl. now rewrite Hd.
Qed.

(** The cut falls at the last occurrence. *)
Lemma rcut_app (c : ascii) (h t : string) :
  Str.mem c t = false ->
  Str.rcut c (h ++ String c t) = (h ++ String c EmptyString, t).
Proof.
  intros Ht. induction h as [|d h IH]; simpl.
  - rewrite (rcut_absent _ _ Ht). simpl. now rewrite Ascii.eqb_refl.
  - rewrite IH. now rewrite is_empty_app_cons.
Qed.

Lemma basename_join (dir name : string) :
  Str.mem PosixPath.sep name = false ->
  PosixPath.basename (dir ++ "/" ++ name) = name.
Proof.
  intros H. unfold PosixPath.basename.
  change (dir ++ "/" ++ name) with (dir ++ String PosixPath.sep name).
  now rewrite rcut_app.
Qed.

Lemma basename_plain (name : string) :
  Str.mem PosixPath.sep name = false -> PosixPath.basename name = name.
Proof.
  intros H. unfold PosixPath.basename. now rewrite rcut_absent.
Qed.

Lemma substring_prefix (a b : string) :
  String.substring 0 (String.length a) (a ++ b) = a.
Proof.
  induction a as [|c a IH]; simpl.
  - destruct b; reflexivity.
  - now rewrite IH.
Qed.

Lemma length_app_one (a : string) (c : ascii) :
  String.length (a ++ String c EmptyString) = S (String.length a).
Proof. induction a; simpl; congruence. Qed.

(** [splitext] on a plain name [base.ext]: the extension has no dot, the
    base does not start with one. *)
Lemma splitext_plain (base ext : string) :
  Str.mem PosixPath.sep base = false ->
  Str.mem PosixPath.sep ext = false ->
  Str.mem PosixPath.extsep ext = false ->
  Str.starts_with PosixPath.extsep base = false ->
  base <> EmptyString ->
  PosixPath.splitext (base ++ "." ++ ext) = (base, "." ++ ext).
Proof.
  intros Hsb Hse Hde Hstart Hne.
  unfold PosixPath.splitext.
  rewrite rcut_absent.
  2:{ rewrite mem_app, Hsb. simpl. exact Hse. }
  change (base ++ "." ++ ext) with (base ++ String PosixPath.extsep ext).
  rewrite (rcut_app _ _ _ Hde).
  destruct base as [|b base]; [contradiction|].
  cbn [Str.starts_with] in Hstart.
  cbn [String.append Str.rstrip]. rewrite Hstart, andb_false_r.
  cbn [Str.is_empty].
  change (String b (base ++ String PosixPath.extsep EmptyString))
    with (String b base ++ String PosixPath.extsep EmptyString).
  rewrite length_app_one.
  replace (S (String.length (String b base)) - 1)%nat
    with (String.length (String b base)) by lia.
  now rewrite substring_prefix.
Qed.

(** The key a file gets when no name is given. *)
Lemma stem_plain (dir base ext : string) :
  Str.mem PosixPath.sep base = false ->
  Str.mem PosixPath.sep ext = false ->
  Str.mem PosixPath.extsep ext = false ->
  Str.starts_with PosixPath.extsep base = false ->
  base <> EmptyString ->
  stem (dir ++ "/" ++ base ++ "." ++ ext) = base
  /\ stem (base ++ "." ++ ext) = base.
Proof.
  intros Hsb Hse Hde Hstart Hne.
  assert (Hname : Str.mem PosixPath.sep (base ++ "." ++ ext) = false).
  { rewrite mem_app, Hsb. simpl. exact Hse. }
  unfold stem. rewrite basename_join, basename_plain by assumption.
  now rewrite splitext_plain.
Qed.

(** ** Registration of a single distortion file *)

Section SingleFile.
Context {E : Externals}.

(** C8. An existing file registered with no name is stored under the key
    [splitext(basename(path))[0]], which for a path [dir/base.ext] is
    [base]; the same through [add_noise_files] and [add_reverb_files].
    The assignment [d[k] = path] makes [k] map to [path] and touches no
    other key; when [k] was present the keys stay what they were (the old
    path is replaced, nothing is added), and a registry without repeated
    keys stays so, with one entry under [k]. *)
Theorem add_distortion_single_file
        (r : FS.node content) (path : string) (self : Dataset) (dd : Dict.t) :
  FS.isfile r path = true ->
  _add_distortion_files r path dd None
  = (Dict.set (KStr (stem path)) path dd, inr tt)
  /\ add_noise_files r self path None
     = (with_noise (Dict.set (KStr (stem path)) path (noise self)) self, inr tt)
  /\ add_reverb_files r self path None
     = (with_reverb (Dict.set (KStr (stem path)) path (reverb self)) self, inr tt)
  /\ (forall dir base ext,
        Str.mem PosixPath.sep base = false ->
        Str.mem PosixPath.sep ext = false ->
        Str.mem PosixPath.extsep ext = false ->
        Str.starts_with PosixPath.extsep base = false ->
        base <> EmptyString ->
        path = dir ++ "/" ++ base ++ "." ++ ext \/ path = base ++ "." ++ ext ->
        stem path = base)
  /\ (forall k,
        Dict.get k (Dict.set k path dd) = Some path
        /\ (forall k', k <> k' ->
              Dict.get k' (Dict.set k path dd) = Dict.get k' dd)
        /\ (In k (Dict.keys dd) ->
              Dict.keys (Dict.set k path dd) = Dict.keys dd)
        /\ (NoDup (Dict.keys dd) ->
              NoDup (Dict.keys (Dict.set k path dd))
              /\ List.length (filter (fun e => Py.key_eqb k (fst e))
                                     (Dict.set k path dd)) = 1%nat)).
Proof.
  intros Hfile.
  assert (H : forall d0, _add_distortion_files r path d0 None
                         = (Dict.set (KStr (stem path)) path d0, inr tt)).
  { intros d0. unfold _add_distortion_files. now rewrite Hfile. }
  split; [apply H|].
  split; [unfold add_noise_files; now rewrite H|].
  split; [unfold add_reverb_files; now rewrite H|].
  split.
  - intros dir base ext Hsb Hse Hde Hstart Hne [-> | ->];
      now apply (stem_plain dir).
  - intros k. split; [apply dict_get_set_same|].
    split; [intros k' Hk; now apply dict_get_set_other|].
    split; [apply dict_keys_set_present|].
    intros Hnd. split; [now apply dict_set_NoDup | now apply dict_set_one_entry].
Qed.

(** An explicit [str] name is the key as it is. *)
Lemma add_distortion_single_file_named
      (r : FS.node content) (path s : string) (dd : Dict.t) :
  FS.isfile r path = true ->
  _add_distortion_files r path dd (Some (NStr s))
  = (Dict.set (KStr s) path dd, inr tt).
Proof. intros Hfile. unfold _add_distortion_files. now rewrite Hfile. Qed.

End SingleFile.

(** [noise/white.wav] goes under ["white"], and replaces what was there. *)
Lemma add_distortion_single_file_witness :
  FS.isfile Demo.disk "noise/white.wav" = true
  /\ _add_distortion_files (E := Demo.ext) Demo.disk "noise/white.wav"
       [(KStr "white", "elsewhere/white.wav"); (KStr "pink", "pink.wav")] None
     = ([(KStr "white", "noise/white.wav"); (KStr "pink", "pink.wav")], inr tt).
Proof.
  split; [reflexivity|].
  exact (proj1 (add_distortion_single_file (E := Demo.ext) Demo.disk
                  "noise/white.wav" (Dataset_init "P.56")
                  [(KStr "white", "elsewhere/white.wav"); (KStr "pink", "pink.wav")]
                  eq_refl)).
Defined.

(** ** The pool *)

Lemma In_firstn {A} (n : nat) (l : list A) (x : A) :
  In x (firstn n l) -> In x l.
Proof.
  intros H. rewrite <- (firstn_skipn n l). apply in_or_app. now left.
Qed.

Lemma In_skipn {A} (n : nat) (l : list A) (x : A) :
  In x (skipn n l) -> In x l.
Proof.
  intros H. rewrite <- (firstn_skipn n l). apply in_or_app. now right.
Qed.

(** A list, cut at a place it has. *)
Lemma split_at {A} (i : nat) (l : list A) (d : A) :
  (i < List.length l)%nat ->
  l = (firstn i l ++ nth i l d :: skipn (S i) l)%list.
Proof.
  revert l. induction i as [|i IH]; intros [|a l] H; cbn in H; try lia.
  - reflexivity.
  - cbn [firstn nth skipn app]. f_equal. apply IH. lia.
Qed.

Section Chunks.
Context {A : Type}.

Lemma chunksize_pos (n processes : nat) :
  (0 < n)%nat -> (0 < processes)%nat -> (0 < chunksize n processes)%nat.
Proof.
  intros Hn Hp. unfold chunksize.
  destruct (Nat.eqb_spec n 0) as [|_]; [lia|].
  pose proof (Nat.div_mod_eq n (processes * 4)) as Hdm.
  destruct (Nat.eqb_spec (n mod (processes * 4)) 0) as [Hz|]; [|lia].
  rewrite Hz in Hdm.
  destruct (n / (processes * 4))%nat; lia.
Qed.

Lemma chunks_of_incl (fuel size : nat) : forall (xs c : list A),
  In c (chunks_of fuel size xs) -> incl c xs.
Proof.
  induction fuel as [|fuel IH]; intros xs c H; [contradiction|].
  cbn [chunks_of] in H. destruct xs as [|x xs]; [contradiction|].
  destruct H as [<- | H].
  - intros y. apply In_firstn.
  - intros y Hy. eapply In_skipn. eapply IH; eassumption.
Qed.

Lemma chunks_of_concat (fuel size : nat) : forall xs : list A,
  (0 < size)%nat -> (List.length xs <= fuel)%nat ->
  List.concat (chunks_of fuel size xs) = xs.
Proof.
  induction fuel as [|fuel IH]; intros xs Hs Hf.
  - destruct xs; [reflexivity | cbn in Hf; lia].
  - cbn [chunks_of]. destruct xs as [|x xs]; [reflexivity|].
    cbn [List.concat]. rewrite IH; [apply firstn_skipn | exact Hs |].
    rewrite length_skipn. cbn [List.length] in *. lia.
Qed.

Lemma chunks_of_nonempty (fuel size : nat) : forall xs : list A,
  (0 < size)%nat -> Forall (fun c => c <> []) (chunks_of fuel size xs).
Proof.
  induction fuel as [|fuel IH]; intros xs Hs; [constructor|].
  cbn [chunks_of]. destruct xs as [|x xs]; [constructor|].
  constructor; [|now apply IH].
  destruct size; [lia | discriminate].
Qed.

End Chunks.

Section PoolRuns.
Context {E : Externals} {A : Type}.
Variable Phi : world -> world -> Prop.
Hypothesis Phi_refl : forall w, Phi w w.
Hypothesis Phi_trans : forall w1 w2 w3, Phi w1 w2 -> Phi w2 w3 -> Phi w1 w3.
Variable f : A -> M (M unit).
Variable T : A -> Prop.
Variable K : A -> M unit -> Prop.
Hypothesis first_half :
  forall x w w' res,
    T x -> f x w = (w', res) -> Phi w w' /\ forall k, res = inr k -> K x k.
Hypothesis second_half :
  forall x k w w' res, K x k -> k w = (w', res) -> Phi w w'.

Lemma pool_result_world (errors : list exn) (w w' : world) res :
  pool_result errors w = (w', res) -> w' = w.
Proof. unfold pool_result. destruct errors; intros H; now inversion H. Qed.

Lemma job_step_rel (j : job A) (w w' : world) res :
  job_inv T K j -> job_step f j w = (w', res) ->
  Phi w w' /\ forall j', res = inr j' -> job_inv T K j'.
Proof.
  intros Hinv. pose proof Hinv as [Hrest Hcur]. unfold job_step.
  destruct (job_cur j) as [[x k]|].
  - destruct (k w) as [w1 [e|[]]] eqn:Hk; intros H; inversion H; subst.
    + split; [eapply second_half; eassumption | discriminate].
    + split; [eapply second_half; eassumption|].
      intros j' Hj. inversion Hj; subst. split; [exact Hrest | exact I].
  - destruct (job_rest j) as [|x xs] eqn:Hr.
    + intros H. inversion H; subst. split; [apply Phi_refl|].
      intros j' Hj. inversion Hj; subst. exact Hinv.
    + inversion Hrest as [|? ? Hx Hxs]; subst.
      destruct (f x w) as [w1 [e|k]] eqn:Hf; intros H; inversion H; subst.
      * split; [eapply (first_half x); eassumption | discriminate].
      * destruct (first_half x _ _ _ Hx Hf) as [HPhi HK].
        split; [exact HPhi|]. intros j' Hj. inversion Hj; subst.
        split; [exact Hxs | now apply HK].
Qed.

Lemma run_pool_rel (fuel : nat) : forall processes jobs errors w w' res,
  Forall (job_inv T K) jobs ->
  run_pool fuel processes f jobs errors w = (w', res) -> Phi w w'.
Proof.
  induction fuel as [|fuel IH]; intros processes jobs errors w w' res Hinv H.
  - destruct jobs; cbn [run_pool] in H;
      apply pool_result_world in H; subst; apply Phi_refl.
  - destruct jobs as [|j0 jobs']; cbn [run_pool] in H.
    { apply pool_result_world in H; subst; apply Phi_refl. }
    set (jobs := j0 :: jobs') in *.
    set (i := (next_worker (trace w)
                 (Nat.min processes (List.length jobs))
               mod Nat.min processes (List.length jobs))%nat) in *.
    assert (Hj : job_inv T K (nth i jobs j0)).
    { rewrite Forall_forall in Hinv. apply Hinv.
      destruct (nth_in_or_default i jobs j0) as [Hin | ->];
        [exact Hin | now left]. }
    assert (Hpre : Forall (job_inv T K) (firstn i jobs)).
    { rewrite Forall_forall in *. intros x Hx. apply Hinv.
      eapply In_firstn; eassumption. }
    assert (Hpost : Forall (job_inv T K) (skipn (S i) jobs)).
    { rewrite Forall_forall in *. intros x Hx. apply Hinv.
      eapply In_skipn; eassumption. }
    destruct (job_step f (nth i jobs j0) w) as [w1 [e|j']] eqn:Hstep.
    + destruct (job_step_rel _ _ _ _ Hj Hstep) as [HPhi _].
      eapply Phi_trans; [exact HPhi|].
      eapply IH; [|exact H]. now apply Forall_app.
    + destruct (job_step_rel _ _ _ _ Hj Hstep) as [HPhi Hj'].
      eapply Phi_trans; [exact HPhi|].
      eapply IH; [|exact H].
      apply Forall_app. split; [exact Hpre|].
      apply Forall_app. split; [|exact Hpost].
      destruct (job_done j'); constructor; auto.
Qed.

Lemma pool_map_rel (processes : Z) (xs : list A) (w w' : world) res :
  Forall T xs -> pool_map processes f xs w = (w', res) -> Phi w w'.
Proof.
  intros HT. unfold pool_map. apply run_pool_rel.
  apply Forall_forall. intros j Hj. apply in_map_iff in Hj.
  destruct Hj as [c [<- Hc]]. split; [|exact I].
  cbn [job_rest]. apply Forall_forall. intros x Hx.
  rewrite Forall_forall in HT. apply HT.
  eapply chunks_of_incl; eassumption.
Qed.

End PoolRuns.

Section PoolEnds.
Context {E : Externals} {A : Type}.

(** Once a chunk has failed, the call raises. *)
Lemma run_pool_errors (fuel : nat) :
  forall processes (f : A -> M (M unit)) jobs errors w w' res,
    errors <> [] ->
    run_pool fuel processes f jobs errors w = (w', res) ->
    exists e, res = inl e.
Proof.
  intros processes f jobs errors w w' res Hne H.
  assert (Hend : forall errs w0 w1 r, errs <> [] ->
             pool_result errs w0 = (w1, r) -> exists e, r = inl e).
  { intros errs w0 w1 r Hn Hr. unfold pool_result in Hr.
    destruct errs; [contradiction|]. inversion Hr. eauto. }
  revert processes f jobs errors w w' res Hne H.
  induction fuel as [|fuel IH]; intros processes f jobs errors w w' res Hne H.
  - destruct jobs; cbn [run_pool] in H;
      exact (Hend _ _ _ _ Hne H).
  - destruct jobs as [|j0 jobs']; cbn [run_pool] in H.
    { exact (Hend _ _ _ _ Hne H). }
    match type of H with
    | context [job_step f ?j w] =>
        destruct (job_step f j w) as [w1 [e|j']]
    end.
    + eapply IH; [|exact H]. destruct errors; discriminate.
    + eapply IH; [|exact H]. exact Hne.
Qed.

Lemma job_done_moves (j : job A) :
  job_done j = false -> (0 < job_moves j)%nat.
Proof.
  unfold job_done, job_moves.
  destruct (job_cur j); [lia|]. destruct (job_rest j); [discriminate|].
  cbn [List.length]. lia.
Qed.

Lemma list_sum_cons (x : nat) (l : list nat) :
  list_sum (x :: l) = (x + list_sum l)%nat.
Proof. reflexivity. Qed.

(** A move that does not fail leaves one move less to the chunk. *)
Lemma job_step_moves (f : A -> M (M unit)) (j j' : job A) (w w' : world) :
  job_done j = false ->
  job_step f j w = (w', inr j') ->
  S (job_moves j') = job_moves j.
Proof.
  unfold job_done, job_step, job_moves.
  destruct (job_cur j) as [[x k]|].
  - intros _. destruct (k w) as [w1 [e|[]]]; [discriminate|].
    intros H. inversion H; subst. reflexivity.
  - destruct (job_rest j) as [|x xs]; [discriminate|]. intros _.
    destruct (f x w) as [w1 [e|k]]; [discriminate|].
    intros H. inversion H; subst. cbn [job_cur job_rest List.length]. lia.
Qed.

(** The fuel of [pool_map] is enough: the pool does not stop for want of
    it, more fuel changes nothing. *)
Lemma run_pool_fuel (f : A -> M (M unit)) (fuel : nat) :
  forall extra processes jobs errors w,
    (0 < processes)%nat ->
    Forall (fun j => job_done j = false) jobs ->
    (list_sum (map job_moves jobs) <= fuel)%nat ->
    run_pool (fuel + extra) processes f jobs errors w
    = run_pool fuel processes f jobs errors w.
Proof.
  induction fuel as [|fuel IH]; intros extra processes jobs errors w Hp Hlive Hm.
  - destruct jobs as [|j0 jobs'].
    + destruct extra; reflexivity.
    + exfalso. inversion Hlive as [|? ? Hj0 _]; subst.
      apply job_done_moves in Hj0. cbn [map] in Hm.
      rewrite list_sum_cons in Hm. lia.
  - destruct jobs as [|j0 jobs']; [reflexivity|].
    cbn [Nat.add run_pool].
    set (jobs := j0 :: jobs') in *.
    set (k := Nat.min processes (List.length jobs)).
    set (i := (next_worker (trace w) k mod k)%nat).
    assert (Hi : (i < List.length jobs)%nat).
    { assert (Hk : (0 < k)%nat) by (subst k jobs; cbn [List.length]; lia).
      pose proof (Nat.mod_upper_bound (next_worker (trace w) k) k) as Hb.
      subst i k. lia. }
    pose proof (split_at i jobs j0 Hi) as Hsplit.
    set (pre := firstn i jobs) in *.
    set (post := skipn (S i) jobs) in *.
    set (j := nth i jobs j0) in *.
    clearbody pre post j. clear Hi.
    rewrite Hsplit in Hlive, Hm.
    apply Forall_app in Hlive. destruct Hlive as [Hlpre Hlive].
    inversion Hlive as [|? ? Hlj Hlpost]; subst. clear Hlive.
    rewrite map_app, list_sum_app in Hm. cbn [map] in Hm.
    rewrite list_sum_cons in Hm.
    destruct (job_step f j w) as [w1 [e|j']] eqn:Hstep.
    + apply IH; [exact Hp | now apply Forall_app |].
      apply job_done_moves in Hlj. rewrite map_app, list_sum_app. lia.
    + pose proof (job_step_moves _ _ _ _ _ Hlj Hstep) as Hless.
      apply IH; [exact Hp | |].
      * apply Forall_app. split; [exact Hlpre|].
        apply Forall_app. split; [|exact Hlpost].
        destruct (job_done j') eqn:Hd; constructor; auto.
      * rewrite !map_app, !list_sum_app.
        destruct (job_done j'); cbn [map]; rewrite ?list_sum_cons;
          cbn [list_sum fold_right]; lia.
Qed.

(** The chunks [pool_map] starts from: none is empty, together they
    hold the tasks in order, and two moves for each task end them. *)
Lemma pool_jobs (processes : nat) (xs : list A) :
  (0 < processes)%nat ->
  let jobs := map (mkJob None)
                  (chunks_of (List.length xs)
                             (chunksize (List.length xs) processes) xs) in
  Forall (fun j => job_done j = false) jobs
  /\ list_sum (map job_moves jobs) = (2 * List.length xs)%nat
  /\ flat_map job_rest jobs = xs
  /\ flat_map job_todo jobs = xs.
Proof.
  intros Hp. cbn zeta.
  set (size := chunksize (List.length xs) processes).
  set (chunks := chunks_of (List.length xs) size xs).
  assert (Hchunks : xs = [] \/ (0 < size)%nat).
  { destruct xs as [|x xs']; [now left|]. right.
    apply chunksize_pos; [cbn; lia | exact Hp]. }
  assert (Hcat : List.concat chunks = xs).
  { destruct Hchunks as [-> | Hs]; [reflexivity|].
    now apply chunks_of_concat. }
  assert (Hne : Forall (fun c => c <> []) chunks).
  { destruct Hchunks as [-> | Hs]; [constructor|].
    now apply chunks_of_nonempty. }
  assert (Hgen : forall cs : list (list A),
            Forall (fun c => c <> []) cs ->
            Forall (fun j => job_done j = false) (map (mkJob None) cs)
            /\ list_sum (map job_moves (map (mkJob None) cs))
               = (2 * List.length (List.concat cs))%nat
            /\ flat_map job_rest (map (mkJob None) cs) = List.concat cs
            /\ flat_map job_todo (map (mkJob None) cs) = List.concat cs).
  { clear. intros cs Hne.
    induction Hne as [|c cs Hc _ [IH1 [IH2 [IH3 IH4]]]].
    - repeat split; constructor.
    - cbn [map flat_map List.concat]. rewrite list_sum_cons, IH2, IH3, IH4.
      split; [|split; [|split; reflexivity]].
      + constructor; [|exact IH1]. unfold job_done. cbn [job_cur job_rest].
        destruct c; [contradiction | reflexivity].
      + unfold job_moves. cbn [job_cur job_rest]. rewrite length_app. lia. }
  specialize (Hgen chunks Hne). rewrite Hcat in Hgen. exact Hgen.
Qed.

Lemma pool_map_fuel (processes : Z) (f : A -> M (M unit)) (xs : list A)
      (extra : nat) (w : world) :
  let p := Z.to_nat (Z.max 1 processes) in
  run_pool (2 * List.length xs + extra) p f
           (map (mkJob None)
                (chunks_of (List.length xs) (chunksize (List.length xs) p) xs))
           [] w
  = pool_map processes f xs w.
Proof.
  cbn zeta. unfold pool_map.
  assert (Hp : (0 < Z.to_nat (Z.max 1 processes))%nat) by lia.
  destruct (pool_jobs _ xs Hp) as [Hlive [Hmoves _]].
  apply run_pool_fuel; [exact Hp | exact Hlive | now rewrite Hmoves].
Qed.

End PoolEnds.

(** ** Traces of computations *)

Section Traces.
Context {E : Externals}.

Lemma reads_app (a b : list event) : reads (a ++ b) = (reads a ++ reads b)%list.
Proof. apply flat_map_app. Qed.

Lemma writes_app (a b : list event) :
  writes (a ++ b) = (writes a ++ writes b)%list.
Proof. apply flat_map_app. Qed.

Lemma emits_ret {A} (P : event -> Prop) (a : A) : emits P (ret a).
Proof.
  intros w w' res H. inversion H; subst. exists []. now rewrite app_nil_r.
Qed.

Lemma emits_raise {A} (P : event -> Prop) (e : exn) : emits P (@raise _ A e).
Proof.
  intros w w' res H. inversion H; subst. exists []. now rewrite app_nil_r.
Qed.

Lemma emits_bind {A B} (P : event -> Prop) (m : M A) (k : A -> M B) :
  emits P m -> (forall a, emits P (k a)) -> emits P (bind m k).
Proof.
  intros Hm Hk w w' res H. unfold bind in H.
  destruct (m w) as [w1 [e|a]] eqn:Hmw.
  - inversion H; subst. eapply Hm; eassumption.
  - destruct (Hm _ _ _ Hmw) as [evs1 [Ht1 HP1]].
    destruct (Hk a _ _ _ H) as [evs2 [Ht2 HP2]].
    exists (evs1 ++ evs2)%list. split.
    + now rewrite Ht2, Ht1, app_assoc.
    + apply Forall_app; auto.
Qed.

Lemma emits_weaken {A} (P Q : event -> Prop) (m : M A) :
  (forall ev, P ev -> Q ev) -> emits P m -> emits Q m.
Proof.
  intros HPQ Hm w w' res H. destruct (Hm _ _ _ H) as [evs [Ht HP]].
  exists evs. split; [assumption|]. eapply Forall_impl; eassumption.
Qed.

Lemma emits_for_each {A} (P : event -> Prop) (xs : list A) (body : A -> M unit) :
  (forall x, In x xs -> emits P (body x)) -> emits P (for_each xs body).
Proof.
  induction xs as [|x xs IH]; intros Hbody; simpl.
  - apply emits_ret.
  - apply emits_bind.
    + apply Hbody. now left.
    + intros _. apply IH. intros y Hy. apply Hbody. now right.
Qed.

Lemma emits_pool_map {A} (P : event -> Prop) (processes : Z) (xs : list A)
      (f : A -> M (M unit)) :
  (forall x, In x xs -> emits P (f x)) ->
  (forall x w w' k, In x xs -> f x w = (w', inr k) -> emits P k) ->
  emits P (pool_map processes f xs).
Proof.
  intros Hf Hk w w' res H.
  refine (pool_map_rel
            (fun w w' => exists evs, trace w' = (trace w ++ evs)%list
                                     /\ Forall P evs)
            _ _ f (fun x => In x xs) (fun _ k => emits P k) _ _
            processes xs w w' res _ H).
  - intros w0. exists []. now rewrite app_nil_r.
  - intros w1 w2 w3 [e1 [H1 F1]] [e2 [H2 F2]]. exists (e1 ++ e2)%list.
    split; [now rewrite H2, H1, app_assoc | now apply Forall_app].
  - intros x w0 w1 r Hx Hr. split; [eapply Hf; eassumption|].
    intros k ->. eapply Hk; eassumption.
  - intros x k w0 w1 r Hemit Hr. eapply Hemit; eassumption.
  - now apply Forall_forall.
Qed.

Lemma emits_try (P : event -> Prop) (m handler : M unit) :
  emits P m -> emits P handler -> emits P (try_except_OSError m handler).
Proof.
  intros Hm Hh w w' res H. unfold try_except_OSError in H.
  destruct (m w) as [w1 [e|a]] eqn:Hmw.
  - destruct (is_OSError e).
    + destruct (Hm _ _ _ Hmw) as [evs1 [Ht1 HP1]].
      destruct (Hh _ _ _ H) as [evs2 [Ht2 HP2]].
      exists (evs1 ++ evs2)%list. split.
      * now rewrite Ht2, Ht1, app_assoc.
      * apply Forall_app; auto.
    + inversion H; subst. eapply Hm; eassumption.
  - inversion H; subst. eapply Hm; eassumption.
Qed.

Lemma emits_wavread (P : event -> Prop) (p : string) :
  P (EvRead p) -> emits P (wavread p).
Proof.
  intros HP w w' res H. unfold wavread in H. exists [EvRead p].
  split; [|now constructor].
  destruct (FS.resolve (root (log (EvRead p) w)) p) as [[[xfs|]|es]|];
    inversion H; reflexivity.
Qed.

Lemma emits_wavwrite (P : event -> Prop) (p : string) (y : signal) (fs : Z) :
  P (EvWrite p fs) -> emits P (wavwrite p y fs).
Proof.
  intros HP w w' res H. unfold wavwrite in H. exists [EvWrite p fs].
  split; [|now constructor].
  destruct (FS.write_file (root (log (EvWrite p fs) w)) p (Some (y, fs)));
    inversion H; reflexivity.
Qed.

Lemma emits_os_mkdir (P : event -> Prop) (p : string) :
  P (EvMkdir p) -> emits P (os_mkdir p).
Proof.
  intros HP w w' res H. unfold os_mkdir in H. exists [EvMkdir p].
  split; [|now constructor].
  destruct (FS.mkdir (root (log (EvMkdir p) w)) p); inversion H; reflexivity.
Qed.

Lemma emits_print (P : event -> Prop) (line : string) :
  P (EvPrint line) -> emits P (print line).
Proof.
  intros HP w w' res H. inversion H; subst. exists [EvPrint line].
  split; [reflexivity | now constructor].
Qed.

Lemma emits_os_path_isdir (P : event -> Prop) (p : string) :
  emits P (os_path_isdir p).
Proof.
  intros w w' res H. inversion H; subst. exists []. now rewrite app_nil_r.
Qed.

Lemma emits_getitem (P : event -> Prop) (d : Dict.t) (k : key) :
  emits P (getitem d k).
Proof.
  unfold getitem. destruct (Dict.get k d); [apply emits_ret | apply emits_raise].
Qed.

Lemma emits_of_collaborator {A} (P : event -> Prop) (r : exn + A) :
  emits P (of_collaborator r).
Proof. destruct r; [apply emits_raise | apply emits_ret]. Qed.

Lemma emits_np_random_choice (P : event -> Prop) (a : list string) (size : Z) :
  emits P (np_random_choice a size).
Proof.
  intros w w' res H. unfold np_random_choice in H. exists [].
  split; [|constructor]. rewrite app_nil_r.
  destruct ((List.length a =? 0)%nat && negb (size =? 0)%Z);
    [now inversion H|].
  destruct (Z.of_nat (List.length a) <? size)%Z; [now inversion H|].
  destruct (size <? 0)%Z; [now inversion H|].
  destruct (permutation (gen w) (List.length a)). now inversion H.
Qed.

End Traces.

Create HintDb emits.

#[global] Hint Resolve emits_ret emits_raise emits_wavread emits_wavwrite
  emits_os_mkdir emits_print emits_os_path_isdir emits_getitem
  emits_of_collaborator emits_np_random_choice : emits.

(** ** The output path, spelled out *)





(** ** Where the output goes *)

Section OutputFiles.
Context {E : Externals}.

(** [bind] when what the first part returns is known to satisfy [Q]. *)
Lemma emits_bind_post {A B} (P : event -> Prop) (Q : A -> Prop)
      (m : M A) (k : A -> M B) :
  (forall w w' a, m w = (w', inr a) -> Q a) ->
  emits P m -> (forall a, Q a -> emits P (k a)) -> emits P (bind m k).
Proof.
  intros HQ Hm Hk w w' res H. unfold bind in H.
  destruct (m w) as [w1 [e|a]] eqn:Hmw.
  - inversion H; subst. eapply Hm; eassumption.
  - destruct (Hm _ _ _ Hmw) as [evs1 [Ht1 HP1]].
    destruct (Hk a (HQ _ _ _ Hmw) _ _ _ H) as [evs2 [Ht2 HP2]].
    exists (evs1 ++ evs2)%list. split.
    + now rewrite Ht2, Ht1, app_assoc.
    + apply Forall_app; auto.
Qed.

(** One call of the file generator that returns has read [f] and written,
    at the rate it read, the file it leaves at the output path. *)
Lemma FileGenerator_call_ok (self : FileGenerator) (f : string) (w w' : world) :
  FileGenerator_call self f w = (w', inr tt) ->
  exists x fs y,
    FS.resolve (root w) f = Some (FS.File (Some (x, fs)))
    /\ trace w'
       = (trace w
          ++ [EvRead f;
              EvWrite (output_path (fg_output_dir self) (fg_condition_name self)
                                   (fg_snr self) f) fs])%list
    /\ FS.resolve (root w')
         (output_path (fg_output_dir self) (fg_condition_name self)
                      (fg_snr self) f)
       = Some (FS.File (Some (y, fs))).
Proof.
  unfold FileGenerator_call, bind, wavread. cbn [root log].
  destruct (FS.resolve (root w) f) as [[[[x fs]|]|es]|] eqn:Hres;
    try discriminate.
  set (x' := match fg_r self with
             | Some r => of_collaborator (add_reverb x r fs (fg_speech_energy self))
             | None => ret x
             end).
  intros H.
  destruct (x' (log (EvRead f) w)) as [w1 [e|x1]] eqn:Hx'; [discriminate|].
  assert (Hw1 : w1 = log (EvRead f) w).
  { subst x'. destruct (fg_r self) as [r|].
    - destruct (add_reverb x r fs (fg_speech_energy self));
        inversion Hx'; reflexivity.
    - inversion Hx'; reflexivity. }
  subst w1.
  destruct (add_noise x1 (fg_n self) fs (fg_snr self) (fg_speech_energy self))
    as [e|[y g]]; [discriminate|].
  cbn [of_collaborator ret fst] in H.
  unfold wavwrite in H. cbn [root log] in H.
  set (p := output_path (fg_output_dir self) (fg_condition_name self)
                        (fg_snr self) f) in *.
  destruct (FS.write_file (root w) p (Some (y, fs))) as [e|r'] eqn:Hwr;
    [discriminate|].
  inversion H; subst w'. exists x, fs, y.
  split; [reflexivity|]. split.
  - cbn [trace with_root log]. now rewrite <- app_assoc.
  - cbn [root with_root]. eapply resolve_write_file. eassumption.
Qed.

Lemma FileGenerator_call_emits (self : FileGenerator) (f : string) :
  emits (fun ev =>
           match ev with
           | EvRead _ => True
           | EvWrite p _ =>
               p = output_path (fg_output_dir self) (fg_condition_name self)
                               (fg_snr self) f
           | _ => False
           end)
        (FileGenerator_call self f).
Proof.
  unfold FileGenerator_call.
  apply emits_bind; [now apply emits_wavread|]. intros [x fs].
  apply emits_bind.
  { destruct (fg_r self); auto with emits. }
  intros x1. apply emits_bind; [auto with emits|]. intros yg.
  now apply emits_wavwrite.
Qed.

(** The first half of the call for the pool: it reads [f], and when it
    returns, [f] held a waveform and what is left is the write at the
    output path of [f], at the rate that was read. *)
Lemma FileGenerator_phases_inv (self : FileGenerator) (f : string)
      (w w' : world) (res : exn + M unit) :
  FileGenerator_phases self f w = (w', res) ->
  w' = log (EvRead f) w
  /\ forall k, res = inr k ->
       exists x fs y,
         FS.resolve (root w) f = Some (FS.File (Some (x, fs)))
         /\ k = wavwrite (output_path (fg_output_dir self)
                            (fg_condition_name self) (fg_snr self) f) y fs.
Proof.
  unfold FileGenerator_phases, bind, wavread. cbn [root log].
  destruct (FS.resolve (root w) f) as [[[[x fs]|]|es]|] eqn:Hres;
    try (intros H; inversion H; subst; split; [reflexivity | discriminate]).
  set (x' := match fg_r self with
             | Some r => of_collaborator (add_reverb x r fs (fg_speech_energy self))
             | None => ret x
             end).
  assert (Hx' : forall w0, fst (x' w0) = w0).
  { intros w0. subst x'. destruct (fg_r self) as [r|]; [|reflexivity].
    destruct (add_reverb x r fs (fg_speech_energy self)); reflexivity. }
  specialize (Hx' (log (EvRead f) w)).
  destruct (x' (log (EvRead f) w)) as [w1 [e1|x1]]; cbn [fst] in Hx'; subst w1.
  - intros H. inversion H; subst. split; [reflexivity | discriminate].
  - destruct (add_noise x1 (fg_n self) fs (fg_snr self) (fg_speech_energy self))
      as [e2|[y g]]; cbn [of_collaborator ret raise fst];
      intros H; inversion H; subst; (split; [reflexivity|]).
    + discriminate.
    + intros k Hk. inversion Hk; subst. exists x, fs, y. auto.
Qed.

(** The call is its two halves, one after the other. *)
Lemma FileGenerator_call_phases (self : FileGenerator) (f : string) (w : world) :
  FileGenerator_call self f w
  = bind (FileGenerator_phases self f) (fun k => k) w.
Proof.
  unfold FileGenerator_call, FileGenerator_phases, bind.
  destruct (wavread f w) as [w1 [e|[x fs]]]; [reflexivity|].
  destruct (match fg_r self with
            | Some r => of_collaborator (add_reverb x r fs (fg_speech_energy self))
            | None => ret x
            end w1) as [w2 [e|x1]]; [reflexivity|].
  destruct (of_collaborator
              (add_noise x1 (fg_n self) fs (fg_snr self) (fg_speech_energy self))
              w2) as [w3 [e|yg]]; reflexivity.
Qed.

Lemma FileGenerator_phases_emits (P : event -> Prop) (self : FileGenerator)
      (f : string) :
  P (EvRead f) -> emits P (FileGenerator_phases self f).
Proof.
  intros HP w w' res H. apply FileGenerator_phases_inv in H.
  destruct H as [-> _]. exists [EvRead f]. split; [reflexivity|].
  now constructor.
Qed.

(** The pool at work for the file generator adds only events that the
    calls of the generator may add. *)
Lemma emits_pool_FileGenerator (P : event -> Prop) (processes : Z)
      (self : FileGenerator) (files : list string) :
  (forall f, In f files ->
     P (EvRead f)
     /\ forall fs, P (EvWrite (output_path (fg_output_dir self)
                                 (fg_condition_name self) (fg_snr self) f) fs)) ->
  emits P (pool_map processes (FileGenerator_phases self) files).
Proof.
  intros HP. apply emits_pool_map.
  - intros f Hf. apply FileGenerator_phases_emits. now apply HP.
  - intros f w w' k Hf H. apply FileGenerator_phases_inv in H.
    destruct H as [_ H]. destruct (H k eq_refl) as [x [fs [y [_ ->]]]].
    apply emits_wavwrite. now apply HP.
Qed.

(** The sample is made of registered files. *)
Lemma np_random_choice_incl (a : list string) (size : Z) (w w' : world)
      (l : list string) :
  np_random_choice a size w = (w', inr l) -> incl l a.
Proof.
  unfold np_random_choice.
  destruct ((List.length a =? 0)%nat && negb (size =? 0)%Z); [discriminate|].
  destruct (Z.of_nat (List.length a) <? size)%Z; [discriminate|].
  destruct (size <? 0)%Z; [discriminate|].
  pose proof (permutation_perm (gen w) (List.length a)) as Hperm.
  destruct (permutation (gen w) (List.length a)) as [idx g]. cbn [fst] in Hperm.
  intros H. inversion H; subst. intros f Hf.
  apply in_map_iff in Hf. destruct Hf as [i [Hi Hin]]. subst f.
  apply In_firstn in Hin.
  apply (Permutation_in _ Hperm) in Hin. apply in_seq in Hin.
  apply nth_In. lia.
Qed.

Lemma load_reverb_name (self : Dataset) (reverb_name : option key)
      (noise_name : key) (w w' : world) (r : option signal) (cn : key) :
  load_reverb self reverb_name noise_name w = (w', inr (r, cn)) ->
  cn = condition_name_of reverb_name noise_name.
Proof.
  unfold load_reverb. destruct reverb_name as [rv|].
  - unfold bind, getitem.
    destruct (Dict.get rv (reverb self)) as [p|]; [|discriminate].
    cbn [ret].
    destruct (wavread p w) as [w1 [e|[r0 rfs]]]; [discriminate|].
    intros H. now inversion H.
  - intros H. now inversion H.
Qed.

Lemma load_reverb_emits (P : event -> Prop) (self : Dataset)
      (reverb_name : option key) (noise_name : key) :
  (forall p, P (EvRead p)) ->
  emits P (load_reverb self reverb_name noise_name).
Proof.
  intros HP. unfold load_reverb. destruct reverb_name as [rv|]; [|auto with emits].
  apply emits_bind; [auto with emits|]. intros p.
  apply emits_bind; [auto with emits|]. intros [r rfs]. auto with emits.
Qed.

Lemma make_condition_folders_emits (P : event -> Prop) (output_dir : string)
      (condition_name : key) (snrs : list pyval) :
  (forall p, P (EvMkdir p)) -> (forall l, P (EvPrint l)) ->
  emits P (make_condition_folders output_dir condition_name snrs).
Proof.
  intros Hm Hp. unfold make_condition_folders.
  apply emits_try; [|auto with emits].
  apply emits_for_each. intros snr _. auto with emits.
Qed.


(** The events of one SNR: reads, and writes at the output paths of
    registered speech files for that SNR. *)
Lemma generate_snr_emits_at (P : event -> Prop) (self : Dataset) (n : signal)
      (r : option signal) (output_dir : string) (condition_name : key)
      (files_per_condition : option Z) (pool : option Z) (snr : pyval) :
  (forall f, P (EvRead f)) ->
  (forall f fs, In f (speech self) ->
     P (EvWrite (output_path output_dir condition_name snr f) fs)) ->
  emits P (generate_snr self n r output_dir condition_name files_per_condition
                        pool snr).
Proof.
  intros Hr Hw. unfold generate_snr.
  apply emits_bind_post with (Q := fun l => incl l (speech self)).
  - destruct files_per_condition as [m|].
    + intros w w' a. apply np_random_choice_incl.
    + intros w w' a H. inversion H; subst. apply incl_refl.
  - destruct files_per_condition; auto with emits.
  - intros files Hincl. destruct pool as [processes|].
    + apply emits_pool_FileGenerator. intros f Hf. cbn.
      split; [apply Hr|]. intros fs. apply Hw. now apply Hincl.
    + apply emits_for_each. intros f Hf.
      eapply emits_weaken; [|apply FileGenerator_call_emits].
      intros [p|p fs|p|l]; cbn; try contradiction.
      * intros _. apply Hr.
      * intros ->. apply Hw. now apply Hincl.
Qed.


End OutputFiles.


(** ** The trace of a loop over files that returns *)

Section SuccessTrace.
Context {E : Externals}.

Lemma mkdirs_app (a b : list event) :
  mkdirs (a ++ b) = (mkdirs a ++ mkdirs b)%list.
Proof. apply flat_map_app. Qed.

Lemma quiet_events (evs : list event) :
  Forall quiet evs -> reads evs = [] /\ writes evs = [].
Proof.
  induction 1 as [|ev evs Hev _ [IHr IHw]]; [split; reflexivity|].
  destruct ev; try contradiction; cbn; auto.
Qed.

Lemma written_paths_app (a b : list event) :
  map fst (writes (a ++ b)) = (map fst (writes a) ++ map fst (writes b))%list.
Proof. now rewrite writes_app, map_app. Qed.

Lemma wavread_world (p : string) (w w' : world) (res : exn + signal * Z) :
  wavread p w = (w', res) -> w' = log (EvRead p) w.
Proof.
  unfold wavread. cbn [root log].
  destruct (FS.resolve (root w) p) as [[[xfs|]|es]|];
    intros H; inversion H; reflexivity.
Qed.

Lemma wavwrite_trace (p : string) (y : signal) (fs : Z) (w w' : world)
      (res : exn + unit) :
  wavwrite p y fs w = (w', res) ->
  trace w' = (trace w ++ [EvWrite p fs])%list.
Proof.
  unfold wavwrite. cbn [root log].
  destruct (FS.write_file (root w) p (Some (y, fs)));
    intros H; inversion H; reflexivity.
Qed.

(** The sequential loop that returns has read and written for every
    file, in order. *)
Lemma for_each_success (fg : FileGenerator) (files : list string) :
  forall w w',
    for_each files (FileGenerator_call fg) w = (w', inr tt) ->
    reads (trace w') = (reads (trace w) ++ files)%list
    /\ map fst (writes (trace w'))
       = (map fst (writes (trace w))
          ++ map (output_path (fg_output_dir fg) (fg_condition_name fg)
                              (fg_snr fg)) files)%list.
Proof.
  induction files as [|f files IH]; intros w w' H; cbn [for_each] in H.
  - inversion H; subst. cbn. now rewrite !app_nil_r.
  - unfold bind in H.
    destruct (FileGenerator_call fg f w) as [w1 [e|[]]] eqn:Hcall;
      [discriminate|].
    destruct (IH _ _ H) as [Hr Hw].
    destruct (FileGenerator_call_ok _ _ _ _ Hcall) as [x [fs [y [_ [Ht _]]]]].
    rewrite Hr, Hw, Ht, reads_app, written_paths_app.
    cbn. rewrite <- !app_assoc. split; reflexivity.
Qed.

(** The pool that returns has read every file of its chunks once, and
    written once for each of them and for the files under way. *)
Lemma run_pool_success (fg : FileGenerator) (fuel : nat) :
  forall processes jobs errors w w',
    (0 < processes)%nat ->
    Forall (fun j => job_done j = false) jobs ->
    Forall (job_inv (fun _ => True) (writes_output fg)) jobs ->
    (list_sum (map job_moves jobs) <= fuel)%nat ->
    run_pool fuel processes (FileGenerator_phases fg) jobs errors w
    = (w', inr tt) ->
    exists rs ds,
      reads (trace w') = (reads (trace w) ++ rs)%list
      /\ Permutation rs (flat_map job_rest jobs)
      /\ map fst (writes (trace w'))
         = (map fst (writes (trace w))
            ++ map (output_path (fg_output_dir fg) (fg_condition_name fg)
                                (fg_snr fg)) ds)%list
      /\ Permutation ds (flat_map job_todo jobs).
Proof.
  set (outp := output_path (fg_output_dir fg) (fg_condition_name fg)
                           (fg_snr fg)).
  assert (Hnil : forall errors w w',
            pool_result errors w = (w', inr tt) ->
            exists rs ds : list string,
              reads (trace w') = (reads (trace w) ++ rs)%list
              /\ Permutation rs []
              /\ map fst (writes (trace w'))
                 = (map fst (writes (trace w)) ++ map outp ds)%list
              /\ Permutation ds []).
  { intros errors w w' H. apply pool_result_world in H. subst w'.
    exists [], []. cbn. rewrite !app_nil_r. repeat split; constructor. }
  induction fuel as [|fuel IH];
    intros processes jobs errors w w' Hp Hlive Hinv Hfuel H.
  - destruct jobs as [|j0 jobs']; cbn [run_pool] in H;
      [exact (Hnil _ _ _ H)|].
    exfalso. inversion Hlive as [|? ? Hj0 _]; subst.
    apply job_done_moves in Hj0. cbn [map] in Hfuel.
    rewrite list_sum_cons in Hfuel. lia.
  - destruct jobs as [|j0 jobs'];
      [cbn [run_pool] in H; exact (Hnil _ _ _ H)|].
    cbn [run_pool] in H.
    set (jobs := j0 :: jobs') in *.
    set (k := Nat.min processes (List.length jobs)) in *.
    set (i := (next_worker (trace w) k mod k)%nat) in *.
    assert (Hi : (i < List.length jobs)%nat).
    { assert (Hk : (0 < k)%nat) by (subst k jobs; cbn [List.length]; lia).
      pose proof (Nat.mod_upper_bound (next_worker (trace w) k) k) as Hb.
      subst i. subst k. lia. }
    pose proof (split_at i jobs j0 Hi) as Hsplit.
    set (pre := firstn i jobs) in *.
    set (post := skipn (S i) jobs) in *.
    set (j := nth i jobs j0) in *.
    clearbody pre post j. clear Hi.
    rewrite Hsplit in Hlive, Hinv, Hfuel. rewrite Hsplit.
    apply Forall_app in Hlive. destruct Hlive as [Hlpre Hlive].
    inversion Hlive as [|? ? Hlj Hlpost]; subst. clear Hlive.
    apply Forall_app in Hinv. destruct Hinv as [Hipre Hinv].
    inversion Hinv as [|? ? Hij Hipost]; subst. clear Hinv.
    rewrite map_app, list_sum_app in Hfuel. cbn [map] in Hfuel.
    rewrite list_sum_cons in Hfuel.
    rewrite !flat_map_app. cbn [flat_map].
    destruct (job_step (FileGenerator_phases fg) j w) as [w1 [e|j']] eqn:Hstep.
    { apply run_pool_errors in H; [|destruct errors; discriminate].
      destruct H as [e' He']. discriminate. }
    assert (Hrec : forall mid : list (job string),
              Forall (fun j => job_done j = false) mid ->
              Forall (job_inv (fun _ => True) (writes_output fg)) mid ->
              (list_sum (map job_moves mid) < job_moves j)%nat ->
              run_pool fuel processes (FileGenerator_phases fg)
                       (pre ++ mid ++ post) errors w1 = (w', inr tt) ->
              exists rs ds,
                reads (trace w') = (reads (trace w1) ++ rs)%list
                /\ Permutation rs (flat_map job_rest pre ++ flat_map job_rest mid
                                   ++ flat_map job_rest post)
                /\ map fst (writes (trace w'))
                   = (map fst (writes (trace w1)) ++ map outp ds)%list
                /\ Permutation ds (flat_map job_todo pre ++ flat_map job_todo mid
                                   ++ flat_map job_todo post)).
    { intros mid Hl Hv Hm Hrun.
      destruct (IH processes (pre ++ mid ++ post)%list errors w1 w' Hp)
        as [rs [ds [H1 [H2 [H3 H4]]]]]; auto.
      - apply Forall_app. split; [exact Hlpre|].
        apply Forall_app. split; assumption.
      - apply Forall_app. split; [exact Hipre|].
        apply Forall_app. split; assumption.
      - rewrite !map_app, !list_sum_app. lia.
      - exists rs, ds. rewrite !flat_map_app in H2, H4. auto. }
    unfold job_step in Hstep. destruct Hij as [_ Hcur].
    destruct (job_cur j) as [[x kk]|] eqn:Hc.
    + (* the write of the file under way *)
      destruct Hcur as [y [fs ->]].
      destruct (wavwrite (output_path (fg_output_dir fg) (fg_condition_name fg)
                                      (fg_snr fg) x) y fs w)
        as [w2 [e|[]]] eqn:Hwr; [discriminate|].
      injection Hstep as Hw Hj. subst w1 j'.
      apply wavwrite_trace in Hwr.
      destruct (Hrec (if job_done (mkJob None (job_rest j)) then []
                      else [mkJob None (job_rest j)]))
        as [rs [ds [H1 [H2 [H3 H4]]]]].
      * destruct (job_done (mkJob None (job_rest j))) eqn:Hd;
          constructor; auto.
      * destruct (job_done (mkJob None (job_rest j)));
          constructor; [|constructor].
        split; [cbn [job_rest]; now apply Forall_forall | exact I].
      * unfold job_moves at 2. rewrite Hc.
        destruct (job_done (mkJob None (job_rest j))); cbn; lia.
      * exact H.
      * assert (Hmid : forall g : job string -> list string,
                  g (mkJob None (job_rest j)) = job_rest j ->
                  flat_map g (if job_done (mkJob None (job_rest j)) then []
                              else [mkJob None (job_rest j)])
                  = job_rest j).
        { intros g Hg. unfold job_done. cbn [job_cur job_rest].
          destruct (job_rest j) eqn:Hr; cbn [flat_map];
            [reflexivity | now rewrite Hg, app_nil_r]. }
        rewrite Hmid in H2 by reflexivity.
        rewrite Hmid in H4 by reflexivity.
        exists rs, (x :: ds). split; [|split; [|split]].
        -- rewrite H1, Hwr, reads_app. cbn. now rewrite app_nil_r.
        -- exact H2.
        -- rewrite H3, Hwr, written_paths_app. cbn.
           now rewrite <- app_assoc.
        -- unfold job_todo at 2. rewrite Hc.
           eapply Permutation_trans;
             [apply perm_skip; exact H4 | apply Permutation_middle].
    + (* the read of the next file *)
      destruct (job_rest j) as [|x xs] eqn:Hr.
      { unfold job_done in Hlj. rewrite Hc, Hr in Hlj. discriminate. }
      destruct (FileGenerator_phases fg x w) as [w2 [e|kk]] eqn:Hph;
        [discriminate|].
      injection Hstep as Hw Hj. subst w1 j'.
      apply FileGenerator_phases_inv in Hph. destruct Hph as [-> Hk].
      destruct (Hk kk eq_refl) as [x0 [fs [y [_ Hkk]]]].
      destruct (Hrec [mkJob (Some (x, kk)) xs])
        as [rs [ds [H1 [H2 [H3 H4]]]]].
      * constructor; [reflexivity | constructor].
      * constructor; [|constructor]. split.
        -- cbn [job_rest]. now apply Forall_forall.
        -- cbn [job_cur]. exists y, fs. exact Hkk.
      * unfold job_moves. rewrite Hc, Hr. cbn. lia.
      * exact H.
      * cbn [flat_map job_rest job_todo job_cur] in H2, H4.
        rewrite app_nil_r in H2, H4.
        exists (x :: rs), ds. split; [|split; [|split]].
        -- rewrite H1. cbn [trace log]. rewrite reads_app. cbn.
           now rewrite <- app_assoc.
        -- eapply Permutation_trans;
             [apply perm_skip; exact H2 | apply Permutation_middle].
        -- rewrite H3. cbn [trace log]. rewrite written_paths_app. cbn.
           now rewrite app_nil_r.
        -- unfold job_todo at 2. rewrite Hc, Hr. exact H4.
Qed.

Lemma pool_map_success (fg : FileGenerator) (processes : Z)
      (files : list string) (w w' : world) :
  pool_map processes (FileGenerator_phases fg) files w = (w', inr tt) ->
  exists rs ds,
    reads (trace w') = (reads (trace w) ++ rs)%list
    /\ Permutation rs files
    /\ map fst (writes (trace w'))
       = (map fst (writes (trace w))
          ++ map (output_path (fg_output_dir fg) (fg_condition_name fg)
                              (fg_snr fg)) ds)%list
    /\ Permutation ds files.
Proof.
  unfold pool_map.
  assert (Hp : (0 < Z.to_nat (Z.max 1 processes))%nat) by lia.
  destruct (pool_jobs _ files Hp) as [Hlive [Hmoves [Hrest Htodo]]].
  intros H.
  destruct (fun H2 H3 => run_pool_success fg _ _ _ _ _ _ Hp Hlive H2 H3 H)
    as [rs [ds [H1 [H2 [H3 H4]]]]].
  - apply Forall_forall. intros j Hj. apply in_map_iff in Hj.
    destruct Hj as [c [<- _]]. split; [now apply Forall_forall | exact I].
  - now rewrite Hmoves.
  - rewrite Hrest in H2. rewrite Htodo in H4. exists rs, ds. auto.
Qed.

(** The loop over the files of one SNR, run to its end without a
    failure: every file was read once and written for once, in the order
    of the list when there is no pool. *)
Lemma files_loop_success (fg : FileGenerator) (pool : option Z)
      (files : list string) (w w' : world) :
  match pool with
  | Some processes => pool_map processes (FileGenerator_phases fg) files
  | None => for_each files (FileGenerator_call fg)
  end w = (w', inr tt) ->
  exists rs ds,
    in_order pool rs files /\ in_order pool ds files
    /\ reads (trace w') = (reads (trace w) ++ rs)%list
    /\ map fst (writes (trace w'))
       = (map fst (writes (trace w))
          ++ map (output_path (fg_output_dir fg) (fg_condition_name fg)
                              (fg_snr fg)) ds)%list.
Proof.
  destruct pool as [processes|]; intros H.
  - destruct (pool_map_success _ _ _ _ _ H) as [rs [ds [H1 [H2 [H3 H4]]]]].
    exists rs, ds. cbn [in_order]. auto.
  - destruct (for_each_success _ _ _ _ H) as [H1 H2].
    exists files, files. cbn [in_order]. auto.
Qed.

End SuccessTrace.

(** ** The speech files of one SNR *)

Section Sampling.
Context {E : Externals}.

Lemma NoDup_firstn {A} (n : nat) (l : list A) : NoDup l -> NoDup (firstn n l).
Proof.
  intros H. rewrite <- (firstn_skipn n l) in H.
  eapply NoDup_app_remove_r. eassumption.
Qed.

(** Entries taken at different places of a list without repeats are
    different. *)
Lemma sample_of_NoDup (a : list string) (m : nat) (l : list string) :
  NoDup a -> sample_of a m l -> NoDup l.
Proof.
  intros Ha [idx [-> [_ [Hnd Hlt]]]].
  induction idx as [|i idx IH]; simpl; [constructor|].
  inversion Hnd as [|? ? Hnotin Hnd']; subst.
  inversion Hlt as [|? ? Hi Hlt']; subst.
  constructor; [|auto].
  intros Hin. apply in_map_iff in Hin. destruct Hin as [j [Hj Hjin]].
  assert (j = i).
  { rewrite Forall_forall in Hlt'.
    eapply (proj1 (NoDup_nth a EmptyString) Ha); auto. }
  subst j. contradiction.
Qed.

Lemma sample_of_length (a : list string) (m : nat) (l : list string) :
  sample_of a m l -> List.length l = m.
Proof. intros [idx [-> [Hlen _]]]. now rewrite length_map. Qed.

(** A sample no larger than the population is drawn, and the draw changes
    nothing but the state of the generator. *)
Lemma np_random_choice_ok (a : list string) (size : Z) (w : world) :
  (0 <= size <= Z.of_nat (List.length a))%Z ->
  exists l g,
    np_random_choice a size w = (mkWorld (root w) (trace w) g, inr l)
    /\ sample_of a (Z.to_nat size) l.
Proof.
  intros [Hlo Hhi]. unfold np_random_choice.
  assert (H1 : (List.length a =? 0)%nat && negb (size =? 0)%Z = false).
  { destruct (Nat.eqb_spec (List.length a) 0) as [Hz|]; [|reflexivity].
    destruct (Z.eqb_spec size 0); [reflexivity | lia]. }
  rewrite H1.
  destruct (Z.ltb_spec (Z.of_nat (List.length a)) size); [lia|].
  destruct (Z.ltb_spec size 0); [lia|].
  pose proof (permutation_perm (gen w) (List.length a)) as Hperm.
  destruct (permutation (gen w) (List.length a)) as [idx g]. cbn [fst] in Hperm.
  exists (map (fun i => nth i a EmptyString) (firstn (Z.to_nat size) idx)), g.
  split; [reflexivity|].
  exists (firstn (Z.to_nat size) idx). split; [reflexivity|].
  split; [|split].
  - rewrite length_firstn, (Permutation_length Hperm), length_seq. lia.
  - apply NoDup_firstn.
    eapply Permutation_NoDup; [apply Permutation_sym; eassumption|].
    apply seq_NoDup.
  - apply Forall_forall. intros i Hi. apply In_firstn in Hi.
    apply (Permutation_in _ Hperm) in Hi. apply in_seq in Hi. lia.
Qed.

(** A sample larger than the population is refused before anything is
    drawn. *)
Lemma np_random_choice_too_many (a : list string) (size : Z) (w : world) :
  (Z.of_nat (List.length a) < size)%Z ->
  exists msg, np_random_choice a size w = (w, inl (ValueError msg)).
Proof.
  intros H. unfold np_random_choice.
  destruct ((List.length a =? 0)%nat && negb (size =? 0)%Z); [eauto|].
  destruct (Z.ltb_spec (Z.of_nat (List.length a)) size); [eauto | lia].
Qed.

(** A call of the file generator reads its file once, and only it. *)
Lemma FileGenerator_call_reads (self : FileGenerator) (f : string)
      (w w' : world) (res : exn + unit) :
  FileGenerator_call self f w = (w', res) ->
  reads (trace w') = (reads (trace w) ++ [f])%list.
Proof.
  unfold FileGenerator_call, bind, wavread. cbn [root log].
  assert (Hlog : reads (trace (log (EvRead f) w)) = (reads (trace w) ++ [f])%list).
  { cbn [trace log]. now rewrite reads_app. }
  destruct (FS.resolve (root w) f) as [[[[x fs]|]|es]|];
    try (intros H; inversion H; subst; exact Hlog).
  set (x' := match fg_r self with
             | Some r => of_collaborator (add_reverb x r fs (fg_speech_energy self))
             | None => ret x
             end).
  destruct (x' (log (EvRead f) w)) as [w1 [e|x1]] eqn:Hx'.
  - intros H. inversion H; subst.
    subst x'. destruct (fg_r self) as [r|].
    + destruct (add_reverb x r fs (fg_speech_energy self));
        inversion Hx'; subst; exact Hlog.
    + inversion Hx'.
  - assert (Hw1 : w1 = log (EvRead f) w).
    { subst x'. destruct (fg_r self) as [r|].
      - destruct (add_reverb x r fs (fg_speech_energy self));
          inversion Hx'; reflexivity.
      - inversion Hx'; reflexivity. }
    subst w1.
    destruct (add_noise x1 (fg_n self) fs (fg_snr self) (fg_speech_energy self))
      as [e|[y g]].
    + intros H. inversion H; subst. exact Hlog.
    + cbn [of_collaborator ret fst]. unfold wavwrite. cbn [root log].
      destruct (FS.write_file (root w) _ (Some (y, fs)));
        intros H; inversion H; subst; cbn [trace with_root log];
        rewrite !reads_app; cbn; now rewrite app_nil_r.
Qed.

Lemma fails_bind_l {A B} (m : M A) (k : A -> M B) : fails m -> fails (bind m k).
Proof.
  intros Hm w. destruct (Hm w) as [e He]. exists e. unfold bind.
  destruct (m w) as [w1 [e1|a]]; cbn in *; congruence.
Qed.

Lemma fails_bind_r {A B} (m : M A) (k : A -> M B) :
  (forall a, fails (k a)) -> fails (bind m k).
Proof.
  intros Hk w. unfold bind. destruct (m w) as [w1 [e1|a]].
  - now exists e1.
  - apply Hk.
Qed.

End Sampling.

Section RunsThatReturn.
Context {E : Externals}.

Lemma in_order_perm (pool : option Z) (done files : list string) :
  in_order pool done files -> Permutation done files.
Proof. destruct pool; cbn; [auto | intros ->; apply Permutation_refl]. Qed.

(** A sample gone through in another order is a sample. *)
Lemma sample_of_perm (a : list string) (m : nat) (l l' : list string) :
  Permutation l' l -> sample_of a m l -> sample_of a m l'.
Proof.
  intros Hperm [idx [-> [Hlen [Hnd Hlt]]]].
  apply Permutation_map_inv in Hperm. destruct Hperm as [idx' [-> Hp]].
  exists idx'. split; [reflexivity|]. split; [|split].
  - now rewrite <- (Permutation_length Hp).
  - eapply Permutation_NoDup; eassumption.
  - eapply Permutation_Forall; eassumption.
Qed.

(** A draw that returns gave a sample, and touched neither the disk nor
    the trace. *)
Lemma np_random_choice_sample (a : list string) (size : Z) (w w' : world)
      (l : list string) :
  np_random_choice a size w = (w', inr l) ->
  sample_of a (Z.to_nat size) l /\ trace w' = trace w /\ root w' = root w.
Proof.
  intros H.
  assert (Hm : (0 <= size <= Z.of_nat (List.length a))%Z).
  { unfold np_random_choice in H.
    destruct ((List.length a =? 0)%nat && negb (size =? 0)%Z); [discriminate|].
    destruct (Z.ltb_spec (Z.of_nat (List.length a)) size); [discriminate|].
    destruct (Z.ltb_spec size 0); [discriminate | lia]. }
  destruct (np_random_choice_ok a size w Hm) as [l' [g [Hc Hs]]].
  rewrite Hc in H. inversion H; subst. auto.
Qed.

Lemma generate_snr_events (P : event -> Prop) (self : Dataset) (n : signal)
      (r : option signal) (output_dir : string) (condition_name : key)
      (files_per_condition : option Z) (pool : option Z) (snr : pyval) :
  (forall f, P (EvRead f)) -> (forall f fs, P (EvWrite f fs)) ->
  emits P (generate_snr self n r output_dir condition_name
                        files_per_condition pool snr).
Proof.
  intros Hr Hw. unfold generate_snr.
  apply emits_bind; [destruct files_per_condition; auto with emits|].
  intros files. destruct pool as [processes|].
  - apply emits_pool_FileGenerator. auto.
  - apply emits_for_each. intros f _.
    eapply emits_weaken; [|apply FileGenerator_call_emits].
    intros [p|p fs|p|l]; cbn; auto; contradiction.
Qed.

(** One SNR that went through: the files chosen for it were read, each
    once, and written for, each once. *)
Lemma generate_snr_success (self : Dataset) (n : signal) (r : option signal)
      (output_dir : string) (cn : key) (files_per_condition : option Z)
      (pool : option Z) (snr : pyval) (w w' : world) :
  generate_snr self n r output_dir cn files_per_condition pool snr w
  = (w', inr tt) ->
  exists files rs ds,
    chosen self files_per_condition files
    /\ in_order pool rs files /\ in_order pool ds files
    /\ reads (trace w') = (reads (trace w) ++ rs)%list
    /\ map fst (writes (trace w'))
       = (map fst (writes (trace w))
          ++ map (output_path output_dir cn snr) ds)%list.
Proof.
  unfold generate_snr. unfold bind at 1.
  set (fg := mkFileGenerator n r snr output_dir cn (speech_energy self)).
  destruct files_per_condition as [m|].
  - destruct (np_random_choice (speech self) m w) as [w1 [e|files]] eqn:Hc;
      [discriminate|].
    intros H. apply np_random_choice_sample in Hc.
    destruct Hc as [Hs [Ht _]].
    destruct (files_loop_success fg pool files _ _ H)
      as [rs [ds [H1 [H2 [H3 H4]]]]].
    exists files, rs, ds. rewrite Ht in H3, H4. cbn [chosen]. auto.
  - cbn [ret]. intros H.
    destruct (files_loop_success fg pool (speech self) _ _ H)
      as [rs [ds [H1 [H2 [H3 H4]]]]].
    exists (speech self), rs, ds. cbn [chosen]. auto.
Qed.

Lemma snr_loop_success (self : Dataset) (n : signal) (r : option signal)
      (output_dir : string) (cn : key) (files_per_condition : option Z)
      (pool : option Z) (snrs : list pyval) : forall w w',
  for_each snrs (generate_snr self n r output_dir cn files_per_condition pool)
           w = (w', inr tt) ->
  exists rss wss,
    snr_runs self output_dir cn files_per_condition pool snrs rss wss
    /\ reads (trace w') = (reads (trace w) ++ List.concat rss)%list
    /\ map fst (writes (trace w'))
       = (map fst (writes (trace w)) ++ List.concat wss)%list.
Proof.
  induction snrs as [|snr snrs IH]; intros w w' H; cbn [for_each] in H.
  - inversion H; subst. exists [], []. cbn. rewrite !app_nil_r.
    split; [constructor | split; reflexivity].
  - unfold bind in H.
    destruct (generate_snr self n r output_dir cn files_per_condition pool
                           snr w) as [w1 [e|[]]] eqn:Hsnr; [discriminate|].
    destruct (generate_snr_success _ _ _ _ _ _ _ _ _ _ Hsnr)
      as [files [rs [ds [Hch [Hrs [Hds [Hr1 Hw1]]]]]]].
    destruct (IH _ _ H) as [rss [wss [Hruns [Hr Hw]]]].
    exists (rs :: rss), (map (output_path output_dir cn snr) ds :: wss).
    split; [econstructor; eassumption|].
    cbn [List.concat]. rewrite Hr, Hw, Hr1, Hw1, <- !app_assoc.
    split; reflexivity.
Qed.

(** What the steps before the loop over the SNRs leave, when they all
    return: the trace of the reads of the sources and of the calls of
    [os.mkdir], the disk but for the folders made. *)
Lemma generate_condition_success
      (self : Dataset) (snrs : pyval) (noise_name : key)
      (output_dir : string) (reverb_name : option key)
      (files_per_condition : option Z) (pool : option Z) (w w' : world) :
  generate_condition self snrs noise_name output_dir reverb_name
                     files_per_condition pool w
  = (w', inr tt) ->
  exists p rss wss tried,
    Dict.get noise_name (noise self) = Some p
    /\ reads (trace w')
       = (reads (trace w) ++ p :: reverb_path self reverb_name
          ++ List.concat rss)%list
    /\ map fst (writes (trace w'))
       = (map fst (writes (trace w)) ++ List.concat wss)%list
    /\ snr_runs self output_dir (condition_name_of reverb_name noise_name)
                files_per_condition pool (snr_list snrs) rss wss
    /\ mkdirs (trace w')
       = (mkdirs (trace w)
          ++ (if FS.isdir (root w) output_dir then [] else [output_dir])
          ++ tried)%list
    /\ (tried = folder_paths output_dir
                  (condition_name_of reverb_name noise_name) (snr_list snrs)
        \/ exists pre q rest,
             folder_paths output_dir
               (condition_name_of reverb_name noise_name) (snr_list snrs)
             = (pre ++ q :: rest)%list
             /\ tried = (pre ++ [q])%list).
Proof.
  unfold generate_condition.
  destruct (negb (Dict.mem noise_name (noise self))); [discriminate|].
  unfold bind at 1. unfold getitem at 1.
  destruct (Dict.get noise_name (noise self)) as [p|]; [|discriminate].
  cbn [ret]. intros H. exists p.
  unfold bind at 1 in H.
  destruct (wavread p w) as [w1 [e|[n nfs]]] eqn:Hread; [discriminate|].
  apply wavread_world in Hread. subst w1.
  unfold bind at 1 in H.
  destruct (load_reverb self reverb_name noise_name (log (EvRead p) w))
    as [w2 [e|[r cn]]] eqn:Hrev; [discriminate|].
  pose proof (load_reverb_name _ _ _ _ _ _ _ Hrev) as Hcn. subst cn.
  set (cn := condition_name_of reverb_name noise_name) in *.
  assert (Hw2 : reads (trace w2)
                = (reads (trace w) ++ p :: reverb_path self reverb_name)%list
                /\ writes (trace w2) = writes (trace w)
                /\ mkdirs (trace w2) = mkdirs (trace w)
                /\ root w2 = root w).
  { unfold load_reverb, reverb_path in *. destruct reverb_name as [rv|].
    - unfold bind, getitem in Hrev.
      destruct (Dict.get rv (reverb self)) as [rp|]; [|discriminate].
      cbn [ret] in Hrev.
      destruct (wavread rp (log (EvRead p) w)) as [w3 [e|[r0 rfs]]] eqn:Hr3;
        [discriminate|].
      apply wavread_world in Hr3. inversion Hrev; subst.
      cbn [trace log root]. rewrite !reads_app, !writes_app, !mkdirs_app. cbn.
      rewrite !app_nil_r, <- app_assoc. repeat split; reflexivity.
    - inversion Hrev; subst. cbn [trace log root].
      rewrite reads_app, writes_app, mkdirs_app. cbn. rewrite !app_nil_r.
      repeat split; reflexivity. }
  destruct Hw2 as [Hr2 [Hwr2 [Hmk2 Hroot2]]].
  unfold bind at 1 in H. unfold os_path_isdir at 1 in H.
  unfold bind at 1 in H. rewrite Hroot2 in H.
  destruct ((if negb (FS.isdir (root w) output_dir)
             then os_mkdir output_dir else ret tt) w2)
    as [w3 [e|[]]] eqn:Hout; [discriminate|].
  assert (Hw3 : reads (trace w3) = reads (trace w2)
                /\ writes (trace w3) = writes (trace w2)
                /\ mkdirs (trace w3)
                   = (mkdirs (trace w2)
                      ++ if FS.isdir (root w) output_dir then []
                         else [output_dir])%list).
  { destruct (FS.isdir (root w) output_dir); cbn [negb] in Hout.
    - inversion Hout; subst. now rewrite app_nil_r.
    - apply os_mkdir_cases in Hout. destruct Hout as [Ht _].
      rewrite Ht, reads_app, writes_app, mkdirs_app. cbn.
      now rewrite !app_nil_r. }
  destruct Hw3 as [Hr3 [Hwr3 Hmk3]].
  unfold bind at 1 in H.
  destruct (make_condition_folders output_dir cn (snr_list snrs) w3)
    as [w4 [e|[]]] eqn:Hfold; [discriminate|].
  assert (Hw4 : exists tried,
             reads (trace w4) = reads (trace w3)
             /\ writes (trace w4) = writes (trace w3)
             /\ mkdirs (trace w4) = (mkdirs (trace w3) ++ tried)%list
             /\ (tried = folder_paths output_dir cn (snr_list snrs)
                 \/ exists pre q rest,
                      folder_paths output_dir cn (snr_list snrs)
                      = (pre ++ q :: rest)%list
                      /\ tried = (pre ++ [q])%list)).
  { assert (Hmk : forall l, mkdirs (map EvMkdir l) = l
                            /\ reads (map EvMkdir l) = []
                            /\ writes (map EvMkdir l) = []).
    { induction l as [|a l [IH1 [IH2 IH3]]]; [cbn; auto|]. cbn [map].
      change (EvMkdir a :: map EvMkdir l)
        with ([EvMkdir a] ++ map EvMkdir l)%list.
      rewrite mkdirs_app, reads_app, writes_app, IH1, IH2, IH3. auto. }
    unfold make_condition_folders, try_except_OSError in Hfold.
    rewrite mkdir_loop_paths in Hfold.
    destruct (for_each (folder_paths output_dir cn (snr_list snrs)) os_mkdir w3)
      as [w5 res] eqn:Hrun.
    destruct (mkdir_loop_cases _ _ _ _ Hrun)
      as [_ [_ [_ [[-> [Ht _]]
                  | [pre [q [rest [f [Hp [-> [_ [Ht _]]]]]]]]]]]].
    - inversion Hfold; subst.
      exists (folder_paths output_dir cn (snr_list snrs)).
      rewrite Ht, reads_app, writes_app, mkdirs_app.
      destruct (Hmk (folder_paths output_dir cn (snr_list snrs)))
        as [-> [-> ->]].
      rewrite !app_nil_r. auto.
    - destruct (is_OSError (py_error f q)); [|discriminate].
      unfold print in Hfold. inversion Hfold; subst.
      exists (pre ++ [q])%list. cbn [trace log].
      rewrite !reads_app, !writes_app, !mkdirs_app, Ht,
        !reads_app, !writes_app, !mkdirs_app.
      destruct (Hmk (pre ++ [q])%list) as [-> [-> ->]]. cbn.
      rewrite !app_nil_r. repeat split; auto.
      right. exists pre, q, rest. auto. }
  destruct Hw4 as [tried [Hr4 [Hwr4 [Hmk4 Htried]]]].
  assert (Hloop : emits (fun ev => mkdirs [ev] = [])
                    (for_each (snr_list snrs)
                       (generate_snr self n r output_dir cn
                                     files_per_condition pool))).
  { apply emits_for_each. intros snr _. apply generate_snr_events; reflexivity. }
  destruct (Hloop _ _ _ H) as [evs [Hevs Hnomk]].
  assert (Hmk5 : mkdirs evs = []).
  { clear - Hnomk. induction Hnomk as [|ev evs Hev _ IH]; [reflexivity|].
    change (ev :: evs) with ([ev] ++ evs)%list.
    now rewrite mkdirs_app, Hev, IH. }
  apply snr_loop_success in H. destruct H as [rss [wss [Hruns [Hr Hw]]]].
  exists rss, wss, tried. split; [reflexivity|].
  split; [|split; [|split; [exact Hruns | split; [|exact Htried]]]].
  - now rewrite Hr, Hr4, Hr3, Hr2, <- !app_assoc.
  - now rewrite Hw, Hwr4, Hwr3, Hwr2.
  - now rewrite Hevs, mkdirs_app, Hmk5, app_nil_r, Hmk4, Hmk3, Hmk2,
      <- !app_assoc.
Qed.

(** The runs of a call with [files_per_condition]: a sample for each
    SNR. *)
Lemma snr_runs_samples (self : Dataset) (output_dir : string) (cn : key)
      (m : Z) (pool : option Z) (snrs : list pyval)
      (rss wss : list (list string)) :
  snr_runs self output_dir cn (Some m) pool snrs rss wss ->
  Forall2 (fun _ l =>
             sample_of (speech self) (Z.to_nat m) l
             /\ List.length l = Z.to_nat m
             /\ (NoDup (speech self) -> NoDup l)) snrs rss
  /\ Forall2 (fun snr ws =>
                exists l, sample_of (speech self) (Z.to_nat m) l
                          /\ ws = map (output_path output_dir cn snr) l)
             snrs wss.
Proof.
  induction 1 as [|snr snrs files rs ds rss wss Hch Hrs Hds _ [IH1 IH2]];
    [split; constructor|].
  cbn [chosen] in Hch.
  assert (Hs : forall l, in_order pool l files ->
                         sample_of (speech self) (Z.to_nat m) l).
  { intros l Hl. eapply sample_of_perm; [|exact Hch].
    now apply in_order_perm with (pool := pool). }
  split; constructor; auto.
  - split; [now apply Hs|].
    split; [eapply sample_of_length; now apply Hs|].
    intros Hnd. eapply sample_of_NoDup; [exact Hnd | now apply Hs].
  - exists ds. split; [now apply Hs | reflexivity].
Qed.

(** The runs of a call without it: the whole speech list for each SNR. *)
Lemma snr_runs_all (self : Dataset) (output_dir : string) (cn : key)
      (pool : option Z) (snrs : list pyval) (rss wss : list (list string)) :
  snr_runs self output_dir cn None pool snrs rss wss ->
  Forall2 (fun _ rs => in_order pool rs (speech self)) snrs rss
  /\ Forall2 (fun snr ws =>
                exists ds, in_order pool ds (speech self)
                           /\ ws = map (output_path output_dir cn snr) ds)
             snrs wss.
Proof.
  induction 1 as [|snr snrs files rs ds rss wss Hch Hrs Hds _ [IH1 IH2]];
    [split; constructor|].
  cbn [chosen] in Hch. subst files.
  split; constructor; auto. exists ds. auto.
Qed.

(** Without a pool, the runs go through the speech list in its order. *)
Lemma snr_runs_sequential (self : Dataset) (output_dir : string) (cn : key)
      (snrs : list pyval) (rss wss : list (list string)) :
  snr_runs self output_dir cn None None snrs rss wss ->
  List.concat rss = List.concat (map (fun _ => speech self) snrs)
  /\ List.concat wss
     = flat_map (fun snr => map (output_path output_dir cn snr) (speech self))
                snrs.
Proof.
  induction 1 as [|snr snrs files rs ds rss wss Hch Hrs Hds _ [IH1 IH2]];
    [split; reflexivity|].
  cbn in Hch, Hrs, Hds. subst. cbn [map List.concat flat_map].
  now rewrite IH1, IH2.
Qed.

Lemma snr_runs_count (self : Dataset) (output_dir : string) (cn : key)
      (pool : option Z) (snrs : list pyval) (rss wss : list (list string)) :
  snr_runs self output_dir cn None pool snrs rss wss ->
  List.length (List.concat rss)
  = (List.length snrs * List.length (speech self))%nat
  /\ List.length (List.concat wss)
     = (List.length snrs * List.length (speech self))%nat.
Proof.
  induction 1 as [|snr snrs files rs ds rss wss Hch Hrs Hds _ [IH1 IH2]];
    [split; reflexivity|].
  cbn in Hch. subst files.
  apply in_order_perm, Permutation_length in Hrs.
  apply in_order_perm, Permutation_length in Hds.
  cbn [List.concat List.length]. rewrite !length_app, length_map, IH1, IH2.
  lia.
Qed.

End RunsThatReturn.

Section FilesPerCondition.
Context {E : Externals}.

Lemma generate_snr_sample_fails (self : Dataset) (n : signal)
      (r : option signal) (output_dir : string) (condition_name : key)
      (pool : option Z) (snr : pyval) (m : Z) (w : world) :
  (Z.of_nat (List.length (speech self)) < m)%Z ->
  exists msg,
    generate_snr self n r output_dir condition_name (Some m) pool snr w
    = (w, inl (ValueError msg)).
Proof.
  intros H. unfold generate_snr, bind.
  destruct (np_random_choice_too_many (speech self) m w H) as [msg Hc].
  rewrite Hc. now exists msg.
Qed.

Lemma generate_condition_sample_fails (self : Dataset) (snrs : pyval)
      (noise_name : key) (output_dir : string) (reverb_name : option key)
      (pool : option Z) (m : Z) :
  (Z.of_nat (List.length (speech self)) < m)%Z ->
  snr_list snrs <> [] ->
  fails (generate_condition self snrs noise_name output_dir reverb_name
                            (Some m) pool).
Proof.
  intros Hm Hne. unfold generate_condition.
  destruct (negb (Dict.mem noise_name (noise self))).
  { intros w. now exists UnknownDistortionError. }
  apply fails_bind_r; intros p.
  apply fails_bind_r; intros [n nfs].
  apply fails_bind_r; intros [r cn].
  apply fails_bind_r; intros ex.
  apply fails_bind_r; intros _.
  apply fails_bind_r; intros _.
  destruct (snr_list snrs) as [|snr rest]; [contradiction|].
  cbn [for_each]. apply fails_bind_l. intros w.
  destruct (generate_snr_sample_fails self n r output_dir cn pool snr m w Hm)
    as [msg Hf].
  rewrite Hf. now exists (ValueError msg).
Qed.

(** With too large a sample asked, a run gets as far as the folders: it
    reads the sources, and no speech file is read or written for. *)
Lemma generate_condition_sample_before_files (self : Dataset) (snrs : pyval)
      (noise_name : key) (output_dir : string) (reverb_name : option key)
      (pool : option Z) (m : Z) :
  (Z.of_nat (List.length (speech self)) < m)%Z ->
  snr_list snrs <> [] ->
  emits (before_files self noise_name reverb_name)
        (generate_condition self snrs noise_name output_dir reverb_name
                            (Some m) pool).
Proof.
  intros Hm Hne. unfold generate_condition.
  destruct (negb (Dict.mem noise_name (noise self))); [apply emits_raise|].
  apply emits_bind_post
    with (Q := fun p => Dict.get noise_name (noise self) = Some p).
  { intros w w' p. unfold getitem.
    destruct (Dict.get noise_name (noise self)); intros H; inversion H.
    reflexivity. }
  { auto with emits. }
  intros p Hp. apply emits_bind; [apply emits_wavread; cbn; auto|].
  intros [n nfs]. apply emits_bind.
  { unfold load_reverb. destruct reverb_name as [rv|]; [|auto with emits].
    apply emits_bind_post
      with (Q := fun rp => Dict.get rv (reverb self) = Some rp).
    { intros w w' rp. unfold getitem.
      destruct (Dict.get rv (reverb self)); intros H; inversion H.
      reflexivity. }
    { auto with emits. }
    intros rp Hrp. apply emits_bind; [|intros [r rfs]; auto with emits].
    apply emits_wavread. cbn. right. rewrite Hrp. now left. }
  intros [r cn]. apply emits_bind; [auto with emits|]. intros ex.
  apply emits_bind.
  { destruct (negb ex); [apply emits_os_mkdir; exact I | auto with emits]. }
  intros _. apply emits_bind.
  { apply make_condition_folders_emits; intros; exact I. }
  intros _. destruct (snr_list snrs) as [|snr rest]; [contradiction|].
  cbn [for_each]. intros w w' res H. unfold bind in H.
  destruct (generate_snr_sample_fails self n r output_dir cn pool snr m w Hm)
    as [msg Hf].
  rewrite Hf in H. inversion H; subst. exists [].
  split; [now rewrite app_nil_r | constructor].
Qed.

(** C5 (amended). With [S] registered speech paths and
    [files_per_condition = M], for a call of [generate_condition]:
    - for [0 <= M <= S] the draw always succeeds and gives [M] entries
      of the speech list taken at [M] different places; a call that
      returns has read, after the sources, one such sample for every SNR
      of the list, and written for the files of one such sample in the
      folder of every SNR. The entries are [M] different files when the
      speech list has no path twice;
    - for [M > S] and an SNR list that is not empty the call raises, and
      it has read nothing but the sources and written nothing;
    - without [files_per_condition], a call that returns has read the
      whole speech list for every SNR, and written for it. With a pool
      the files of an SNR are gone through in some order, without one in
      the order of the list. *)
Theorem files_per_condition_sample
        (self : Dataset) (snrs : pyval) (noise_name : key)
        (output_dir : string) (reverb_name : option key) (pool : option Z)
        (m : Z) (w : world) :
  let cn := condition_name_of reverb_name noise_name in
  let run fpc := generate_condition self snrs noise_name output_dir
                                    reverb_name fpc pool in
  ((0 <= m <= Z.of_nat (List.length (speech self)))%Z ->
     (forall w0, exists l g,
         np_random_choice (speech self) m w0
         = (mkWorld (root w0) (trace w0) g, inr l)
         /\ sample_of (speech self) (Z.to_nat m) l)
     /\ forall w',
        run (Some m) w = (w', inr tt) ->
        exists p samples written,
          Dict.get noise_name (noise self) = Some p
          /\ reads (trace w')
             = (reads (trace w) ++ p :: reverb_path self reverb_name
                ++ List.concat samples)%list
          /\ map fst (writes (trace w'))
             = (map fst (writes (trace w)) ++ List.concat written)%list
          /\ snr_runs self output_dir cn (Some m) pool (snr_list snrs)
                      samples written
          /\ Forall2 (fun _ l =>
                        sample_of (speech self) (Z.to_nat m) l
                        /\ List.length l = Z.to_nat m
                        /\ (NoDup (speech self) -> NoDup l))
                     (snr_list snrs) samples
          /\ Forall2 (fun snr ws =>
                        exists l,
                          sample_of (speech self) (Z.to_nat m) l
                          /\ ws = map (output_path output_dir cn snr) l)
                     (snr_list snrs) written)
  /\ ((Z.of_nat (List.length (speech self)) < m)%Z ->
      snr_list snrs <> [] ->
      (exists e, snd (run (Some m) w) = inl e)
      /\ emits (before_files self noise_name reverb_name) (run (Some m)))
  /\ (forall w',
        run None w = (w', inr tt) ->
        exists p rss wss,
          Dict.get noise_name (noise self) = Some p
          /\ reads (trace w')
             = (reads (trace w) ++ p :: reverb_path self reverb_name
                ++ List.concat rss)%list
          /\ map fst (writes (trace w'))
             = (map fst (writes (trace w)) ++ List.concat wss)%list
          /\ Forall2 (fun _ rs => in_order pool rs (speech self))
                     (snr_list snrs) rss
          /\ Forall2 (fun snr ws =>
                        exists ds,
                          in_order pool ds (speech self)
                          /\ ws = map (output_path output_dir cn snr) ds)
                     (snr_list snrs) wss).
Proof.
  cbn zeta. split; [|split].
  - intros Hm. split.
    + intros w0.
      destruct (np_random_choice_ok (speech self) m w0 Hm) as [l [g [Hc Hs]]].
      exists l, g. auto.
    + intros w' H.
      destruct (generate_condition_success _ _ _ _ _ _ _ _ _ H)
        as [p [rss [wss [tried [Hp [Hr [Hw [Hruns _]]]]]]]].
      destruct (snr_runs_samples _ _ _ _ _ _ _ _ Hruns) as [H1 H2].
      exists p, rss, wss. auto 10.
  - intros Hm Hne. split.
    + now apply generate_condition_sample_fails.
    + now apply generate_condition_sample_before_files.
  - intros w' H.
    destruct (generate_condition_success _ _ _ _ _ _ _ _ _ H)
      as [p [rss [wss [tried [Hp [Hr [Hw [Hruns _]]]]]]]].
    destruct (snr_runs_all _ _ _ _ _ _ _ Hruns) as [H1 H2].
    exists p, rss, wss. auto 10.
Qed.

End FilesPerCondition.

(** Two of the three speech files of the demo are drawn for each of two
    SNRs (the reversal takes the last two), and the run reads them after
    the noise file, once for each SNR. *)
Lemma files_per_condition_sample_witness :
  (0 <= 2 <= Z.of_nat (List.length (speech Demo.d_three)))%Z
  /\ reads (trace (fst (generate_condition (E := Demo.ext) Demo.d_three
                          (VList [VInt 0; VInt 5]) (KStr "white") "gen" None
                          (Some 2%Z) None Demo.start)))
     = ["noise/white.wav"; "speech/sub/c.wav"; "speech/b.WAV";
        "speech/sub/c.wav"; "speech/b.WAV"]
  /\ map fst
       (writes (trace (fst (generate_condition (E := Demo.ext) Demo.d_three
                              (VList [VInt 0; VInt 5]) (KStr "white") "gen"
                              None (Some 2%Z) None Demo.start))))
     = ["gen/white_0dB/c.wav"; "gen/white_0dB/b.WAV";
        "gen/white_5dB/c.wav"; "gen/white_5dB/b.WAV"]
  /\ exists p samples written,
      Dict.get (KStr "white") (noise Demo.d_three) = Some p
      /\ reads (trace (fst (generate_condition (E := Demo.ext) Demo.d_three
                              (VList [VInt 0; VInt 5]) (KStr "white") "gen"
                              None (Some 2%Z) None Demo.start)))
         = (reads (trace Demo.start)
            ++ p :: reverb_path (E := Demo.ext) Demo.d_three None
            ++ List.concat samples)%list
      /\ map fst
           (writes (trace (fst (generate_condition (E := Demo.ext)
                                  Demo.d_three (VList [VInt 0; VInt 5])
                                  (KStr "white") "gen" None (Some 2%Z) None
                                  Demo.start))))
         = (map fst (writes (trace Demo.start)) ++ List.concat written)%list
      /\ snr_runs (E := Demo.ext) Demo.d_three "gen" (KStr "white")
                  (Some 2%Z) None [VInt 0; VInt 5] samples written
      /\ Forall2 (fun _ l =>
                    sample_of (speech Demo.d_three) (Z.to_nat 2) l
                    /\ List.length l = Z.to_nat 2
                    /\ (NoDup (speech Demo.d_three) -> NoDup l))
                 [VInt 0; VInt 5] samples
      /\ Forall2 (fun snr ws =>
                    exists l,
                      sample_of (speech Demo.d_three) (Z.to_nat 2) l
                      /\ ws = map (output_path "gen" (KStr "white") snr) l)
                 [VInt 0; VInt 5] written.
Proof.
  assert (H : (0 <= 2 <= Z.of_nat (List.length (speech Demo.d_three)))%Z)
    by (cbn; lia).
  split; [exact H|]. split; [reflexivity|]. split; [reflexivity|].
  exact (proj2 (proj1 (files_per_condition_sample (E := Demo.ext) Demo.d_three
                         (VList [VInt 0; VInt 5]) (KStr "white") "gen" None
                         None 2 Demo.start) H)
           _ (surjective_pairing _)).
Defined.

(** Two ways the claim as worded fails. Five files are asked of one
    registered file and the call returns all the same, the SNR list being
    empty. And two files are asked of a speech list that holds the same
    path twice: the sample is that path twice, and the run reads it
    twice for the one SNR. *)
Lemma files_per_condition_counterexample :
  ((Z.of_nat (List.length (speech Demo.d_white)) < 5)%Z
   /\ snd (generate_condition (E := Demo.ext) Demo.d_white (VList [])
             (KStr "white") "gen" None (Some 5%Z) None Demo.start)
      = inr tt)
  /\ ((2 <= Z.of_nat (List.length (speech Demo.d_twice)))%Z
      /\ generate_condition (E := Demo.ext) Demo.d_twice (VList [VInt 5])
           (KStr "white") "gen" None (Some 2%Z) None Demo.start
         = (fst (generate_condition (E := Demo.ext) Demo.d_twice
                   (VList [VInt 5]) (KStr "white") "gen" None (Some 2%Z) None
                   Demo.start), inr tt)
      /\ reads (trace (fst (generate_condition (E := Demo.ext) Demo.d_twice
                              (VList [VInt 5]) (KStr "white") "gen" None
                              (Some 2%Z) None Demo.start)))
         = ["noise/white.wav"; "speech/a.wav"; "speech/a.wav"]
      /\ ~ NoDup ["speech/a.wav"; "speech/a.wav"]).
Proof.
  split; [split; [cbn; lia | reflexivity]|].
  split; [cbn; lia|]. split; [reflexivity|]. split; [reflexivity|].
  intros H. inversion H as [|? ? Hnotin _]; subst. apply Hnotin. now left.
Qed.

(** ** The SNR argument *)

Section SnrArgument.
Context {E : Externals}.

(** A tuple is never taken item by item. *)
Lemma snr_list_tuple (items : list pyval) :
  snr_list (VTuple items) = [VTuple items].
Proof. reflexivity. Qed.

Lemma snr_list_not_list (snrs : pyval) :
  Py.is_list snrs = false -> snr_list snrs = [snrs].
Proof. destruct snrs; try reflexivity; discriminate. Qed.

(** The events of a call on an argument that is wrapped whole: the one
    folder that is made, and written to, is named after the text of the
    whole argument. *)
Lemma generate_condition_wrapped_emits
      (self : Dataset) (snrs : pyval) (noise_name : key)
      (output_dir : string) (reverb_name : option key)
      (files_per_condition : option Z) (pool : option Z) (s : pyval) :
  snr_list snrs = [s] ->
  emits (one_folder self output_dir
           (Py.key_str (condition_name_of reverb_name noise_name)
            ++ "_" ++ Py.str s ++ "dB"))
        (generate_condition self snrs noise_name output_dir reverb_name
                            files_per_condition pool).
Proof.
  intros Hs. unfold generate_condition. rewrite Hs.
  destruct (negb (Dict.mem noise_name (noise self))); [apply emits_raise|].
  apply emits_bind; [auto with emits|]. intros p.
  apply emits_bind; [apply emits_wavread; exact I|]. intros [n nfs].
  apply emits_bind_post
    with (Q := fun rc => snd rc = condition_name_of reverb_name noise_name).
  { intros w w' [r cn] H. cbn. eapply load_reverb_name; eassumption. }
  { apply load_reverb_emits. intros; exact I. }
  intros [r cn] Hcn. cbn in Hcn. subst cn.
  apply emits_bind; [auto with emits|]. intros ex.
  apply emits_bind.
  { destruct (negb ex); [|auto with emits].
    apply emits_os_mkdir. cbn. now left. }
  intros _. apply emits_bind.
  { unfold make_condition_folders. apply emits_try.
    - apply emits_for_each. intros snr [<- | []].
      apply emits_os_mkdir. cbn. now right.
    - apply emits_print. exact I. }
  intros _. apply emits_for_each. intros snr [<- | []].
  apply generate_snr_emits_at; [intros; exact I|].
  intros f fs Hf. cbn. exists f. split; [exact Hf | reflexivity].
Qed.

(** C10. An [snrs] argument whose type is not [list] is wrapped whole in
    a one-item list, by [generate_condition] and by [generate_dataset]
    alike: the call runs as it does on that one-item list;
    [generate_dataset] runs [generate_condition] on the one-item list for
    each of its conditions. The one folder of a condition is named after
    the text of the whole argument: whatever a run of either method
    does, it calls [os.mkdir] on no folder of a condition but that one,
    and writes nowhere else; a call of [generate_condition] that returns
    has called [os.mkdir] once on that folder, and has written there for
    speech files of the registry, for each of them once when no sample
    is asked. A tuple is such an argument, whatever its length, and so are
    a float, a string and a numpy array. *)
Theorem snrs_not_a_list_is_wrapped
        (self : Dataset) (snrs : pyval) (noise_name : key)
        (output_dir : string) (reverb_name : option key)
        (files_per_condition : option Z) (pool : option Z) (n_workers : Z) :
  Py.is_list snrs = false ->
  let folder cn := Py.key_str cn ++ "_" ++ Py.str snrs ++ "dB" in
  snr_list snrs = [snrs]
  /\ generate_condition self snrs noise_name output_dir reverb_name
                        files_per_condition pool
     = generate_condition self (VList [snrs]) noise_name output_dir
                          reverb_name files_per_condition pool
  /\ generate_dataset self snrs output_dir files_per_condition n_workers
     = generate_dataset self (VList [snrs]) output_dir files_per_condition
                        n_workers
  /\ (forall condition_name,
        map (condition_folder condition_name) (snr_list snrs)
        = [Py.key_str condition_name ++ "_" ++ Py.str snrs ++ "dB"])
  /\ ((1 <= n_workers)%Z ->
      forall w,
        generate_dataset self snrs output_dir files_per_condition n_workers w
        = for_each (conditions self)
            (fun '(rv, nz) =>
               generate_condition self (VList [snrs]) nz output_dir (Some rv)
                                  files_per_condition (Some n_workers)) w)
  /\ emits (one_folder self output_dir
              (folder (condition_name_of reverb_name noise_name)))
           (generate_condition self snrs noise_name output_dir reverb_name
                               files_per_condition pool)
  /\ emits (fun ev =>
              exists rv nz,
                In (rv, nz) (conditions self)
                /\ one_folder self output_dir
                     (folder (condition_name_of (Some rv) nz)) ev)
           (generate_dataset self snrs output_dir files_per_condition
                             n_workers)
  /\ (forall w w',
        generate_condition self snrs noise_name output_dir reverb_name
                           files_per_condition pool w = (w', inr tt) ->
        mkdirs (trace w')
        = (mkdirs (trace w)
           ++ (if FS.isdir (root w) output_dir then [] else [output_dir])
           ++ [PosixPath.join output_dir
                 (folder (condition_name_of reverb_name noise_name))])%list
        /\ exists done,
            map fst (writes (trace w'))
            = (map fst (writes (trace w))
               ++ map (fun f =>
                         PosixPath.join3 output_dir
                           (folder (condition_name_of reverb_name noise_name))
                           (PosixPath.basename f)) done)%list
            /\ incl done (speech self)
            /\ (files_per_condition = None ->
                in_order pool done (speech self))).
Proof.
  intros Hnl. cbn zeta.
  pose proof (snr_list_not_list _ Hnl) as Hw.
  split; [exact Hw|]. split; [|split; [|split; [|split; [|split; [|split]]]]].
  - unfold generate_condition. now rewrite Hw.
  - unfold generate_dataset. now rewrite Hw.
  - intros cn. now rewrite Hw.
  - intros Hn w. unfold generate_dataset, bind. rewrite Hw.
    now rewrite (Pool_ok _ _ Hn).
  - now apply generate_condition_wrapped_emits.
  - unfold generate_dataset. rewrite Hw. apply emits_bind.
    { unfold Pool. destruct (n_workers <? 1)%Z; auto with emits. }
    intros pl. apply emits_for_each. intros [rv nz] Hin.
    eapply emits_weaken;
      [|apply generate_condition_wrapped_emits
          with (reverb_name := Some rv) (s := snrs); reflexivity].
    intros ev Hev. exists rv, nz. auto.
  - intros w w' H.
    destruct (generate_condition_success _ _ _ _ _ _ _ _ _ H)
      as [p [rss [wss [tried [_ [_ [Hwr [Hruns [Hmk Htried]]]]]]]]].
    rewrite Hw in Hruns, Htried. split.
    + rewrite Hmk. repeat f_equal. cbn [folder_paths map] in Htried.
      destruct Htried as [-> | [pre [q [rest [Hp ->]]]]]; [reflexivity|].
      destruct pre as [|a pre].
      * cbn in Hp. inversion Hp. reflexivity.
      * cbn in Hp. inversion Hp. destruct pre; discriminate.
    + inversion Hruns as [|? ? files rs ds ? ? Hch Hrs Hds Hnil]; subst.
      inversion Hnil; subst. exists ds. split; [|split].
      * rewrite Hwr. cbn [List.concat]. now rewrite app_nil_r.
      * intros f Hf.
        apply (Permutation_in _ (in_order_perm _ _ _ Hds)) in Hf.
        destruct files_per_condition as [m|]; cbn [chosen] in Hch.
        -- destruct Hch as [idx [-> [_ [_ Hlt]]]].
           apply in_map_iff in Hf. destruct Hf as [i [<- Hi]].
           rewrite Forall_forall in Hlt. apply nth_In. now apply Hlt.
        -- now subst files.
      * intros ->. cbn [chosen] in Hch. now subst files.
Qed.

End SnrArgument.

(** The tuple [(0, 10)] names the single folder [room1_white_(0, 10)dB]
    of the one condition of the demo, which [generate_dataset] makes and
    writes to; a float, a string and an array name theirs after their
    text. *)
Lemma snrs_not_a_list_is_wrapped_witness :
  Py.is_list (VTuple [VInt 0; VInt 10]) = false
  /\ trace (fst (generate_dataset (E := Demo.ext) Demo.d_room
                   (VTuple [VInt 0; VInt 10]) "gen" None 4 Demo.start))
     = [EvRead "noise/white.wav"; EvRead "rir/room1.wav"; EvMkdir "gen";
        EvMkdir "gen/room1_white_(0, 10)dB"; EvRead "speech/a.wav";
        EvWrite "gen/room1_white_(0, 10)dB/a.wav" 16000]
  /\ generate_dataset (E := Demo.ext) Demo.d_room (VTuple [VInt 0; VInt 10])
       "gen" None 4 Demo.start
     = for_each (conditions Demo.d_room)
         (fun '(rv, nz) =>
            generate_condition (E := Demo.ext) Demo.d_room
              (VList [VTuple [VInt 0; VInt 10]]) nz "gen" (Some rv) None
              (Some 4%Z)) Demo.start
  /\ mkdirs (trace (fst (generate_condition (E := Demo.ext) Demo.d_white
                           (VTuple [VInt 0; VInt 10]) (KStr "white") "gen"
                           None None None Demo.start)))
     = ["gen"; "gen/white_(0, 10)dB"]
  /\ map (fun snrs => condition_folder (KStr "white") snrs)
         [VFloat "2.5"; VStr "5"; VObj "[0 5]" "array([0, 5])";
          VTuple [VFloat "0.5"; VStr "a"]]
     = ["white_2.5dB"; "white_5dB"; "white_[0 5]dB"; "white_(0.5, 'a')dB"].
Proof.
  pose proof (snrs_not_a_list_is_wrapped (E := Demo.ext) Demo.d_white
                (VTuple [VInt 0; VInt 10]) (KStr "white") "gen" None None
                None 4 eq_refl) as Hwhite.
  pose proof (snrs_not_a_list_is_wrapped (E := Demo.ext) Demo.d_room
                (VTuple [VInt 0; VInt 10]) (KStr "white") "gen" None None
                None 4 eq_refl) as Hroom.
  cbn zeta in Hwhite, Hroom.
  split; [reflexivity|]. split; [vm_compute; reflexivity|].
  split; [|split; [|reflexivity]].
  - exact (proj1 (proj2 (proj2 (proj2 (proj2 Hroom)))) ltac:(lia) Demo.start).
  - exact (proj1 (proj2 (proj2 (proj2 (proj2 (proj2 (proj2 (proj2 Hwhite))))))
                    Demo.start _ (surjective_pairing _))).
Defined.

(** ** Speech files *)

Section SpeechFiles.
Context {E : Externals}.

(** An existing file is appended, alone. *)
Lemma add_speech_files_file (r : FS.node content) (self : Dataset)
      (path : string) (recursive : bool) :
  FS.isfile r path = true ->
  add_speech_files r self path recursive
  = (with_speech (speech self ++ [path]) self, inr tt).
Proof. intros H. unfold add_speech_files. now rewrite H. Qed.

(** A path that is neither a file nor a folder is refused and the data set
    is left as it was. *)
Lemma add_speech_files_invalid (r : FS.node content) (self : Dataset)
      (path : string) (recursive : bool) :
  FS.isfile r path = false -> FS.isdir r path = false ->
  add_speech_files r self path recursive = (self, inl InvalidPathError).
Proof. intros Hf Hd. unfold add_speech_files. now rewrite Hf, Hd. Qed.

(** A folder appends what the two globs (or the two walks) give. *)
Lemma add_speech_files_folder (r : FS.node content) (self : Dataset)
      (path : string) (recursive : bool) :
  FS.isdir r path = true ->
  add_speech_files r self path recursive
  = (with_speech
       (speech self
        ++ (if recursive
            then recursive_glob r path "*.wav" ++ recursive_glob r path "*.WAV"
            else Glob.glob r (PosixPath.join path "*.wav")
                 ++ Glob.glob r (PosixPath.join path "*.WAV")))%list
       self,
     inr tt).
Proof.
  intros Hd. unfold add_speech_files.
  rewrite (isdir_not_isfile _ _ Hd), Hd. now destruct recursive.
Qed.

End SpeechFiles.

(** C7 (the code departs from the claim). The folder [d[1]] of the demo
    disk exists and holds [a.wav]; the folder [d1] next to it holds
    [b.wav]. Adding the speech folder [d[1]] without recursion appends
    [d1/b.wav], a file of the other folder, and not [d[1]/a.wav]: the
    path is handed to [glob] as part of the pattern, where its brackets
    are a character set. *)
Theorem add_speech_files_bracket_folder :
  FS.isdir Demo.disk "d[1]" = true
  /\ FS.listdir Demo.disk "d[1]" = ["a.wav"]
  /\ Glob.glob Demo.disk (PosixPath.join "d[1]" "*.wav") = ["d1/b.wav"]
  /\ add_speech_files (E := Demo.ext) Demo.disk (Dataset_init "P.56")
       "d[1]" false
     = (with_speech ["d1/b.wav"] (Dataset_init "P.56"), inr tt).
Proof. repeat split. Qed.

(** ** Folders whose path has no wildcard *)

Lemma rstrip_app_sep (c : ascii) (s : string) :
  Str.is_empty s = false -> Str.ends_with c s = false ->
  Str.rstrip c (s ++ String c EmptyString) = s.
Proof.
  induction s as [|d r IH]; [discriminate|]. intros _ Hend.
  destruct r as [|d' r'].
  - cbn in Hend. cbn [String.append Str.rstrip Str.is_empty].
    rewrite Ascii.eqb_refl. cbn. now rewrite Hend.
  - change (Str.ends_with c (String d (String d' r')))
      with (Str.ends_with c (String d' r')) in Hend.
    change (String d (String d' r') ++ String c EmptyString)
      with (String d (String d' r' ++ String c EmptyString)).
    cbn [Str.rstrip]. rewrite (IH eq_refl Hend). reflexivity.
Qed.

Lemma join_plain (a b : string) :
  Str.is_empty a = false -> Str.ends_with PosixPath.sep a = false ->
  Str.mem PosixPath.sep b = false ->
  PosixPath.join a b = a ++ "/" ++ b.
Proof.
  intros Ha He Hb. unfold PosixPath.join. rewrite Ha, He.
  destruct b as [|c b]; [reflexivity|].
  unfold Str.mem in Hb. cbn [Str.existsb] in Hb. apply orb_false_iff in Hb.
  cbn [Str.starts_with]. now rewrite (proj1 Hb).
Qed.

Lemma split_plain (a b : string) :
  Str.is_empty a = false -> Str.ends_with PosixPath.sep a = false ->
  Str.mem PosixPath.sep b = false ->
  PosixPath.split (a ++ "/" ++ b) = (a, b).
Proof.
  intros Ha He Hb. unfold PosixPath.split.
  change (a ++ "/" ++ b) with (a ++ String PosixPath.sep b).
  rewrite (rcut_app _ _ _ Hb), (rstrip_app_sep _ _ Ha He). now rewrite Ha.
Qed.

Lemma has_magic_app (a b : string) :
  Glob.has_magic (a ++ b) = Glob.has_magic a || Glob.has_magic b.
Proof.
  unfold Glob.has_magic. induction a as [|c a IH]; cbn [String.append Str.existsb].
  - reflexivity.
  - now rewrite IH, orb_assoc.
Qed.

Section PlainFolder.
Context {A : Type} (r : FS.node A).

(** With no wildcard in the folder's path, the glob of a wildcard name
    under it lists that very folder. *)
Lemma glob_in_plain_folder (path pat : string) :
  Str.is_empty path = false ->
  Str.ends_with PosixPath.sep path = false ->
  Glob.has_magic path = false ->
  Str.mem PosixPath.sep pat = false ->
  Glob.has_magic pat = true ->
  Glob.glob r (PosixPath.join path pat)
  = map (PosixPath.join path) (Glob.glob1 r path pat).
Proof.
  intros Hne Hend Hmagic Hsep Hpat.
  rewrite (join_plain _ _ Hne Hend Hsep).
  unfold Glob.glob. cbn [Glob.iglob].
  rewrite (split_plain _ _ Hne Hend Hsep).
  assert (Hm : Glob.has_magic (path ++ "/" ++ pat) = true).
  { rewrite !has_magic_app, Hpat. now rewrite !orb_true_r. }
  rewrite Hm, Hne, Hmagic, Hpat, andb_false_r.
  cbn [negb flat_map]. now rewrite app_nil_r.
Qed.

Lemma glob1_plain (path pat : string) :
  Str.is_empty path = false ->
  Glob.is_hidden pat = false ->
  Glob.glob1 r path pat
  = filter (fun x => Glob.fnmatch x pat)
      (filter (fun x => negb (Glob.is_hidden x)) (FS.listdir r path)).
Proof. intros Hne Hh. unfold Glob.glob1. now rewrite Hne, Hh. Qed.

End PlainFolder.

(** A run of literal characters matches itself and nothing else. *)
Lemma tmatch_literals (cs s : list ascii) :
  Glob.tmatch (map Glob.PLit cs) s = true <-> s = cs.
Proof.
  revert s. induction cs as [|c cs IH]; intros s; cbn.
  - destruct s; split; congruence.
  - destruct s as [|d s]; [split; congruence|].
    rewrite andb_true_iff, IH, Ascii.eqb_eq. split.
    + intros [-> ->]. reflexivity.
    + intros H. inversion H. auto.
Qed.

Lemma tmatch_star_unfold (p : list Glob.ptok) (s : list ascii) :
  Glob.tmatch (Glob.PStar :: p) s
  = Glob.tmatch p s
    || match s with [] => false | _ :: s' => Glob.tmatch (Glob.PStar :: p) s' end.
Proof. destruct s; reflexivity. Qed.

(** A star takes any prefix. *)
Lemma tmatch_star (p : list Glob.ptok) (s : list ascii) :
  Glob.tmatch (Glob.PStar :: p) s = true
  <-> exists s1 s2, s = (s1 ++ s2)%list /\ Glob.tmatch p s2 = true.
Proof.
  induction s as [|c s IH]; rewrite tmatch_star_unfold.
  - rewrite orb_false_r. split.
    + intros H. now exists [], [].
    + intros [s1 [s2 [Hs H]]]. symmetry in Hs.
      apply app_eq_nil in Hs. destruct Hs; now subst.
  - rewrite orb_true_iff, IH. split.
    + intros [H | [s1 [s2 [-> H]]]].
      * now exists [], (c :: s).
      * now exists (c :: s1), s2.
    + intros [[|d s1] [s2 [Hs H]]].
      * left. cbn in Hs. now subst.
      * right. cbn in Hs. inversion Hs; subst. now exists s1, s2.
Qed.

Lemma list_ascii_app (a b : string) :
  list_ascii_of_string (a ++ b)
  = (list_ascii_of_string a ++ list_ascii_of_string b)%list.
Proof. induction a as [|c a IH]; cbn; [reflexivity | now rewrite IH]. Qed.

(** [*.wav] and [*.WAV] match the names that end so. *)
Lemma fnmatch_star_ext (x ext : string) :
  Glob.has_magic ext = false ->
  Glob.fnmatch x ("*" ++ ext) = true <-> exists base, x = base ++ ext.
Proof.
  intros Hext. unfold Glob.fnmatch.
  assert (Htok : forall e n,
             Glob.has_magic e = false -> (String.length e <= n)%nat ->
             Glob.tokens n (list_ascii_of_string e)
             = map Glob.PLit (list_ascii_of_string e)).
  { induction e as [|c e IH]; intros n Hm Hn.
    - destruct n; reflexivity.
    - destruct n; [cbn in Hn; lia|].
      unfold Glob.has_magic in Hm. cbn [Str.existsb] in Hm.
      apply orb_false_iff in Hm. destruct Hm as [Hc Hm].
      apply orb_false_iff in Hc. destruct Hc as [Hc H3].
      apply orb_false_iff in Hc. destruct Hc as [H1 H2].
      cbn [list_ascii_of_string Glob.tokens map].
      rewrite H1, H2, H3. f_equal. apply IH; [exact Hm | cbn in Hn; lia]. }
  cbn [String.append String.length list_ascii_of_string Glob.tokens].
  rewrite Ascii.eqb_refl, (Htok ext _ Hext (le_n _)), tmatch_star. split.
  - intros [s1 [s2 [Hx H]]]. apply tmatch_literals in H. subst s2.
    exists (string_of_list_ascii s1).
    rewrite <- (string_of_list_ascii_of_string x), Hx.
    rewrite <- (string_of_list_ascii_of_string
                  (string_of_list_ascii s1 ++ ext)).
    now rewrite list_ascii_app, list_ascii_of_string_of_list_ascii.
  - intros [base ->]. exists (list_ascii_of_string base), (list_ascii_of_string ext).
    split; [apply list_ascii_app | now apply tmatch_literals].
Qed.

Section PlainFolderFiles.
Context {E : Externals}.

(** For a folder whose path has no wildcard and no trailing slash, the
    files found are the entries of that folder that do not start with a
    dot and end in [.wav] or in [.WAV]. *)
Lemma wav_files_plain_folder (r : FS.node content) (path : string) :
  FS.isdir r path = true ->
  Glob.has_magic path = false ->
  Str.ends_with PosixPath.sep path = false ->
  forall f,
    In f (wav_files r path)
    <-> exists name base,
        In name (FS.listdir r path)
        /\ Glob.is_hidden name = false
        /\ (name = base ++ ".wav" \/ name = base ++ ".WAV")
        /\ f = PosixPath.join path name.
Proof.
  intros Hdir Hmagic Hend f.
  destruct (isdir_walk _ _ Hdir) as [Hne _].
  unfold wav_files.
  rewrite !(glob_in_plain_folder r path) by (assumption || reflexivity).
  rewrite !glob1_plain by (assumption || reflexivity).
  rewrite in_app_iff, !in_map_iff. split.
  - intros [[name [Hf Hin]] | [name [Hf Hin]]];
      apply filter_In in Hin; destruct Hin as [Hin Hmatch];
      apply filter_In in Hin; destruct Hin as [Hin Hvis];
      apply negb_true_iff in Hvis.
    + apply (fnmatch_star_ext name ".wav" eq_refl) in Hmatch.
      destruct Hmatch as [base Hbase].
      exists name, base. auto.
    + apply (fnmatch_star_ext name ".WAV" eq_refl) in Hmatch.
      destruct Hmatch as [base Hbase].
      exists name, base. auto.
  - intros [name [base [Hin [Hvis [[Hn | Hn] Hf]]]]].
    + left. exists name. split; [auto|].
      apply filter_In. split.
      * apply filter_In. split; [assumption | now apply negb_true_iff].
      * apply (fnmatch_star_ext name ".wav" eq_refl). now exists base.
    + right. exists name. split; [auto|].
      apply filter_In. split.
      * apply filter_In. split; [assumption | now apply negb_true_iff].
      * apply (fnmatch_star_ext name ".WAV" eq_refl). now exists base.
Qed.

(** The speech folder case of C7 where it holds: no wildcard in the path. *)
Lemma add_speech_files_plain_folder (r : FS.node content) (self : Dataset)
      (path : string) :
  FS.isdir r path = true ->
  Glob.has_magic path = false ->
  Str.ends_with PosixPath.sep path = false ->
  add_speech_files r self path false
  = (with_speech (speech self ++ wav_files r path) self, inr tt)
  /\ forall f,
      In f (wav_files r path)
      <-> exists name base,
          In name (FS.listdir r path)
          /\ Glob.is_hidden name = false
          /\ (name = base ++ ".wav" \/ name = base ++ ".WAV")
          /\ f = PosixPath.join path name.
Proof.
  intros Hdir Hmagic Hend. split.
  - now rewrite add_speech_files_folder.
  - now apply wav_files_plain_folder.
Qed.

End PlainFolderFiles.

(* ================================================================= *)
(** * Part III: further properties of the module *)
(* ================================================================= *)

(** ** What [os.mkdir] and a file write leave in place *)



(** ** Computations and the disk *)

Section DiskLogic.
Context {E : Externals}.
Variable R : FS.node content -> FS.node content -> Prop.
Hypothesis R_refl : forall r, R r r.
Hypothesis R_trans : forall r1 r2 r3, R r1 r2 -> R r2 r3 -> R r1 r3.

Lemma disk_rel_ret {A} (a : A) : disk_rel R (ret a).
Proof. intros w w' res H. inversion H; subst. apply R_refl. Qed.

Lemma disk_rel_raise {A} (e : exn) : disk_rel R (@raise _ A e).
Proof. intros w w' res H. inversion H; subst. apply R_refl. Qed.

Lemma disk_rel_bind {A B} (m : M A) (k : A -> M B) :
  disk_rel R m -> (forall a, disk_rel R (k a)) -> disk_rel R (bind m k).
Proof.
  intros Hm Hk w w' res H. unfold bind in H.
  destruct (m w) as [w1 [e|a]] eqn:Hmw.
  - inversion H; subst. eapply Hm; eassumption.
  - eapply R_trans; [eapply Hm; eassumption | eapply Hk; eassumption].
Qed.

Lemma disk_rel_for_each {A} (xs : list A) (body : A -> M unit) :
  (forall x, disk_rel R (body x)) -> disk_rel R (for_each xs body).
Proof.
  intros Hbody. induction xs as [|x xs IH]; cbn [for_each].
  - apply disk_rel_ret.
  - apply disk_rel_bind; auto.
Qed.

Lemma disk_rel_pool_map {A} (processes : Z) (f : A -> M (M unit))
      (xs : list A) :
  (forall x, disk_rel R (f x)) ->
  (forall x w w' k, f x w = (w', inr k) -> disk_rel R k) ->
  disk_rel R (pool_map processes f xs).
Proof.
  intros Hf Hk w w' res H.
  refine (pool_map_rel (fun w w' => R (root w) (root w')) _ _ f
            (fun _ => True) (fun _ k => disk_rel R k) _ _
            processes xs w w' res _ H).
  - intros w0. apply R_refl.
  - intros w1 w2 w3. apply R_trans.
  - intros x w0 w1 r _ Hr. split; [eapply Hf; eassumption|].
    intros k ->. eapply Hk; eassumption.
  - intros x k w0 w1 r Hrel Hr. eapply Hrel; eassumption.
  - now apply Forall_forall.
Qed.

Lemma disk_rel_try (m handler : M unit) :
  disk_rel R m -> disk_rel R handler ->
  disk_rel R (try_except_OSError m handler).
Proof.
  intros Hm Hh w w' res H. unfold try_except_OSError in H.
  destruct (m w) as [w1 [e|a]] eqn:Hmw.
  - destruct (is_OSError e).
    + eapply R_trans; [eapply Hm; eassumption | eapply Hh; eassumption].
    + inversion H; subst. eapply Hm; eassumption.
  - inversion H; subst. eapply Hm; eassumption.
Qed.

Lemma disk_rel_wavread (p : string) : disk_rel R (wavread p).
Proof.
  intros w w' res H. unfold wavread in H. cbn [root log] in H.
  destruct (FS.resolve (root w) p) as [[[xfs|]|es]|];
    inversion H; subst; apply R_refl.
Qed.

Lemma disk_rel_print (line : string) : disk_rel R (print line).
Proof. intros w w' res H. inversion H; subst. apply R_refl. Qed.

Lemma disk_rel_os_path_isdir (p : string) : disk_rel R (os_path_isdir p).
Proof. intros w w' res H. inversion H; subst. apply R_refl. Qed.

Lemma disk_rel_getitem (d : Dict.t) (k : key) : disk_rel R (getitem d k).
Proof.
  unfold getitem. destruct (Dict.get k d);
    [apply disk_rel_ret | apply disk_rel_raise].
Qed.

Lemma disk_rel_of_collaborator {A} (r : exn + A) :
  disk_rel R (of_collaborator r).
Proof. destruct r; [apply disk_rel_raise | apply disk_rel_ret]. Qed.

Lemma disk_rel_np_random_choice (a : list string) (size : Z) :
  disk_rel R (np_random_choice a size).
Proof.
  intros w w' res H. unfold np_random_choice in H.
  destruct ((List.length a =? 0)%nat && negb (size =? 0)%Z);
    [inversion H; subst; apply R_refl|].
  destruct (Z.of_nat (List.length a) <? size)%Z;
    [inversion H; subst; apply R_refl|].
  destruct (size <? 0)%Z; [inversion H; subst; apply R_refl|].
  destruct (permutation (gen w) (List.length a)).
  inversion H; subst. apply R_refl.
Qed.

Lemma disk_rel_os_mkdir (p : string) :
  (forall r r', FS.mkdir r p = inr r' -> R r r') -> disk_rel R (os_mkdir p).
Proof.
  intros HR w w' res H. unfold os_mkdir in H. cbn [root log] in H.
  destruct (FS.mkdir (root w) p) as [e|r'] eqn:Hmk;
    inversion H; subst; cbn [root with_root log]; auto.
Qed.

Lemma disk_rel_wavwrite (p : string) (y : signal) (fs : Z) :
  (forall r r', FS.write_file r p (Some (y, fs)) = inr r' -> R r r') ->
  disk_rel R (wavwrite p y fs).
Proof.
  intros HR w w' res H. unfold wavwrite in H. cbn [root log] in H.
  destruct (FS.write_file (root w) p (Some (y, fs))) as [e|r'] eqn:Hwr;
    inversion H; subst; cbn [root with_root log]; auto.
Qed.

End DiskLogic.

(** ** The folder-creation step, in full *)

Section FolderStep.
Context {E : Externals}.

(** [os.mkdir] refuses a path for its NUL character, and for nothing
    else, before any system call. *)
Lemma mkdir_nul {A} (r : FS.node A) (p : string) :
  FS.mkdir r p = inl FS.NulByte <-> Str.has_nul p = true.
Proof.
  unfold FS.mkdir, FS.put_under. destruct (Str.has_nul p).
  { split; reflexivity. }
  split; [|discriminate].
  destruct (Str.is_empty p); [discriminate|].
  destruct (FS.canon r [] (PosixPath.components p)); [discriminate|].
  destruct (FS.canon r [] (removelast (PosixPath.components p)));
    [|discriminate].
  destruct (FS.walk r l) as [[x|es]|]; try discriminate.
  destruct (FS.put r _ (FS.Dir [])); discriminate.
Qed.

(** X5. The folder-creation step calls [os.mkdir] on the folders in the
    order of the SNRs and stops at the first call that fails. Either all
    the calls went through: the step returns, nothing is printed, and
    every folder, which was not there before, is a directory afterwards.
    Or one call failed, and it is the last one made: the folders before
    it were not there and are directories afterwards, the same call fails
    on the disk as the step leaves it, and no folder after it was tried;
    when the failure is an [OSError] the warning is printed once, right
    after the call, and the step returns; when it is the [ValueError] of
    a path with a NUL character, the step raises it and prints nothing.
    The step returns whenever no folder path holds a NUL character. *)
Theorem make_condition_folders_outcome
        (output_dir : string) (condition_name : key) (snrs : list pyval)
        (w : world) :
  let paths := folder_paths output_dir condition_name snrs in
  let w' := fst (make_condition_folders output_dir condition_name snrs w) in
  let res := snd (make_condition_folders output_dir condition_name snrs w) in
  ((res = inr tt
    /\ trace w' = (trace w ++ map EvMkdir paths)%list
    /\ Forall (fun p => FS.lexists (root w) p = false
                        /\ FS.isdir (root w') p = true) paths)
   \/ exists pre p rest f,
        paths = (pre ++ p :: rest)%list
        /\ Forall (fun q => FS.lexists (root w) q = false
                            /\ FS.isdir (root w') q = true) pre
        /\ FS.mkdir (root w') p = inl f
        /\ match f with
           | FS.Errno _ =>
               res = inr tt
               /\ trace w'
                  = (trace w ++ map EvMkdir (pre ++ [p])
                     ++ [folder_warning])%list
           | FS.NulByte =>
               res = inl (ValueError "embedded null byte")
               /\ trace w' = (trace w ++ map EvMkdir (pre ++ [p]))%list
           end)
  /\ (Forall (fun p => Str.has_nul p = false) paths -> res = inr tt).
Proof.
  cbn zeta. unfold make_condition_folders, try_except_OSError.
  rewrite mkdir_loop_paths.
  destruct (for_each (folder_paths output_dir condition_name snrs) os_mkdir w)
    as [w1 res] eqn:Hrun.
  destruct (mkdir_loop_cases _ _ _ _ Hrun)
    as [_ [_ [_ [[-> [Ht Hdirs]]
                | [pre [p [rest [f [Hp [-> [Hmk [Ht Hdirs]]]]]]]]]]]].
  - cbn [fst snd]. split; [left; auto | reflexivity].
  - destruct f as [e|]; cbn [py_error is_OSError].
    + unfold print, log. cbn [fst snd root trace].
      split; [|reflexivity]. right. exists pre, p, rest, (FS.Errno e).
      rewrite Ht, <- app_assoc. auto.
    + cbn [fst snd]. split.
      * right. exists pre, p, rest, FS.NulByte. auto.
      * intros Hnul. exfalso. apply mkdir_nul in Hmk.
        rewrite Hp in Hnul. apply Forall_app in Hnul.
        destruct Hnul as [_ Hnul]. inversion Hnul; subst. congruence.
Qed.

(** X6. Whatever the folder-creation step does, it
    removes nothing, turns no file into a directory or a directory into a
    file, and leaves every file with what it held. *)
Theorem make_condition_folders_keeps_disk
        (output_dir : string) (condition_name : key) (snrs : list pyval)
        (w : world) :
  let r' := root (fst (make_condition_folders output_dir condition_name snrs w)) in
  same_kinds (root w) r' /\ same_files (root w) r'.
Proof.
  cbn zeta.
  assert (H : disk_rel (fun r r' => same_kinds r r' /\ same_files r r')
                       (make_condition_folders output_dir condition_name snrs)).
  { unfold make_condition_folders.
    assert (Hrefl : forall r : FS.node content,
               same_kinds r r /\ same_files r r)
      by (intros r; split; [apply same_kinds_refl | apply same_files_refl]).
    assert (Htrans : forall r1 r2 r3 : FS.node content,
               same_kinds r1 r2 /\ same_files r1 r2 ->
               same_kinds r2 r3 /\ same_files r2 r3 ->
               same_kinds r1 r3 /\ same_files r1 r3).
    { intros r1 r2 r3 [H1 H2] [H3 H4]. split.
      - eapply same_kinds_trans; eassumption.
      - eapply same_files_trans; eassumption. }
    apply (disk_rel_try _ Htrans).
    - apply (disk_rel_for_each _ Hrefl Htrans). intros snr.
      apply (disk_rel_os_mkdir _ Hrefl). intros r r'. apply mkdir_keeps.
    - apply (disk_rel_print _ Hrefl). }
  eapply H. apply surjective_pairing.
Qed.

End FolderStep.

(** ** What a run leaves on the disk *)

Section RunAndDisk.
Context {E : Externals}.

Lemma FileGenerator_call_same_kinds (self : FileGenerator) (f : string) :
  disk_rel same_kinds (FileGenerator_call self f).
Proof.
  unfold FileGenerator_call.
  apply (disk_rel_bind _ same_kinds_trans);
    [apply (disk_rel_wavread _ same_kinds_refl)|]. intros [x fs].
  apply (disk_rel_bind _ same_kinds_trans).
  { destruct (fg_r self).
    - apply (disk_rel_of_collaborator _ same_kinds_refl).
    - apply (disk_rel_ret _ same_kinds_refl). }
  intros x1. apply (disk_rel_bind _ same_kinds_trans);
    [apply (disk_rel_of_collaborator _ same_kinds_refl)|]. intros yg.
  apply (disk_rel_wavwrite _ same_kinds_refl).
  intros r r'. apply write_file_keeps.
Qed.

Lemma generate_condition_same_kinds
      (self : Dataset) (snrs : pyval) (noise_name : key)
      (output_dir : string) (reverb_name : option key)
      (files_per_condition : option Z) (pool : option Z) :
  disk_rel same_kinds
    (generate_condition self snrs noise_name output_dir reverb_name
                        files_per_condition pool).
Proof.
  pose proof (@same_kinds_refl content) as Hr.
  pose proof (@same_kinds_trans content) as Ht.
  unfold generate_condition.
  destruct (negb (Dict.mem noise_name (noise self)));
    [apply (disk_rel_raise _ Hr)|].
  apply (disk_rel_bind _ Ht); [apply (disk_rel_getitem _ Hr)|]. intros p.
  apply (disk_rel_bind _ Ht); [apply (disk_rel_wavread _ Hr)|]. intros [n nfs].
  apply (disk_rel_bind _ Ht).
  { unfold load_reverb. destruct reverb_name as [rv|];
      [|apply (disk_rel_ret _ Hr)].
    apply (disk_rel_bind _ Ht); [apply (disk_rel_getitem _ Hr)|]. intros q.
    apply (disk_rel_bind _ Ht); [apply (disk_rel_wavread _ Hr)|].
    intros [r rfs]. apply (disk_rel_ret _ Hr). }
  intros [r cn].
  apply (disk_rel_bind _ Ht); [apply (disk_rel_os_path_isdir _ Hr)|].
  intros ex. apply (disk_rel_bind _ Ht).
  { destruct (negb ex); [|apply (disk_rel_ret _ Hr)].
    apply (disk_rel_os_mkdir _ Hr). intros r0 r1 H. now apply mkdir_keeps in H. }
  intros _. apply (disk_rel_bind _ Ht).
  { unfold make_condition_folders. apply (disk_rel_try _ Ht).
    - apply (disk_rel_for_each _ Hr Ht). intros snr.
      apply (disk_rel_os_mkdir _ Hr). intros r0 r1 H.
      now apply mkdir_keeps in H.
    - apply (disk_rel_print _ Hr). }
  intros _. apply (disk_rel_for_each _ Hr Ht). intros snr.
  unfold generate_snr. apply (disk_rel_bind _ Ht).
  { destruct files_per_condition;
      [apply (disk_rel_np_random_choice _ Hr) | apply (disk_rel_ret _ Hr)]. }
  intros files. destruct pool as [processes|].
  - apply (disk_rel_pool_map _ Hr Ht).
    + intros f w0 w1 res H. apply FileGenerator_phases_inv in H.
      destruct H as [-> _]. apply Hr.
    + intros f w0 w1 k H. apply FileGenerator_phases_inv in H.
      destruct H as [_ H]. destruct (H k eq_refl) as [x [fs [y [_ ->]]]].
      apply (disk_rel_wavwrite _ Hr). intros r0 r1. apply write_file_keeps.
  - apply (disk_rel_for_each _ Hr Ht). intros f.
    apply FileGenerator_call_same_kinds.
Qed.

(** X13. However [generate_condition] or
    [generate_dataset] ends, a path that named a file before the call
    names a file after it and a path that named a directory names a
    directory: a run removes nothing and replaces no file by a folder or
    folder by a file. *)
Theorem generation_deletes_nothing
        (self : Dataset) (snrs : pyval) (noise_name : key)
        (output_dir : string) (reverb_name : option key)
        (files_per_condition : option Z) (pool : option Z) (n_workers : Z)
        (w : world) (q : string) :
  let w1 := fst (generate_condition self snrs noise_name output_dir
                   reverb_name files_per_condition pool w) in
  let w2 := fst (generate_dataset self snrs output_dir files_per_condition
                   n_workers w) in
  (FS.isfile (root w) q = true ->
     FS.isfile (root w1) q = true /\ FS.isfile (root w2) q = true)
  /\ (FS.isdir (root w) q = true ->
        FS.isdir (root w1) q = true /\ FS.isdir (root w2) q = true).
Proof.
  cbn zeta.
  pose proof (@same_kinds_refl content) as Hr.
  pose proof (@same_kinds_trans content) as Ht.
  assert (H1 : same_kinds (root w)
                 (root (fst (generate_condition self snrs noise_name output_dir
                               reverb_name files_per_condition pool w)))).
  { eapply generate_condition_same_kinds. apply surjective_pairing. }
  assert (H2 : same_kinds (root w)
                 (root (fst (generate_dataset self snrs output_dir
                               files_per_condition n_workers w)))).
  { assert (Hd : disk_rel same_kinds
                   (generate_dataset self snrs output_dir files_per_condition
                                     n_workers)).
    { unfold generate_dataset. apply (disk_rel_bind _ Ht).
      - unfold Pool. destruct (n_workers <? 1)%Z;
          [apply (disk_rel_raise _ Hr) | apply (disk_rel_ret _ Hr)].
      - intros pl. apply (disk_rel_for_each _ Hr Ht). intros [rv nz].
        apply generate_condition_same_kinds. }
    eapply Hd. apply surjective_pairing. }
  split; intros Hq; split;
    first [eapply same_kinds_isfile; eassumption
          | eapply same_kinds_isdir; eassumption].
Qed.

(** X12. A call of the file generator that raises has
    left the disk as it was: the write is its last step, so a file that
    could not be read or processed leaves no output. *)
Theorem FileGenerator_call_failure_writes_nothing
        (self : FileGenerator) (f : string) (w w' : world) (e : exn) :
  FileGenerator_call self f w = (w', inl e) -> root w' = root w.
Proof.
  unfold FileGenerator_call, bind, wavread. cbn [root log].
  destruct (FS.resolve (root w) f) as [[[[x fs]|]|es]|];
    try (intros H; inversion H; subst; reflexivity).
  set (x' := match fg_r self with
             | Some r => of_collaborator (add_reverb x r fs (fg_speech_energy self))
             | None => ret x
             end).
  assert (Hx' : forall w0, fst (x' w0) = w0).
  { intros w0. subst x'. destruct (fg_r self) as [r|]; [|reflexivity].
    destruct (add_reverb x r fs (fg_speech_energy self)); reflexivity. }
  specialize (Hx' (log (EvRead f) w)).
  destruct (x' (log (EvRead f) w)) as [w1 [e1|x1]]; cbn [fst] in Hx'; subst w1.
  - intros H. inversion H; subst. reflexivity.
  - destruct (add_noise x1 (fg_n self) fs (fg_snr self) (fg_speech_energy self))
      as [e2|[y g]].
    + intros H. inversion H; subst. reflexivity.
    + cbn [of_collaborator ret fst]. unfold wavwrite. cbn [root log].
      destruct (FS.write_file (root w) _ (Some (y, fs)));
        intros H; inversion H; subst; reflexivity.
Qed.

End RunAndDisk.

(** ** The registries under registration *)

Section Registration.
Context {E : Externals}.

Lemma set_all_NoDup (nfs : list (key * string)) : forall d,
  NoDup (Dict.keys d) -> NoDup (Dict.keys (Dict.set_all nfs d)).
Proof.
  induction nfs as [|[n f] nfs IH]; intros d Hd; cbn [Dict.set_all]; auto.
  apply IH. now apply dict_set_NoDup.
Qed.

Lemma set_all_get_other (nfs : list (key * string)) : forall d k,
  ~ In k (map fst nfs) -> Dict.get k (Dict.set_all nfs d) = Dict.get k d.
Proof.
  induction nfs as [|[n f] nfs IH]; intros d k Hk; cbn [Dict.set_all]; auto.
  cbn in Hk. rewrite IH by tauto.
  apply dict_get_set_other. intros ->. tauto.
Qed.

(** After the loop of assignments a name that occurs among them maps to
    one of the paths assigned to it. *)
Lemma set_all_get_in (nfs : list (key * string)) : forall d k,
  In k (map fst nfs) ->
  exists v, In (k, v) nfs /\ Dict.get k (Dict.set_all nfs d) = Some v.
Proof.
  induction nfs as [|[n f] nfs IH]; intros d k Hk; [contradiction|].
  cbn [Dict.set_all].
  assert (Hdec : In k (map fst nfs) \/ ~ In k (map fst nfs)).
  { destruct (existsb (Py.key_eqb k) (map fst nfs)) eqn:Hex.
    - left. apply existsb_exists in Hex. destruct Hex as [x [Hx Heq]].
      apply key_eqb_eq in Heq. now subst.
    - right. intros Hin.
      assert (Ht : existsb (Py.key_eqb k) (map fst nfs) = true).
      { apply existsb_exists. exists k. split; [assumption | apply key_eqb_refl]. }
      congruence. }
  destruct Hdec as [Hin | Hnotin].
  - destruct (IH (Dict.set n f d) k Hin) as [v [Hv Hget]].
    exists v. split; [now right | exact Hget].
  - destruct Hk as [Hk | Hk]; [|contradiction]. cbn in Hk. subst n.
    exists f. split; [now left|].
    rewrite set_all_get_other by assumption. apply dict_get_set_same.
Qed.

Lemma combine_stems (files : list string) :
  combine (map (fun f => KStr (stem f)) files) files
  = map (fun f => (KStr (stem f), f)) files.
Proof. induction files as [|f l IH]; cbn; [reflexivity | now rewrite IH]. Qed.

(** X1. Whatever the path and the name, a registry
    whose keys are pairwise different has pairwise different keys after
    [_add_distortion_files], hence after [add_noise_files] and
    [add_reverb_files]: a name never occurs twice. *)
Theorem registration_keeps_keys_distinct
        (r : FS.node content) (self : Dataset) (path : string)
        (dd : Dict.t) (name : option name_arg) :
  (NoDup (Dict.keys dd) ->
   NoDup (Dict.keys (fst (_add_distortion_files r path dd name))))
  /\ (NoDup (Dict.keys (noise self)) ->
      NoDup (Dict.keys (noise (fst (add_noise_files r self path name)))))
  /\ (NoDup (Dict.keys (reverb self)) ->
      NoDup (Dict.keys (reverb (fst (add_reverb_files r self path name))))).
Proof.
  assert (H : forall d, NoDup (Dict.keys d) ->
                NoDup (Dict.keys (fst (_add_distortion_files r path d name)))).
  { intros d Hd. unfold _add_distortion_files.
    destruct (FS.isfile r path).
    - destruct name as [[s|l|l]|]; cbn [fst]; auto using dict_set_NoDup.
    - destruct (FS.isdir r path); [|exact Hd].
      destruct name as [nm|]; cbn [fst].
      + destruct (negb (Py.name_is_list nm) || negb (Py.name_is_tuple nm));
          [exact Hd|].
        destruct (negb (Py.name_len nm =? List.length (wav_files r path))%nat);
          cbn [fst]; [exact Hd | now apply set_all_NoDup].
      + now apply set_all_NoDup. }
  split; [apply H|].
  unfold add_noise_files, add_reverb_files. split; intros Hd.
  - specialize (H (noise self) Hd).
    destruct (_add_distortion_files r path (noise self) name). exact H.
  - specialize (H (reverb self) Hd).
    destruct (_add_distortion_files r path (reverb self) name). exact H.
Qed.

(** X2. When [add_speech_files],
    [add_noise_files] or [add_reverb_files] raises, the data set is the
    one the call started with; the error is a [ValueError], or the
    [TypeError] of a list used as the name of a single file. *)
Theorem failed_registration_changes_nothing
        (r : FS.node content) (self self' : Dataset) (path : string)
        (recursive : bool) (name : option name_arg) (e : exn) :
  (add_speech_files r self path recursive = (self', inl e) ->
     self' = self /\ e = InvalidPathError)
  /\ (add_noise_files r self path name = (self', inl e)
      \/ add_reverb_files r self path name = (self', inl e) ->
      self' = self
      /\ (is_ValueError e = true \/ e = TypeError "unhashable type: 'list'")).
Proof.
  assert (H : forall d d', _add_distortion_files r path d name = (d', inl e) ->
                d' = d /\ (is_ValueError e = true
                           \/ e = TypeError "unhashable type: 'list'")).
  { intros d d'. unfold _add_distortion_files.
    destruct (FS.isfile r path).
    - destruct name as [[s|l|l]|]; intros H; inversion H; subst; auto.
    - destruct (FS.isdir r path).
      + destruct name as [nm|];
          [|intros H; inversion H].
        destruct (negb (Py.name_is_list nm) || negb (Py.name_is_tuple nm));
          [intros H; inversion H; subst; auto|].
        destruct (negb (Py.name_len nm =? List.length (wav_files r path))%nat);
          intros H; inversion H; subst; auto.
      + intros H; inversion H; subst; auto. }
  split.
  - unfold add_speech_files.
    destruct (FS.isfile r path); [discriminate|].
    destruct (FS.isdir r path); [discriminate|].
    intros H0. inversion H0; subst. auto.
  - unfold add_noise_files, add_reverb_files. intros [H0 | H0].
    + destruct (_add_distortion_files r path (noise self) name)
        as [nd res] eqn:Hadd.
      inversion H0; subst. destruct (H _ _ Hadd) as [-> He].
      split; [now destruct self | exact He].
    + destruct (_add_distortion_files r path (reverb self) name)
        as [rd res] eqn:Hadd.
      inversion H0; subst. destruct (H _ _ Hadd) as [-> He].
      split; [now destruct self | exact He].
Qed.

(** Each method touches its own part. [add_speech_files] only appends
    to the speech list, whose entries keep their places, and leaves both
    registries alone; [add_noise_files] changes at most the noise
    registry and [add_reverb_files] at most the reverb registry. *)
Theorem registration_frames
        (r : FS.node content) (self : Dataset) (path : string)
        (recursive : bool) (name : option name_arg) :
  let ds := fst (add_speech_files r self path recursive) in
  let dn := fst (add_noise_files r self path name) in
  let dr := fst (add_reverb_files r self path name) in
  ((exists files, speech ds = (speech self ++ files)%list)
   /\ noise ds = noise self /\ reverb ds = reverb self
   /\ speech_energy ds = speech_energy self)
  /\ (speech dn = speech self /\ reverb dn = reverb self
      /\ speech_energy dn = speech_energy self)
  /\ (speech dr = speech self /\ noise dr = noise self
      /\ speech_energy dr = speech_energy self).
Proof.
  cbn zeta. split; [|split].
  - unfold add_speech_files.
    destruct (FS.isfile r path); cbn [fst speech noise reverb speech_energy with_speech].
    { split; [now exists [path] | auto]. }
    destruct (FS.isdir r path); cbn [fst speech noise reverb speech_energy with_speech].
    { split; [eexists; reflexivity | auto]. }
    split; [|auto]. exists []. now rewrite app_nil_r.
  - unfold add_noise_files.
    destruct (_add_distortion_files r path (noise self) name).
    repeat split.
  - unfold add_reverb_files.
    destruct (_add_distortion_files r path (reverb self) name).
    repeat split.
Qed.

(** X3. For a folder and no name the call
    returns; every file found has its base name without extension as a
    key, which maps to a file found with that base name; keys that are
    the base name of no file found map as before. *)
Theorem add_distortion_folder_unnamed
        (r : FS.node content) (path : string) (dd : Dict.t) :
  FS.isdir r path = true ->
  let dd' := fst (_add_distortion_files r path dd None) in
  snd (_add_distortion_files r path dd None) = inr tt
  /\ (forall f, In f (wav_files r path) ->
        exists f', In f' (wav_files r path)
                   /\ stem f' = stem f
                   /\ Dict.get (KStr (stem f)) dd' = Some f')
  /\ (forall k, (forall f, In f (wav_files r path) -> k <> KStr (stem f)) ->
        Dict.get k dd' = Dict.get k dd).
Proof.
  intros Hdir. cbn zeta. unfold _add_distortion_files.
  rewrite (isdir_not_isfile _ _ Hdir), Hdir. cbn [fst snd].
  rewrite combine_stems.
  split; [reflexivity|]. split.
  - intros f Hf.
    destruct (set_all_get_in (map (fun f => (KStr (stem f), f)) (wav_files r path))
                dd (KStr (stem f))) as [v [Hv Hget]].
    { rewrite map_map. cbn [fst]. apply in_map_iff. now exists f. }
    apply in_map_iff in Hv. destruct Hv as [f' [Heq Hf']].
    assert (Hstem : stem f' = stem f) by congruence.
    assert (Hv : v = f') by congruence. subst v.
    exists f'. split; [exact Hf'|]. split; [exact Hstem | exact Hget].
  - intros k Hk. apply set_all_get_other.
    rewrite map_map. cbn [fst]. intros Hin. apply in_map_iff in Hin.
    destruct Hin as [f [Heq Hf]]. apply (Hk f Hf). now symmetry.
Qed.

(** X4. When everything the two globs
    find in a folder is a regular file, registering the folder without
    names gives the registry that registering each file found, singly and
    in the order found, gives. *)
Theorem add_distortion_folder_is_each_file
        (r : FS.node content) (path : string) (dd : Dict.t) :
  FS.isdir r path = true ->
  Forall (fun f => FS.isfile r f = true) (wav_files r path) ->
  fst (_add_distortion_files r path dd None)
  = register_each r (wav_files r path) dd.
Proof.
  intros Hdir Hfiles. unfold _add_distortion_files at 1.
  rewrite (isdir_not_isfile _ _ Hdir), Hdir. cbn [fst].
  rewrite combine_stems. unfold register_each.
  revert dd. induction Hfiles as [|f files Hf Hfiles IH]; intros dd;
    [reflexivity|].
  cbn [map Dict.set_all fold_left]. rewrite IH. f_equal.
  unfold _add_distortion_files. now rewrite Hf.
Qed.

End Registration.

(** ** Failures on the way of a run *)

Section RunFailures.
Context {E : Externals}.

(** X9. When the file of the noise, or the
    file of a registered reverb, cannot be read, [generate_condition]
    raises the error of the read with nothing done but the reads: the disk
    is as it was and [os.mkdir] was not called, not even for the output
    directory. *)
Theorem generate_condition_unreadable_source
        (self : Dataset) (snrs : pyval) (noise_name : key)
        (output_dir p : string) (reverb_name : option key)
        (files_per_condition : option Z) (pool : option Z)
        (w : world) (e : exn) :
  Dict.get noise_name (noise self) = Some p ->
  (snd (wavread p w) = inl e ->
     generate_condition self snrs noise_name output_dir reverb_name
                        files_per_condition pool w
     = (log (EvRead p) w, inl e))
  /\ (forall nn rv rp,
        snd (wavread p w) = inr nn ->
        reverb_name = Some rv ->
        Dict.get rv (reverb self) = Some rp ->
        snd (wavread rp (log (EvRead p) w)) = inl e ->
        generate_condition self snrs noise_name output_dir reverb_name
                           files_per_condition pool w
        = (log (EvRead rp) (log (EvRead p) w), inl e)).
Proof.
  intros Hp.
  assert (Hmem : Dict.mem noise_name (noise self) = true)
    by (unfold Dict.mem; now rewrite Hp).
  split.
  - intros Hread. unfold generate_condition. rewrite Hmem. cbn [negb].
    unfold bind, getitem. rewrite Hp. cbn [ret].
    destruct (wavread p w) as [w1 res] eqn:Hw. cbn [snd] in Hread. subst res.
    now rewrite (wavread_world _ _ _ _ Hw).
  - intros nn rv rp Hread -> Hrp Hrev.
    unfold generate_condition. rewrite Hmem. cbn [negb].
    unfold bind, getitem. rewrite Hp. cbn [ret].
    destruct (wavread p w) as [w1 res] eqn:Hw. cbn [snd] in Hread. subst res.
    rewrite (wavread_world _ _ _ _ Hw). destruct nn as [n nfs].
    unfold load_reverb, bind, getitem. rewrite Hrp. cbn [ret].
    destruct (wavread rp (log (EvRead p) w)) as [w2 res] eqn:Hw2.
    cbn [snd] in Hrev. subst res.
    now rewrite (wavread_world _ _ _ _ Hw2).
Qed.

(** X8. With the noise read and no reverb, an
    output directory that is not there is made by one [os.mkdir], and
    when that call fails its error ends the run, be it an [OSError] or
    the [ValueError] of a path with a NUL character: unlike the folders
    of the SNRs, whose [OSError] is caught, this one is not, and nothing
    else is tried. *)
Theorem generate_condition_output_dir_error
        (self : Dataset) (snrs : pyval) (noise_name : key)
        (output_dir p : string) (files_per_condition : option Z)
        (pool : option Z) (w : world) (x : signal) (fs : Z) (f : FS.failure) :
  Dict.get noise_name (noise self) = Some p ->
  FS.resolve (root w) p = Some (FS.File (Some (x, fs))) ->
  FS.isdir (root w) output_dir = false ->
  FS.mkdir (root w) output_dir = inl f ->
  generate_condition self snrs noise_name output_dir None
                     files_per_condition pool w
  = (mkWorld (root w) (trace w ++ [EvRead p; EvMkdir output_dir]) (gen w),
     inl (py_error f output_dir)).
Proof.
  intros Hp Hread Hdir Hmk.
  assert (Hmem : Dict.mem noise_name (noise self) = true)
    by (unfold Dict.mem; now rewrite Hp).
  unfold generate_condition. rewrite Hmem. cbn [negb].
  unfold bind, getitem. rewrite Hp. cbn [ret].
  unfold wavread. cbn [root log]. rewrite Hread.
  cbn [load_reverb ret]. unfold os_path_isdir. cbn [root log].
  rewrite Hdir. cbn [negb]. unfold os_mkdir. cbn [root log].
  rewrite Hmk. unfold log. cbn [root trace gen].
  now rewrite <- app_assoc.
Qed.

Lemma for_each_app {A} (xs ys : list A) (body : A -> M unit) (w : world) :
  for_each (xs ++ ys) body w
  = bind (for_each xs body) (fun _ => for_each ys body) w.
Proof.
  revert w. induction xs as [|x xs IH]; intros w; cbn [app for_each].
  - reflexivity.
  - unfold bind. destruct (body x w) as [w1 [e|[]]]; [reflexivity|].
    rewrite IH. reflexivity.
Qed.

(** X14. [generate_dataset] catches
    nothing: when the conditions before one have run and that one raises,
    the call raises the same error from the world that condition left,
    and the conditions after it are not run. *)
Theorem generate_dataset_stops_at_failure
        (self : Dataset) (snrs : pyval) (output_dir : string)
        (files_per_condition : option Z) (n_workers : Z)
        (pre rest : list (key * key)) (rv nz : key)
        (w w1 w2 : world) (e : exn) :
  (1 <= n_workers)%Z ->
  conditions self = (pre ++ (rv, nz) :: rest)%list ->
  for_each pre
    (fun '(reverb_name, noise_name) =>
       generate_condition self (VList (snr_list snrs)) noise_name output_dir
         (Some reverb_name) files_per_condition (Some n_workers)) w
  = (w1, inr tt) ->
  generate_condition self (VList (snr_list snrs)) nz output_dir (Some rv)
                     files_per_condition (Some n_workers) w1
  = (w2, inl e) ->
  generate_dataset self snrs output_dir files_per_condition n_workers w
  = (w2, inl e).
Proof.
  intros Hn Hconds Hpre Hfail.
  unfold generate_dataset, bind at 1. rewrite (Pool_ok _ _ Hn), Hconds.
  rewrite for_each_app. unfold bind at 1. rewrite Hpre.
  cbn [for_each]. unfold bind. now rewrite Hfail.
Qed.

End RunFailures.

(** ** The trace of a run that returns *)

Section SuccessfulRun.
Context {E : Externals}.

(** X10. A call of [generate_condition] without [files_per_condition]
    that returns has read the noise file once, then the reverb file once
    if a reverb was given, and then, for each SNR in the order of the
    SNRs, every path of the speech list once: the noise and the reverb
    are loaded per call, not per file. Without a pool the speech files
    of an SNR are read in the order of the list; with a pool they are
    read in the order the workers take them, each once. *)
Theorem generate_condition_reads_sources_once
        (self : Dataset) (snrs : pyval) (noise_name : key)
        (output_dir : string) (reverb_name : option key) (pool : option Z)
        (w w' : world) :
  generate_condition self snrs noise_name output_dir reverb_name None pool w
  = (w', inr tt) ->
  exists p rss,
    Dict.get noise_name (noise self) = Some p
    /\ reads (trace w')
       = (reads (trace w) ++ p :: reverb_path self reverb_name
          ++ List.concat rss)%list
    /\ Forall2 (fun _ rs => in_order pool rs (speech self))
               (snr_list snrs) rss
    /\ List.length (reads (trace w'))
       = (List.length (reads (trace w)) + 1
          + List.length (reverb_path self reverb_name)
          + List.length (snr_list snrs) * List.length (speech self))%nat
    /\ (pool = None ->
        reads (trace w')
        = (reads (trace w) ++ p :: reverb_path self reverb_name
           ++ List.concat (map (fun _ => speech self) (snr_list snrs)))%list).
Proof.
  intros H. destruct (generate_condition_success _ _ _ _ _ _ _ _ _ H)
    as [p [rss [wss [tried [Hp [Hr [_ [Hruns _]]]]]]]].
  exists p, rss. split; [exact Hp|]. split; [exact Hr|].
  split; [exact (proj1 (snr_runs_all _ _ _ _ _ _ _ Hruns))|]. split.
  - rewrite Hr, length_app. cbn [List.length]. rewrite length_app.
    rewrite (proj1 (snr_runs_count _ _ _ _ _ _ _ Hruns)). lia.
  - intros ->. rewrite Hr.
    now rewrite (proj1 (snr_runs_sequential _ _ _ _ _ _ Hruns)).
Qed.

(** X11. A call of [generate_condition] without [files_per_condition]
    that returns has written, for each SNR in order, once at the output
    path of every speech file for that SNR, and nowhere else: as many
    writes as there are SNRs times speech files. Without a pool the
    writes of an SNR come in the order of the speech list; with a pool
    they come in the order the workers make them. *)
Theorem generate_condition_writes_each_pair
        (self : Dataset) (snrs : pyval) (noise_name : key)
        (output_dir : string) (reverb_name : option key) (pool : option Z)
        (w w' : world) :
  generate_condition self snrs noise_name output_dir reverb_name None pool w
  = (w', inr tt) ->
  (exists wss,
     map fst (writes (trace w'))
     = (map fst (writes (trace w)) ++ List.concat wss)%list
     /\ Forall2 (fun snr ws =>
                   exists ds,
                     in_order pool ds (speech self)
                     /\ ws = map (output_path output_dir
                                    (condition_name_of reverb_name noise_name)
                                    snr) ds)
                (snr_list snrs) wss)
  /\ List.length (writes (trace w'))
     = (List.length (writes (trace w))
        + List.length (snr_list snrs) * List.length (speech self))%nat
  /\ (pool = None ->
      map fst (writes (trace w'))
      = (map fst (writes (trace w))
         ++ flat_map
              (fun snr =>
                 map (output_path output_dir
                        (condition_name_of reverb_name noise_name) snr)
                     (speech self))
              (snr_list snrs))%list).
Proof.
  intros H. destruct (generate_condition_success _ _ _ _ _ _ _ _ _ H)
    as [p [rss [wss [tried [_ [_ [Hw [Hruns _]]]]]]]].
  split; [|split].
  - exists wss. split; [exact Hw|].
    exact (proj2 (snr_runs_all _ _ _ _ _ _ _ Hruns)).
  - apply (f_equal (@List.length string)) in Hw.
    rewrite length_app, !length_map in Hw. rewrite Hw.
    now rewrite (proj2 (snr_runs_count _ _ _ _ _ _ _ Hruns)).
  - intros ->. rewrite Hw.
    now rewrite (proj2 (snr_runs_sequential _ _ _ _ _ _ Hruns)).
Qed.

End SuccessfulRun.


(** ** Folders on a fresh output directory *)







Section FreshFolders.
Context {E : Externals}.






End FreshFolders.

(** ** The further properties on the demo disk *)

(** A registry with distinct keys, a folder registered without names. *)
Lemma registration_keeps_keys_distinct_witness :
  NoDup (Dict.keys [(KStr "white", "elsewhere.wav")])
  /\ NoDup (Dict.keys (fst (_add_distortion_files (E := Demo.ext) Demo.disk
                              "noise" [(KStr "white", "elsewhere.wav")] None))).
Proof.
  assert (H : NoDup (Dict.keys [(KStr "white", "elsewhere.wav")])).
  { constructor; [cbn; tauto | constructor]. }
  split; [exact H|].
  exact (proj1 (registration_keeps_keys_distinct (E := Demo.ext) Demo.disk
                  (Dataset_init "P.56") "noise"
                  [(KStr "white", "elsewhere.wav")] None) H).
Defined.

(** A path that does not exist, for the speech list. *)
Lemma failed_registration_changes_nothing_witness :
  add_speech_files (E := Demo.ext) Demo.disk Demo.d_white "nowhere" false
  = (Demo.d_white, inl InvalidPathError)
  /\ Demo.d_white = Demo.d_white /\ InvalidPathError = InvalidPathError.
Proof.
  split; [reflexivity|].
  exact (proj1 (failed_registration_changes_nothing (E := Demo.ext) Demo.disk
                  Demo.d_white Demo.d_white "nowhere" false None
                  InvalidPathError) eq_refl).
Defined.

(** The folder [noise]: ["white"] and ["babble"] are keys afterwards. *)
Lemma add_distortion_folder_unnamed_witness :
  FS.isdir Demo.disk "noise" = true
  /\ fst (_add_distortion_files (E := Demo.ext) Demo.disk "noise" [] None)
     = [(KStr "white", "noise/white.wav"); (KStr "babble", "noise/babble.wav")]
  /\ snd (_add_distortion_files (E := Demo.ext) Demo.disk "noise" [] None)
     = inr tt.
Proof.
  split; [reflexivity|]. split; [reflexivity|].
  exact (proj1 (add_distortion_folder_unnamed (E := Demo.ext) Demo.disk
                  "noise" [] eq_refl)).
Defined.

Lemma add_distortion_folder_is_each_file_witness :
  FS.isdir Demo.disk "noise" = true
  /\ Forall (fun f => FS.isfile Demo.disk f = true)
            (wav_files (E := Demo.ext) Demo.disk "noise")
  /\ fst (_add_distortion_files (E := Demo.ext) Demo.disk "noise" [] None)
     = register_each (E := Demo.ext) Demo.disk
         (wav_files (E := Demo.ext) Demo.disk "noise") [].
Proof.
  assert (H : Forall (fun f => FS.isfile Demo.disk f = true)
                     (wav_files (E := Demo.ext) Demo.disk "noise")).
  { repeat constructor. }
  split; [reflexivity|]. split; [exact H|].
  exact (add_distortion_folder_is_each_file (E := Demo.ext) Demo.disk "noise"
           [] eq_refl H).
Defined.


(** The output directory named after an existing file. *)
Lemma generate_condition_output_dir_error_witness :
  generate_condition (E := Demo.ext) Demo.d_white (VList [VInt 0])
    (KStr "white") "speech/a.wav" None None None Demo.start
  = (mkWorld Demo.disk [EvRead "noise/white.wav"; EvMkdir "speech/a.wav"] tt,
     inl (OSError FS.EEXIST "speech/a.wav")).
Proof.
  exact (generate_condition_output_dir_error (E := Demo.ext) Demo.d_white
           (VList [VInt 0]) (KStr "white") "speech/a.wav" "noise/white.wav"
           None None Demo.start [9; 9]%Z 16000%Z (FS.Errno FS.EEXIST)
           eq_refl eq_refl eq_refl eq_refl).
Defined.

(** The noise ["notes"] is registered on a file that is no audio. *)
Lemma generate_condition_unreadable_source_witness :
  generate_condition (E := Demo.ext) Demo.d_mixed (VList [VInt 0])
    (KStr "notes") "gen" (Some (KStr "room1")) None None Demo.start
  = (mkWorld Demo.disk [EvRead "speech/notes.txt"] tt,
     inl (ExternalError "wavread")).
Proof.
  exact (proj1 (generate_condition_unreadable_source (E := Demo.ext)
                  Demo.d_mixed (VList [VInt 0]) (KStr "notes") "gen"
                  "speech/notes.txt" (Some (KStr "room1")) None None
                  Demo.start (ExternalError "wavread") eq_refl) eq_refl).
Defined.

(** The three speech files at 5 and 10 dB, on a pool of three workers
    that move in turn: the reads of an SNR come in another order than the
    speech list, and its writes in yet another. *)
Lemma generate_condition_reads_sources_once_witness :
  reads (trace (fst (generate_condition (E := Demo.ext_turns) Demo.d_three
                       (VList [VInt 5; VInt 10]) (KStr "white") "gen" None
                       None (Some 3%Z) Demo.start_turns)))
  = ["noise/white.wav";
     "speech/b.WAV"; "speech/sub/c.wav"; "speech/a.wav";
     "speech/b.WAV"; "speech/sub/c.wav"; "speech/a.wav"]
  /\ exists p rss,
      Dict.get (KStr "white") (noise Demo.d_three) = Some p
      /\ reads (trace (fst (generate_condition (E := Demo.ext_turns)
                              Demo.d_three (VList [VInt 5; VInt 10])
                              (KStr "white") "gen" None None (Some 3%Z)
                              Demo.start_turns)))
         = (reads (trace Demo.start_turns)
            ++ p :: reverb_path (E := Demo.ext_turns) Demo.d_three None
            ++ List.concat rss)%list
      /\ Forall2 (fun _ rs => in_order (Some 3%Z) rs (speech Demo.d_three))
                 (snr_list (VList [VInt 5; VInt 10])) rss
      /\ List.length
           (reads (trace (fst (generate_condition (E := Demo.ext_turns)
                                 Demo.d_three (VList [VInt 5; VInt 10])
                                 (KStr "white") "gen" None None (Some 3%Z)
                                 Demo.start_turns))))
         = (List.length (reads (trace Demo.start_turns)) + 1
            + List.length (reverb_path (E := Demo.ext_turns) Demo.d_three None)
            + List.length (snr_list (VList [VInt 5; VInt 10]))
              * List.length (speech Demo.d_three))%nat
      /\ (Some 3%Z = None ->
          reads (trace (fst (generate_condition (E := Demo.ext_turns)
                               Demo.d_three (VList [VInt 5; VInt 10])
                               (KStr "white") "gen" None None (Some 3%Z)
                               Demo.start_turns)))
          = (reads (trace Demo.start_turns)
             ++ p :: reverb_path (E := Demo.ext_turns) Demo.d_three None
             ++ List.concat (map (fun _ => speech Demo.d_three)
                               (snr_list (VList [VInt 5; VInt 10]))))%list).
Proof.
  split; [vm_compute; reflexivity|].
  apply (generate_condition_reads_sources_once (E := Demo.ext_turns)
           Demo.d_three (VList [VInt 5; VInt 10]) (KStr "white") "gen" None
           (Some 3%Z) Demo.start_turns).
  vm_compute. reflexivity.
Defined.

Lemma generate_condition_writes_each_pair_witness :
  map fst (writes (trace (fst (generate_condition (E := Demo.ext_turns)
                                 Demo.d_three (VList [VInt 5; VInt 10])
                                 (KStr "white") "gen" None None (Some 3%Z)
                                 Demo.start_turns))))
  = ["gen/white_5dB/b.WAV"; "gen/white_5dB/a.wav"; "gen/white_5dB/c.wav";
     "gen/white_10dB/b.WAV"; "gen/white_10dB/a.wav"; "gen/white_10dB/c.wav"]
  /\ List.length
       (writes (trace (fst (generate_condition (E := Demo.ext_turns)
                              Demo.d_three (VList [VInt 5; VInt 10])
                              (KStr "white") "gen" None None (Some 3%Z)
                              Demo.start_turns))))
     = (List.length (writes (trace Demo.start_turns))
        + List.length (snr_list (VList [VInt 5; VInt 10]))
          * List.length (speech Demo.d_three))%nat.
Proof.
  split; [vm_compute; reflexivity|].
  apply (generate_condition_writes_each_pair (E := Demo.ext_turns)
           Demo.d_three (VList [VInt 5; VInt 10]) (KStr "white") "gen" None
           (Some 3%Z) Demo.start_turns).
  vm_compute. reflexivity.
Defined.

(** A speech file that is no audio. *)
Lemma FileGenerator_call_failure_writes_nothing_witness :
  root (fst (FileGenerator_call (E := Demo.ext)
               (mkFileGenerator (E := Demo.ext) [9; 9]%Z None (VInt 0) "out"
                                (KStr "white") "P.56")
               "speech/notes.txt" Demo.start))
  = root Demo.start.
Proof.
  exact (FileGenerator_call_failure_writes_nothing (E := Demo.ext)
           (mkFileGenerator (E := Demo.ext) [9; 9]%Z None (VInt 0) "out"
                            (KStr "white") "P.56")
           "speech/notes.txt" Demo.start _ (ExternalError "wavread") eq_refl).
Defined.

(** The conditions of the mixed data set: ["white"] runs, ["notes"]
    fails on its read and ends the call. *)
Lemma generate_dataset_stops_at_failure_witness :
  conditions Demo.d_mixed
  = [(KStr "room1", KStr "white"); (KStr "room1", KStr "notes")]
  /\ snd (generate_dataset (E := Demo.ext) Demo.d_mixed (VInt 5) "gen" None 4
            Demo.start)
     = inl (ExternalError "wavread").
Proof.
  split; [reflexivity|].
  exact (f_equal snd
    (generate_dataset_stops_at_failure (E := Demo.ext) Demo.d_mixed (VInt 5)
       "gen" None 4 [(KStr "room1", KStr "white")] []
       (KStr "room1") (KStr "notes") Demo.start _ _ (ExternalError "wavread")
       ltac:(lia) eq_refl (surjective_pairing _) eq_refl)).
Defined.

(** A pool of one worker on five speech paths, in chunks of two: the
    first path is no audio, which ends its chunk, so that the second path
    is not read; the other chunks are run, and then the call raises.
    Without a pool the loop stops at the first path. *)
Example pool_ends_chunk_at_failure :
  (let r := generate_condition (E := Demo.ext) Demo.d_five (VList [VInt 5])
              (KStr "white") "gen" None None (Some 1%Z) Demo.start in
   trace (fst r)
   = [EvRead "noise/white.wav"; EvMkdir "gen"; EvMkdir "gen/white_5dB";
      EvRead "speech/notes.txt";
      EvRead "speech/b.WAV"; EvWrite "gen/white_5dB/b.WAV" 8000;
      EvRead "speech/sub/c.wav"; EvWrite "gen/white_5dB/c.wav" 44100;
      EvRead "speech/a.wav"; EvWrite "gen/white_5dB/a.wav" 16000]
   /\ snd r = inl (ExternalError "wavread"))
  /\ (let r := generate_condition (E := Demo.ext) Demo.d_five (VList [VInt 5])
                 (KStr "white") "gen" None None None Demo.start in
      trace (fst r)
      = [EvRead "noise/white.wav"; EvMkdir "gen"; EvMkdir "gen/white_5dB";
         EvRead "speech/notes.txt"]
      /\ snd r = inl (ExternalError "wavread")).
Proof. repeat split; vm_compute; reflexivity. Qed.
